(** * raylib text module: UTF-8 decoding, font atlas geometry, text layout

    Shallow embedding of [src/text.c] and the properties its specification
    states about it.

    Conventions of the embedding.
    - A C [int] is a [Z].  Where the glyph sizes, the padding and the font
      size enter the arithmetic of the atlas, each operation is kept to 32
      bits ([wrap]); the counters of the text loops stay below the length
      of the string and are left as they are.
    - A C string is a [list byte]: the bytes stored from the pointer on.  A
      read at an offset the list does not have is a read outside the buffer
      and yields [None]; every function that reads or writes memory lives
      in the [option] monad.  Allocations succeed.
    - A C [float] has two readings.  In [MeasureTextEx], [DrawTextEx] and
      [LoadFontData] as modelled at the top level it is an exact rational
      ([Q]): the statements over this reading give the formula the code
      evaluates, not its rounding.  In the module [Single] and in
      [GenImageFontAtlas] it is an IEEE 754 binary32 number ([F32.t]), each
      operation rounded to nearest; the statements that depend on the
      rounding, on infinities or on NaN are over this reading.  [logf] and
      [powf], which the C standard does not pin down, are a parameter
      ([Libm]). *)

From Stdlib Require Import ZArith List Bool Lia Strings.Byte String.
From Stdlib Require Import QArith Qround Qminmax Qfield.
From Stdlib Require Import Floats.SpecFloat.
Import ListNotations.
Local Open Scope list_scope.
Local Open Scope Z_scope.

(** ** Errors: the option monad *)

Definition bind {A B : Type} (m : option A) (f : A -> option B) : option B :=
  match m with
  | Some a => f a
  | None => None
  end.

Notation "x <- m ;; k" := (bind m (fun x => k))
  (at level 61, m at next level, right associativity).
Notation "' p <- m ;; k" := (bind m (fun p => k))
  (at level 61, p pattern, m at next level, right associativity).

(** ** Traced reads

    A computation that reads a buffer fails on a read outside of it, and
    otherwise returns its value with the offsets it has read, in order. *)

Definition Traced (A : Type) : Type := option (A * list nat).

Definition ret {A : Type} (a : A) : Traced A := Some (a, []).

Definition bindT {A B : Type} (m : Traced A) (f : A -> Traced B) : Traced B :=
  match m with
  | Some (a, l1) =>
      match f a with
      | Some (b, l2) => Some (b, l1 ++ l2)
      | None => None
      end
  | None => None
  end.

Notation "x <~ m ;; k" := (bindT m (fun x => k))
  (at level 61, m at next level, right associativity).

(** ** Bytes *)

(** [(unsigned char)b] as an [int]. *)
Definition uchar (b : byte) : Z := Z.of_N (Byte.to_N b).

(** The byte holding the value [z], for [0 <= z < 256]. *)
Definition byte_of_Z (z : Z) : byte :=
  match Byte.of_N (Z.to_N z) with
  | Some b => b
  | None => x00
  end.

(** [text[k]], read as an unsigned char. *)
Definition text_at (text : list byte) (k : nat) : Traced Z :=
  match nth_error text k with
  | Some b => Some (uchar b, [k])
  | None => None
  end.

(** ** GetNextCodepoint (text.c, 507-611) *)

(** The final test [if (code > 0x10ffff) code = 0x3f]. *)
Definition clamp (code : Z) : Z :=
  if 0x10ffff <? code then 0x3f else code.

(** [(octet == '\0') || ((octet >> 6) != 2)]: not a continuation byte. *)
Definition unexpected (octet : Z) : bool :=
  (octet =? 0) || negb (Z.shiftr octet 6 =? 2).

(** Returns the codepoint and [*bytesProcessed], with the offsets read. *)
Definition GetNextCodepoint (text : list byte) : Traced (Z * Z) :=
  let code := 0x3f in
  octet <~ text_at text 0 ;;
  if octet <=? 0x7f then
    (* code = text[0] *)
    ret (clamp octet, 1)
  else if Z.land octet 0xe0 =? 0xc0 then
    octet1 <~ text_at text 1 ;;
    if unexpected octet1 then ret (code, 2)
    else if (0xc2 <=? octet) && (octet <=? 0xdf) then
      ret (clamp (Z.lor (Z.shiftl (Z.land octet 0x1f) 6)
                         (Z.land octet1 0x3f)), 2)
    else ret (clamp code, 1)
  else if Z.land octet 0xf0 =? 0xe0 then
    octet1 <~ text_at text 1 ;;
    if unexpected octet1 then ret (code, 2) else
    octet2 <~ text_at text 2 ;;
    if unexpected octet2 then ret (code, 3) else
    if ((octet =? 0xe0) && negb ((0xa0 <=? octet1) && (octet1 <=? 0xbf)))
       || ((octet =? 0xed) && negb ((0x80 <=? octet1) && (octet1 <=? 0x9f)))
    then ret (code, 2)
    else if (0xe0 <=? octet) && (0 <=? 0xef) then
      ret (clamp (Z.lor (Z.lor (Z.shiftl (Z.land octet 0xf) 12)
                                (Z.shiftl (Z.land octet1 0x3f) 6))
                         (Z.land octet2 0x3f)), 3)
    else ret (clamp code, 1)
  else if Z.land octet 0xf8 =? 0xf0 then
    if 0xf4 <? octet then ret (code, 1) else
    octet1 <~ text_at text 1 ;;
    if unexpected octet1 then ret (code, 2) else
    octet2 <~ text_at text 2 ;;
    if unexpected octet2 then ret (code, 3) else
    octet3 <~ text_at text 3 ;;
    if unexpected octet3 then ret (code, 4) else
    if ((octet =? 0xf0) && negb ((0x90 <=? octet1) && (octet1 <=? 0xbf)))
       || ((octet =? 0xf4) && negb ((0x80 <=? octet1) && (octet1 <=? 0x8f)))
    then ret (code, 2)
    else if 0xf0 <=? octet then
      ret (clamp (Z.lor (Z.lor (Z.lor (Z.shiftl (Z.land octet 0x7) 18)
                                       (Z.shiftl (Z.land octet1 0x3f) 12))
                                (Z.shiftl (Z.land octet2 0x3f) 6))
                         (Z.land octet3 0x3f)), 4)
    else ret (clamp code, 1)
  else ret (clamp code, 1).

(** The decoder as its callers see it. *)
Definition decode (text : list byte) : option (Z * Z) :=
  option_map fst (GetNextCodepoint text).

(** The sequence length a leading byte announces (RFC 3629 table quoted in
    the source): 1 for [0xxxxxxx], 2 for [110xxxxx], 3 for [1110xxxx],
    4 for [11110xxx]; a byte of no class counts for itself only. *)
Definition nominal_length (octet : Z) : Z :=
  if octet <=? 0x7f then 1
  else if Z.land octet 0xe0 =? 0xc0 then 2
  else if Z.land octet 0xf0 =? 0xe0 then 3
  else if Z.land octet 0xf8 =? 0xf0 then 4
  else 1.

(** The standard UTF-8 encoding of a scalar value (RFC 3629, section 3). *)
Definition utf8_encode (c : Z) : list Z :=
  if c <=? 0x7f then [c]
  else if c <=? 0x7ff then
    [Z.lor 0xc0 (Z.shiftr c 6); Z.lor 0x80 (Z.land c 0x3f)]
  else if c <=? 0xffff then
    [Z.lor 0xe0 (Z.shiftr c 12);
     Z.lor 0x80 (Z.land (Z.shiftr c 6) 0x3f);
     Z.lor 0x80 (Z.land c 0x3f)]
  else
    [Z.lor 0xf0 (Z.shiftr c 18);
     Z.lor 0x80 (Z.land (Z.shiftr c 12) 0x3f);
     Z.lor 0x80 (Z.land (Z.shiftr c 6) 0x3f);
     Z.lor 0x80 (Z.land c 0x3f)].

Definition utf8_bytes (c : Z) : list byte := map byte_of_Z (utf8_encode c).

(** Unicode scalar values: U+0000..U+10FFFF without the surrogates. *)
Definition is_scalar (c : Z) : Prop :=
  0 <= c <= 0x10ffff /\ ~ (0xd800 <= c <= 0xdfff).

(** The number of bytes of the encoding class of [c]. *)
Definition encoding_class (c : Z) : Z :=
  if c <=? 0x7f then 1 else if c <=? 0x7ff then 2
  else if c <=? 0xffff then 3 else 4.

(** A continuation byte [10xxxxxx], the [UTF8-tail(x80-BF)] of the table the
    source quotes. *)
Definition is_tail (b : Z) : bool := (0x80 <=? b) && (b <=? 0xbf).

(** The sub-range the same table requires of the byte that follows the
    leading bytes [E0], [ED], [F0] and [F4]. *)
Definition second_in_range (octet octet1 : Z) : bool :=
  if octet =? 0xe0 then (0xa0 <=? octet1) && (octet1 <=? 0xbf)
  else if octet =? 0xed then (0x80 <=? octet1) && (octet1 <=? 0x9f)
  else if octet =? 0xf0 then (0x90 <=? octet1) && (octet1 <=? 0xbf)
  else if octet =? 0xf4 then (0x80 <=? octet1) && (octet1 <=? 0x8f)
  else true.

(** [text] starts with the leading byte [b0] of a multi-byte sequence, and
    the byte at offset [k] inside the announced sequence is truncated (the
    terminating null) or otherwise not the continuation byte required. *)
Definition bad_continuation (text : list byte) (b0 : byte) (k : nat) : Prop :=
  nth_error text 0 = Some b0
  /\ (1 <= k)%nat /\ Z.of_nat k < nominal_length (uchar b0)
  /\ exists bk, nth_error text k = Some bk
       /\ (is_tail (uchar bk) = false
           \/ (k = 1%nat /\ second_in_range (uchar b0) (uchar bk) = false)).

(** What the decoder does on a buffer whose byte at offset [length s] is
    null: it reads no offset beyond it, and when it reads the null after the
    leading byte it returns 0x3f with the number of bytes read. *)
Definition stops_at_null (s : list byte) (result : Traced (Z * Z)) : Prop :=
  match result with
  | Some ((code, n), reads) =>
      Forall (fun k => (k <= List.length s)%nat) reads
      /\ (In (List.length s) reads -> s <> [] ->
          code = 0x3f /\ n = Z.of_nat (List.length reads))
  | None => False
  end.

(** ** Data model *)

(** The structs and constants of this section are declared in [rayn.h],
    which is not under src/; each is modelled with the fields [text.c] uses
    and the C types it uses them at. *)

Module Rectangle.
(** Modelled from the spec: the Placement Rectangle, struct [Rectangle] of
  [rayn.h]: position and size in pixels, as [float]s. *)
Record t : Type := make { x : Q; y : Q; width : Q; height : Q }.
End Rectangle.

Module Vector2.
(** Modelled from the spec: struct [Vector2] of [rayn.h], two [float]s. *)
Record t : Type := make { x : Q; y : Q }.
End Vector2.

Module Image.
(** Modelled from the spec: the generic bitmap, struct [Image] of [rayn.h].
  [data] is [None] for a null pointer; pixels are bytes, row by row. *)
Record t : Type :=
make { data : option (list Z); width : Z; height : Z;
       mipmaps : Z; format : Z }.
End Image.

(** Modelled from the spec: the pixel formats of [rayn.h] used here, one
    channel and two channels; only their being distinct matters. *)
Definition UNCOMPRESSED_GRAYSCALE : Z := 1.
Definition UNCOMPRESSED_GRAY_ALPHA : Z := 2.

(** Modelled from the spec: the texture handle, struct [Texture2D] of
    [rayn.h], of which [text.c] reads the [id]. *)
Record Texture2D : Type := { id : Z }.

Module Color.
(** Modelled from the spec: struct [Color] of [rayn.h]. *)
Record t : Type := make { r : Z; g : Z; b : Z; a : Z }.
End Color.

(** Modelled from the spec: the Glyph Record, struct [CharInfo] of [rayn.h]:
    codepoint, offsets from the pen origin, horizontal advance (all [int])
    and bitmap. *)
Record CharInfo : Type :=
  { value : Z; offsetX : Z; offsetY : Z; advanceX : Z; image : Image.t }.

(** Modelled from the spec: the Font Object, struct [Font] of [rayn.h]: base
    size, glyph count, texture, and the parallel arrays of rectangles and
    glyphs. *)
Record Font : Type :=
  { baseSize : Z; charsCount : Z; texture : Texture2D;
    recs : list Rectangle.t; chars : list CharInfo }.

(** [a[i]] for an [int] index: a read outside the array is an error. *)
Definition at_index {A : Type} (a : list A) (i : Z) : option A :=
  if i <? 0 then None else nth_error a (Z.to_nat i).

(** [(float)n] *)
Definition float_of_int (n : Z) : Q := inject_Z n.

(** [(int)q]: truncation toward zero. *)
Definition int_of_float (q : Q) : Z := Z.quot (Qnum q) (Z.pos (Qden q)).

(** ** Single precision *)

(** The [float] of the C code as an IEEE 754 binary32 number: 24 bits of
    precision, exponents below 128.  Each operation rounds its exact result
    to the nearest float, ties to even, before the next one is applied (no
    wider intermediate, no fused multiply-add). *)
Module F32.
Definition prec : Z := 24.
Definition emax : Z := 128.

Definition t : Type := spec_float.

(** [(float)n] *)
Definition of_int (n : Z) : t := binary_normalize prec emax n 0 false.

Definition add : t -> t -> t := SFadd prec emax.
Definition mul : t -> t -> t := SFmul prec emax.
Definition div : t -> t -> t := SFdiv prec emax.
Definition opp : t -> t := SFopp.

(** [sqrtf], which IEEE 754 requires to be correctly rounded. *)
Definition sqrt : t -> t := SFsqrt prec emax.

(** [a < b]: false when either is not a number. *)
Definition ltb : t -> t -> bool := SFltb.

(** The float nearest to [n/d], for [n] and [d] that are floats themselves:
  the constants [1.3f] and [1.5f] are [of_ratio 13 10] and
  [of_ratio 3 2]. *)
Definition of_ratio (n d : Z) : t := div (of_int n) (of_int d).

Definition is_finite (x : t) : bool :=
match x with
| S754_zero _ | S754_finite _ _ _ => true
| _ => false
end.

(** The rational a finite float stands for; an infinity and a NaN stand for
  none and are given zero. *)
Definition value (x : t) : Q :=
match x with
| S754_finite s m e =>
    let n := if s then Z.neg m else Z.pos m in
    if 0 <=? e then inject_Z (n * 2 ^ e)
    else Qred (Qmake n (Z.to_pos (2 ^ (- e))))
| _ => 0%Q
end.

Definition INT_MAX : Z := 2147483647.
Definition INT_MIN : Z := -2147483648.

(** [(int)x]: truncation toward zero.  The conversion is undefined for an
  infinity, a NaN, and a value outside the range of [int]. *)
Definition to_int (x : t) : option Z :=
if is_finite x then
  let n := Z.quot (Qnum (value x)) (Z.pos (Qden (value x))) in
  if (INT_MIN <=? n) && (n <=? INT_MAX) then Some n else None
else None.

(** [ceilf] *)
Definition ceil (x : t) : t :=
match x with
| S754_finite s m e =>
    if 0 <=? e then x
    else
      let n := if s then Z.neg m else Z.pos m in
      let c := - ((- n) / 2 ^ (- e)) in
      if c =? 0 then S754_zero s else of_int c
| _ => x
end.
End F32.

(** The finite floats of the format: a mantissa of at most 24 bits at an
    exponent the format has. *)
Definition representable (x : F32.t) : Prop :=
  match x with
  | S754_finite _ m e => bounded F32.prec F32.emax m e = true
  | _ => True
  end.

(** [(float)n] as a rational: [n] rounded to 24 significant bits. *)
Definition rounded (n : Z) : Q := F32.value (F32.of_int n).

(** The result of an [int] operation, kept to 32 bits in two's
    complement. *)
Definition wrap (n : Z) : Z := (n + 2 ^ 31) mod 2 ^ 32 - 2 ^ 31.

(** The functions of the C mathematical library whose results the C
    standard leaves to the implementation. *)
Record Libm : Type :=
  { logf : F32.t -> F32.t; powf : F32.t -> F32.t -> F32.t }.

(** ** GetGlyphIndex (text.c, 478-499) *)

Definition TEXT_CHARACTER_NOTFOUND : Z := 63.

(** The loop [for (i = 0; i < font.charsCount; i++)] with its [break];
    [n] iterations are left. *)
Fixpoint GetGlyphIndex_loop (font : Font) (codepoint : Z) (n : nat) (i : Z)
         (index : Z) : option Z :=
  match n with
  | O => Some index
  | S n' =>
      c <- at_index (chars font) i ;;
      if value c =? codepoint then Some i
      else GetGlyphIndex_loop font codepoint n' (i + 1) index
  end.

Definition GetGlyphIndex (font : Font) (codepoint : Z) : option Z :=
  GetGlyphIndex_loop font codepoint (Z.to_nat (charsCount font)) 0
                     TEXT_CHARACTER_NOTFOUND.

(** ** Walking a string by codepoints *)

(** [strlen(text)]: the offset of the first null. *)
Fixpoint strlen (text : list byte) : option Z :=
  match text with
  | [] => None
  | c :: text' =>
      if uchar c =? 0 then Some 0 else n <- strlen text' ;; Some (n + 1)
  end.

(** [&text[i]] *)
Definition text_from (text : list byte) (i : Z) : list byte :=
  skipn (Z.to_nat i) text.

(** [for (int i = 0; i < len; i++) body], where the body may move [i]: it
    returns the value of [i] it ends with.  [fuel] bounds the number of
    iterations; running out of it is a failure. *)
Fixpoint for_loop {State : Type} (fuel : nat) (len : Z)
         (body : Z -> State -> option (Z * State)) (i : Z) (st : State)
  : option State :=
  if len <=? i then Some st
  else match fuel with
       | O => None
       | S fuel' =>
           '(i', st') <- body i st ;;
           for_loop fuel' len body (i' + 1) st'
       end.

(** ** MeasureTextEx (text.c, 424-475) *)

Record MeasureState : Type :=
  { tempLen : Z; lenCounter : Z; textWidth : Q; tempTextWidth : Q;
    textHeight : Q }.

(** The width [MeasureTextEx] adds for the glyph at [index]. *)
Definition measure_advance (font : Font) (index : Z) : option Q :=
  c <- at_index (chars font) index ;;
  if negb (advanceX c =? 0) then Some (float_of_int (advanceX c))
  else
    rec <- at_index (recs font) index ;;
    Some (Rectangle.width rec + float_of_int (offsetX c))%Q.

(** One iteration of the loop, once [letter] is decoded: the glyph lookup
    and the updates of the counters and sizes. *)
Definition measure_step (font : Font) (letter : Z) (st : MeasureState)
  : option MeasureState :=
  let counter := lenCounter st + 1 in
  index <- GetGlyphIndex font letter ;;
  st' <-
    (if negb (letter =? 10) then
       w <- measure_advance font index ;;
       Some {| tempLen := tempLen st; lenCounter := counter;
               textWidth := (textWidth st + w)%Q;
               tempTextWidth := tempTextWidth st;
               textHeight := textHeight st |}
     else
       Some {| tempLen := tempLen st; lenCounter := 0;
               textWidth := 0%Q;
               tempTextWidth :=
                 if Qlt_le_dec (tempTextWidth st) (textWidth st)
                 then textWidth st else tempTextWidth st;
               textHeight :=
                 (textHeight st + float_of_int (baseSize font) * (3 # 2))%Q |}) ;;
  Some {| tempLen := if tempLen st' <? lenCounter st'
                     then lenCounter st' else tempLen st';
          lenCounter := lenCounter st';
          textWidth := textWidth st';
          tempTextWidth := tempTextWidth st';
          textHeight := textHeight st' |}.

(** The loop body: decode at [&text[i]], update the state, and move [i] to
    the last byte of the codepoint ([next] is forced to 1 on 0x3f). *)
Definition MeasureTextEx_body (font : Font) (text : list byte) (i : Z)
           (st : MeasureState) : option (Z * MeasureState) :=
  '(letter, next) <- decode (text_from text i) ;;
  st' <- measure_step font letter st ;;
  let next := if letter =? 0x3f then 1 else next in
  Some (i + (next - 1), st').

Definition MeasureTextEx_init (font : Font) : MeasureState :=
  {| tempLen := 0; lenCounter := 0; textWidth := 0%Q; tempTextWidth := 0%Q;
     textHeight := float_of_int (baseSize font) |}.

(** The vector returned from the state the loop ends in. *)
Definition MeasureTextEx_result (font : Font) (fontSize spacing : Q)
           (st : MeasureState) : Vector2.t :=
  let scaleFactor := (fontSize / float_of_int (baseSize font))%Q in
  let tempTextWidth :=
    if Qlt_le_dec (tempTextWidth st) (textWidth st)
    then textWidth st else tempTextWidth st in
  {| Vector2.x := (tempTextWidth * scaleFactor
                   + float_of_int (tempLen st - 1) * spacing)%Q;
     Vector2.y := (textHeight st * scaleFactor)%Q |}.

Definition MeasureTextEx (font : Font) (text : list byte)
           (fontSize spacing : Q) : option Vector2.t :=
  len <- strlen text ;;
  st <- for_loop (Z.to_nat len) len (MeasureTextEx_body font text) 0
                 (MeasureTextEx_init font) ;;
  Some (MeasureTextEx_result font fontSize spacing st).

(** ** DrawTextEx (text.c, 376-421) *)

(** One call of [DrawTexturePro(texture, sourceRec, destRec, origin,
    rotation, tint)]; origin and rotation are always zero here. *)
Record DrawCall : Type :=
  { call_texture : Texture2D; sourceRec : Rectangle.t; destRec : Rectangle.t;
    tint : Color.t }.

Record DrawState : Type :=
  { textOffsetY : Z; textOffsetX : Q; drawn : list DrawCall }.

(** The amount [DrawTextEx] adds to [textOffsetX] for the glyph at
    [index]. *)
Definition draw_advance (font : Font) (index : Z) (scaleFactor spacing : Q)
  : option Q :=
  c <- at_index (chars font) index ;;
  if advanceX c =? 0 then
    rec <- at_index (recs font) index ;;
    Some (Rectangle.width rec * scaleFactor + spacing)%Q
  else Some (float_of_int (advanceX c) * scaleFactor + spacing)%Q.

(** The destination rectangle of the glyph at [index] for the pen at
    [(textOffsetX, textOffsetY)]. *)
Definition draw_call (font : Font) (position : Vector2.t) (scaleFactor : Q)
           (color : Color.t) (index : Z) (st : DrawState) : option DrawCall :=
  c <- at_index (chars font) index ;;
  src <- at_index (recs font) index ;;
  let rec :=
    {| Rectangle.x :=
         (Vector2.x position + textOffsetX st
          + float_of_int (offsetX c) * scaleFactor)%Q;
       Rectangle.y :=
         (Vector2.y position + float_of_int (textOffsetY st)
          + float_of_int (offsetY c) * scaleFactor)%Q;
       Rectangle.width := (Rectangle.width src * scaleFactor)%Q;
       Rectangle.height := (Rectangle.height src * scaleFactor)%Q |} in
  Some {| call_texture := texture font; sourceRec := src; destRec := rec;
          tint := color |}.

(** One iteration of the loop, once [codepoint] is decoded. *)
Definition draw_step (font : Font) (position : Vector2.t)
           (scaleFactor spacing : Q) (color : Color.t) (codepoint : Z)
           (st : DrawState) : option DrawState :=
  index <- GetGlyphIndex font codepoint ;;
  if codepoint =? 10 then
    Some {| textOffsetY :=
              textOffsetY st
              + int_of_float
                  (float_of_int (baseSize font + Z.quot (baseSize font) 2)
                   * scaleFactor)%Q;
            textOffsetX := 0%Q;
            drawn := drawn st |}
  else
    calls <-
      (if negb (codepoint =? 32) && negb (codepoint =? 9) then
         call <- draw_call font position scaleFactor color index st ;;
         Some (drawn st ++ [call])
       else Some (drawn st)) ;;
    w <- draw_advance font index scaleFactor spacing ;;
    Some {| textOffsetY := textOffsetY st;
            textOffsetX := (textOffsetX st + w)%Q;
            drawn := calls |}.

Definition DrawTextEx_body (font : Font) (text : list byte)
           (position : Vector2.t) (scaleFactor spacing : Q) (color : Color.t)
           (i : Z) (st : DrawState) : option (Z * DrawState) :=
  '(codepoint, codepointByteCount) <- decode (text_from text i) ;;
  st' <- draw_step font position scaleFactor spacing color codepoint st ;;
  let codepointByteCount :=
    if codepoint =? 0x3f then 1 else codepointByteCount in
  Some (i + (codepointByteCount - 1), st').

Definition DrawTextEx_init : DrawState :=
  {| textOffsetY := 0; textOffsetX := 0%Q; drawn := [] |}.

(** The state the loop of [DrawTextEx] ends in: the pen offsets and the
    calls issued. *)
Definition DrawTextEx_run (font : Font) (text : list byte)
           (position : Vector2.t) (fontSize spacing : Q) (color : Color.t)
  : option DrawState :=
  len <- strlen text ;;
  let scaleFactor := (fontSize / float_of_int (baseSize font))%Q in
  for_loop (Z.to_nat len) len
           (DrawTextEx_body font text position scaleFactor spacing color) 0
           DrawTextEx_init.

(** [DrawTextEx] returns nothing; its effect is the calls it issues. *)
Definition DrawTextEx (font : Font) (text : list byte)
           (position : Vector2.t) (fontSize spacing : Q) (color : Color.t)
  : option (list DrawCall) :=
  option_map drawn (DrawTextEx_run font text position fontSize spacing color).

(** ** The codepoints of a string *)

(** The codepoints both passes visit: the walk from offset [i], moving by the
    count the decoder reports, a 0x3f counting for one byte. *)
Fixpoint codepoints_from (fuel : nat) (text : list byte) (len i : Z)
  : option (list Z) :=
  if len <=? i then Some []
  else match fuel with
       | O => None
       | S fuel' =>
           '(c, n) <- decode (text_from text i) ;;
           cps <- codepoints_from fuel' text len
                    (i + (if c =? 0x3f then 1 else n)) ;;
           Some (c :: cps)
       end.

Definition codepoints (text : list byte) : option (list Z) :=
  len <- strlen text ;; codepoints_from (Z.to_nat len) text len 0.

Fixpoint foldM {State : Type} (step : Z -> State -> option State)
         (cps : list Z) (st : State) : option State :=
  match cps with
  | [] => Some st
  | c :: cps' => st' <- step c st ;; foldM step cps' st'
  end.

(** The shape of the loop bodies of both passes: decode at [&text[i]],
    update the state, move [i] to the last byte of the codepoint. *)
Definition walk_body {State : Type} (step : Z -> State -> option State)
           (text : list byte) (i : Z) (st : State) : option (Z * State) :=
  '(c, n) <- decode (text_from text i) ;;
  st' <- step c st ;;
  Some (i + ((if c =? 0x3f then 1 else n) - 1), st').

(** A font all of whose glyph lookups stay inside its arrays: the arrays
    have [charsCount] entries, and the fallback index 63 is one of them. *)
Definition indexable (font : Font) : Prop :=
  Z.of_nat (List.length (chars font)) = charsCount font
  /\ Z.of_nat (List.length (recs font)) = charsCount font
  /\ TEXT_CHARACTER_NOTFOUND < charsCount font.

(** ** The two passes in single precision *)

(** [MeasureTextEx] and [DrawTextEx] once more, with every [float] a
    binary32 number and every operation on them rounded: the model for the
    statements that depend on the rounding. *)
Module Single.

(** The glyph lookup reads [charsCount] and [chars] only. *)
Definition lookup (count : Z) (glyphs : list CharInfo) (codepoint : Z)
: option Z :=
GetGlyphIndex {| baseSize := 0; charsCount := count;
                 texture := {| id := 0 |}; recs := []; chars := glyphs |}
              codepoint.

Module Rectangle.
Record t : Type :=
make { x : F32.t; y : F32.t; width : F32.t; height : F32.t }.
End Rectangle.

Module Vector2.
Record t : Type := make { x : F32.t; y : F32.t }.
End Vector2.

Record Font : Type :=
{ baseSize : Z; charsCount : Z; texture : Texture2D;
  recs : list Rectangle.t; chars : list CharInfo }.

Definition GetGlyphIndex (font : Font) (codepoint : Z) : option Z :=
lookup (charsCount font) (chars font) codepoint.

(** *** MeasureTextEx (text.c, 424-475) *)

Record MeasureState : Type :=
{ tempLen : Z; lenCounter : Z; textWidth : F32.t; tempTextWidth : F32.t;
  textHeight : F32.t }.

(** The width [MeasureTextEx] adds for the glyph at [index]:
  [font.chars[index].advanceX], converted, or
  [font.recs[index].width + font.chars[index].offsetX]. *)
Definition measure_advance (font : Font) (index : Z) : option F32.t :=
c <- at_index (chars font) index ;;
if negb (advanceX c =? 0) then Some (F32.of_int (advanceX c))
else
  rec <- at_index (recs font) index ;;
  Some (F32.add (Rectangle.width rec) (F32.of_int (offsetX c))).

(** [if (a < b) a = b] *)
Definition larger (a b : F32.t) : F32.t := if F32.ltb a b then b else a.

Definition measure_step (font : Font) (letter : Z) (st : MeasureState)
: option MeasureState :=
let counter := lenCounter st + 1 in
index <- GetGlyphIndex font letter ;;
st' <-
  (if negb (letter =? 10) then
     w <- measure_advance font index ;;
     Some {| tempLen := tempLen st; lenCounter := counter;
             textWidth := F32.add (textWidth st) w;
             tempTextWidth := tempTextWidth st;
             textHeight := textHeight st |}
   else
     Some {| tempLen := tempLen st; lenCounter := 0;
             textWidth := F32.of_int 0;
             tempTextWidth := larger (tempTextWidth st) (textWidth st);
             textHeight :=
               F32.add (textHeight st)
                       (F32.mul (F32.of_int (baseSize font))
                                (F32.of_ratio 3 2)) |}) ;;
Some {| tempLen := if tempLen st' <? lenCounter st'
                   then lenCounter st' else tempLen st';
        lenCounter := lenCounter st';
        textWidth := textWidth st';
        tempTextWidth := tempTextWidth st';
        textHeight := textHeight st' |}.

Definition MeasureTextEx_body (font : Font) (text : list byte) (i : Z)
         (st : MeasureState) : option (Z * MeasureState) :=
'(letter, next) <- decode (text_from text i) ;;
st' <- measure_step font letter st ;;
let next := if letter =? 0x3f then 1 else next in
Some (i + (next - 1), st').

Definition MeasureTextEx_init (font : Font) : MeasureState :=
{| tempLen := 0; lenCounter := 0; textWidth := F32.of_int 0;
   tempTextWidth := F32.of_int 0;
   textHeight := F32.of_int (baseSize font) |}.

(** [fontSize/(float)font.baseSize] *)
Definition scale (font : Font) (fontSize : F32.t) : F32.t :=
F32.div fontSize (F32.of_int (baseSize font)).

(** The vector returned from the state the loop ends in:
  [tempTextWidth*scaleFactor + (float)((tempLen - 1)*spacing)] and
  [textHeight*scaleFactor]. *)
Definition MeasureTextEx_result (font : Font) (fontSize spacing : F32.t)
         (st : MeasureState) : Vector2.t :=
let scaleFactor := scale font fontSize in
let tempTextWidth := larger (tempTextWidth st) (textWidth st) in
{| Vector2.x :=
     F32.add (F32.mul tempTextWidth scaleFactor)
             (F32.mul (F32.of_int (tempLen st - 1)) spacing);
   Vector2.y := F32.mul (textHeight st) scaleFactor |}.

Definition MeasureTextEx (font : Font) (text : list byte)
         (fontSize spacing : F32.t) : option Vector2.t :=
len <- strlen text ;;
st <- for_loop (Z.to_nat len) len (MeasureTextEx_body font text) 0
               (MeasureTextEx_init font) ;;
Some (MeasureTextEx_result font fontSize spacing st).

(** *** DrawTextEx (text.c, 376-421) *)

Record DrawCall : Type :=
{ call_texture : Texture2D; sourceRec : Rectangle.t; destRec : Rectangle.t;
  tint : Color.t }.

Record DrawState : Type :=
{ textOffsetY : Z; textOffsetX : F32.t; drawn : list DrawCall }.

(** The amount [DrawTextEx] adds to [textOffsetX] for the glyph at
  [index]: [(float)font.recs[index].width*scaleFactor + spacing], or
  [(float)font.chars[index].advanceX*scaleFactor + spacing]. *)
Definition draw_advance (font : Font) (index : Z)
         (scaleFactor spacing : F32.t) : option F32.t :=
c <- at_index (chars font) index ;;
if advanceX c =? 0 then
  rec <- at_index (recs font) index ;;
  Some (F32.add (F32.mul (Rectangle.width rec) scaleFactor) spacing)
else
  Some (F32.add (F32.mul (F32.of_int (advanceX c)) scaleFactor) spacing).

(** The call issued for the glyph at [index] with the pen at
  [(textOffsetX, textOffsetY)]. *)
Definition draw_call (font : Font) (position : Vector2.t)
         (scaleFactor : F32.t) (color : Color.t) (index : Z)
         (st : DrawState) : option DrawCall :=
c <- at_index (chars font) index ;;
src <- at_index (recs font) index ;;
let rec :=
  {| Rectangle.x :=
       F32.add (F32.add (Vector2.x position) (textOffsetX st))
               (F32.mul (F32.of_int (offsetX c)) scaleFactor);
     Rectangle.y :=
       F32.add (F32.add (Vector2.y position)
                        (F32.of_int (textOffsetY st)))
               (F32.mul (F32.of_int (offsetY c)) scaleFactor);
     Rectangle.width := F32.mul (Rectangle.width src) scaleFactor;
     Rectangle.height := F32.mul (Rectangle.height src) scaleFactor |} in
Some {| call_texture := texture font; sourceRec := src; destRec := rec;
        tint := color |}.

(** [(int)((font.baseSize + font.baseSize/2)*scaleFactor)], the amount
  [DrawTextEx] moves down at a newline. *)
Definition line_drop (font : Font) (scaleFactor : F32.t) : option Z :=
F32.to_int
  (F32.mul (F32.of_int (wrap (baseSize font + Z.quot (baseSize font) 2)))
           scaleFactor).

Definition draw_step (font : Font) (position : Vector2.t)
         (scaleFactor spacing : F32.t) (color : Color.t) (codepoint : Z)
         (st : DrawState) : option DrawState :=
index <- GetGlyphIndex font codepoint ;;
if codepoint =? 10 then
  drop <- line_drop font scaleFactor ;;
  Some {| textOffsetY := wrap (textOffsetY st + drop);
          textOffsetX := F32.of_int 0;
          drawn := drawn st |}
else
  calls <-
    (if negb (codepoint =? 32) && negb (codepoint =? 9) then
       call <- draw_call font position scaleFactor color index st ;;
       Some (drawn st ++ [call])
     else Some (drawn st)) ;;
  w <- draw_advance font index scaleFactor spacing ;;
  Some {| textOffsetY := textOffsetY st;
          textOffsetX := F32.add (textOffsetX st) w;
          drawn := calls |}.

Definition DrawTextEx_body (font : Font) (text : list byte)
         (position : Vector2.t) (scaleFactor spacing : F32.t)
         (color : Color.t) (i : Z) (st : DrawState)
: option (Z * DrawState) :=
'(codepoint, codepointByteCount) <- decode (text_from text i) ;;
st' <- draw_step font position scaleFactor spacing color codepoint st ;;
let codepointByteCount :=
  if codepoint =? 0x3f then 1 else codepointByteCount in
Some (i + (codepointByteCount - 1), st').

Definition DrawTextEx_init : DrawState :=
{| textOffsetY := 0; textOffsetX := F32.of_int 0; drawn := [] |}.

(** The state the loop of [DrawTextEx] ends in: the pen offsets and the
  calls issued.  [fontSize/font.baseSize] converts the base size. *)
Definition DrawTextEx_run (font : Font) (text : list byte)
         (position : Vector2.t) (fontSize spacing : F32.t)
         (color : Color.t) : option DrawState :=
len <- strlen text ;;
for_loop (Z.to_nat len) len
         (DrawTextEx_body font text position (scale font fontSize) spacing
                          color) 0
         DrawTextEx_init.

Definition DrawTextEx (font : Font) (text : list byte)
         (position : Vector2.t) (fontSize spacing : F32.t)
         (color : Color.t) : option (list DrawCall) :=
option_map drawn (DrawTextEx_run font text position fontSize spacing color).

(** *** Notions used in the properties *)





(** A font whose rectangles are the bitmaps of its glyphs, all at the
  origin of the texture. *)
Definition plain (base : Z) (glyphs : list CharInfo) : Font :=
{| baseSize := base; charsCount := Z.of_nat (List.length glyphs);
   texture := {| id := 1 |};
   recs := map (fun c =>
                  Rectangle.make (F32.of_int 0) (F32.of_int 0)
                                 (F32.of_int (Image.width (image c)))
                                 (F32.of_int (Image.height (image c))))
               glyphs;
   chars := glyphs |}.

End Single.

(** ** Sample fonts and strings *)

Definition blank_image (w h : Z) : Image.t :=
  Image.make None w h 1 UNCOMPRESSED_GRAYSCALE.

(** A glyph of [w] by [w] pixels. *)
Definition glyph (v ox adv w : Z) : CharInfo :=
  {| value := v; offsetX := ox; offsetY := 0; advanceX := adv;
     image := blank_image w w |}.

(** The default character set of the loaders: 95 codepoints from 32 on. *)
Definition default_charset : list Z :=
  map (fun i => Z.of_nat i + 32) (seq 0 95).

(** A fixed-pitch font of base size 32 over the default character set. *)
Definition ascii_font : Font :=
  {| baseSize := 32; charsCount := 95; texture := {| id := 1 |};
     recs := map (fun _ => Rectangle.make 0 0 16 32) default_charset;
     chars := map (fun v => glyph v 0 16 16) default_charset |}.

(** A font of three glyphs: [A], [?] and [B]. *)
Definition tiny_font : Font :=
  {| baseSize := 10; charsCount := 3; texture := {| id := 2 |};
     recs := map (fun _ => Rectangle.make 0 0 8 10) [65; 63; 66];
     chars := map (fun v => glyph v 0 10 8) [65; 63; 66] |}.

Definition origin : Vector2.t := Vector2.make 0 0.
Definition white : Color.t := Color.make 255 255 255 255.


(** The advances of a line of codepoints accumulated on [w], as
    [MeasureTextEx] sums them. *)
Definition line_width_from (font : Font) (cps : list Z) (w : Q) : option Q :=
  foldM (fun c w =>
           index <- GetGlyphIndex font c ;;
           a <- measure_advance font index ;;
           Some (w + a)%Q)
        cps w.

Definition line_width (font : Font) (cps : list Z) : option Q :=
  line_width_from font cps 0%Q.


(** ** Samples for the comparison of the two passes *)





(** ** GenImageFontAtlas (text.c, 220-356) *)

(** [(chars[i].image.width + 2*padding)*(chars[i].image.height + 2*padding)],
    the pixel area asked for one glyph, an [int]. *)
Definition footprint (padding : Z) (c : CharInfo) : Z :=
  wrap (wrap (Image.width (image c) + wrap (2 * padding))
        * wrap (Image.height (image c) + wrap (2 * padding))).

(** [for (i...) requiredArea += ...]: a [float] that starts from zero and
    has each footprint added in turn. *)
Definition requiredArea (glyphs : list CharInfo) (padding : Z) : F32.t :=
  fold_left (fun area c => F32.add area (F32.of_int (footprint padding c)))
            glyphs (F32.of_int 0).

(** [sqrtf(requiredArea)*1.3f] *)
Definition guessSize (area : F32.t) : F32.t :=
  F32.mul (F32.sqrt area) (F32.of_ratio 13 10).

(** [(int)powf(2, ceilf(logf((float)guessSize)/logf(2)))] *)
Definition imageSize (libm : Libm) (guessSize : F32.t) : option Z :=
  F32.to_int
    (powf libm (F32.of_int 2)
          (F32.ceil (F32.div (logf libm guessSize)
                             (logf libm (F32.of_int 2))))).

(** [(charsCount > 0)? charsCount : 95] *)
Definition count_or_default (charsCount : Z) : Z :=
  if 0 <? charsCount then charsCount else 95.

(** The glyphs [chars[0]] to [chars[charsCount - 1]]; reading them fails
    when the array is shorter. *)
Definition first_glyphs (chars : list CharInfo) (charsCount : Z)
  : option (list CharInfo) :=
  if Z.of_nat (List.length chars) <? charsCount then None
  else Some (firstn (Z.to_nat charsCount) chars).

(** The rectangle recorded for a glyph placed at [(x, y)]: its size is that
    of the bitmap, converted to [float]. *)
Definition glyph_rec (x y : Q) (c : CharInfo) : Rectangle.t :=
  {| Rectangle.x := x; Rectangle.y := y;
     Rectangle.width := rounded (Image.width (image c));
     Rectangle.height := rounded (Image.height (image c)) |}.

(** The rectangle array is allocated with [malloc]: an entry is [None]
    until the loop assigns it. *)
Definition Recs : Type := list (option Rectangle.t).

(** [a[i] = v] for an index inside the array. *)
Fixpoint store_at {A : Type} (a : list A) (i : nat) (v : A) : list A :=
  match a, i with
  | [], _ => []
  | _ :: a', O => v :: a'
  | x :: a', S i' => x :: store_at a' i' v
  end.

(** [a[i] = v] for an [int] index: a write outside the array is an
    error. *)
Definition write_at {A : Type} (a : list A) (i : Z) (v : A)
  : option (list A) :=
  if (0 <=? i) && (i <? Z.of_nat (List.length a))
  then Some (store_at a (Z.to_nat i) v) else None.

(** The values [k] takes in [for (int k = 0; k < n; k++)]. *)
Definition upto (n : Z) : list Z := map Z.of_nat (seq 0 (Z.to_nat n)).

(** [atlas.data[(y0 + y)*atlas.width + (x0 + x)]
      = chars[i].image.data[y*chars[i].image.width + x]].  The read fails
    on a null bitmap and outside the bitmap, the write outside the
    atlas. *)
Definition copy_pixel (c : CharInfo) (atlasWidth x0 y0 y x : Z)
           (atlas : list Z) : option (list Z) :=
  data <- Image.data (image c) ;;
  p <- at_index data (wrap (wrap (y * Image.width (image c)) + x)) ;;
  write_at atlas (wrap (wrap (wrap (y0 + y) * atlasWidth) + wrap (x0 + x))) p.

(** The two loops that copy the bitmap of a glyph to the atlas, row by
    row. *)
Definition copy_glyph (c : CharInfo) (atlasWidth x0 y0 : Z) (atlas : list Z)
  : option (list Z) :=
  foldM (fun y atlas =>
           foldM (fun x atlas => copy_pixel c atlasWidth x0 y0 y x atlas)
                 (upto (Image.width (image c))) atlas)
        (upto (Image.height (image c))) atlas.

(** Row packing ([packMethod == 0]): the loop over the glyphs left, with the
    current [offsetX], [offsetY] and atlas pixels; its [break] leaves the
    entries of the glyphs that follow unassigned. *)
Fixpoint pack_rows (atlasSize fontSize padding : Z) (glyphs : list CharInfo)
         (offsetX offsetY : Z) (atlas : list Z) : option (Recs * list Z) :=
  match glyphs with
  | [] => Some ([], atlas)
  | c :: rest =>
      atlas <- copy_glyph c atlasSize offsetX offsetY atlas ;;
      let rec := glyph_rec (rounded offsetX) (rounded offsetY) c in
      let offsetX :=
        wrap (offsetX + wrap (Image.width (image c) + wrap (2 * padding))) in
      if offsetX
         >=? wrap (wrap (atlasSize - Image.width (image c)) - padding) then
        let offsetX := padding in
        let offsetY := wrap (offsetY + wrap (fontSize + wrap (2 * padding))) in
        if offsetY >? wrap (wrap (atlasSize - fontSize) - padding)
        then Some (Some rec :: map (fun _ => None) rest, atlas)
        else
          '(recs, atlas) <- pack_rows atlasSize fontSize padding rest
                                      offsetX offsetY atlas ;;
          Some (Some rec :: recs, atlas)
      else
        '(recs, atlas) <- pack_rows atlasSize fontSize padding rest
                                    offsetX offsetY atlas ;;
        Some (Some rec :: recs, atlas)
  end.

(** Skyline packing ([packMethod == 1]), the loop over the glyphs left once
    the packer has run: [packed i] is the [x], [y] and [was_packed] of the
    rectangle of index [i].  Every entry is assigned; the bitmap is copied
    when the rectangle was packed. *)
Fixpoint place_packed (atlasSize padding : Z) (packed : nat -> Z * Z * bool)
         (glyphs : list CharInfo) (i : nat) (atlas : list Z)
  : option (Recs * list Z) :=
  match glyphs with
  | [] => Some ([], atlas)
  | c :: rest =>
      let '(x, y, was_packed) := packed i in
      let rec :=
        glyph_rec (F32.value (F32.add (F32.of_int x) (F32.of_int padding)))
                  (F32.value (F32.add (F32.of_int y) (F32.of_int padding)))
                  c in
      atlas <- (if was_packed
                then copy_glyph c atlasSize (wrap (x + padding))
                                (wrap (y + padding)) atlas
                else Some atlas) ;;
      '(recs, atlas) <- place_packed atlasSize padding packed rest (S i)
                                     atlas ;;
      Some (Some rec :: recs, atlas)
  end.

Section Packer.
Variable libm : Libm.
(** The rectangle packer of [stb_rect_pack.h], an external collaborator:
    for a target of the given width and height and the list of the
    rectangle sizes, the [x], [y] and [was_packed] it writes into the
    rectangle of each index. *)
Variable stbrp_pack_rects : Z -> Z -> list (Z * Z) -> nat -> Z * Z * bool.

Definition pack_skyline (atlasSize padding : Z) (glyphs : list CharInfo)
           (atlas : list Z) : option (Recs * list Z) :=
  let rects :=
    map (fun c => (wrap (Image.width (image c) + wrap (2 * padding)),
                   wrap (Image.height (image c) + wrap (2 * padding))))
        glyphs in
  place_packed atlasSize padding
               (stbrp_pack_rects atlasSize atlasSize rects) glyphs 0 atlas.

(** Returns the atlas image and [*charRecs].  The atlas is allocated
    zeroed, one byte a pixel, receives the glyph bitmaps, and is returned
    with two bytes a pixel: 255 and the gray level. *)
Definition GenImageFontAtlas (chars : list CharInfo) (charsCount : Z)
           (fontSize padding packMethod : Z) : option (Image.t * Recs) :=
  let charsCount := count_or_default charsCount in
  glyphs <- first_glyphs chars charsCount ;;
  imageSize <- imageSize libm (guessSize (requiredArea glyphs padding)) ;;
  let atlas := repeat 0 (Z.to_nat (wrap (imageSize * imageSize))) in
  '(recs, atlas) <-
    (if packMethod =? 0 then
       pack_rows imageSize fontSize padding glyphs padding padding atlas
     else if packMethod =? 1 then
       pack_skyline imageSize padding glyphs atlas
     else Some (map (fun _ => None) glyphs, atlas)) ;;
  Some (Image.make (Some (flat_map (fun p => [255; p]) atlas))
                   imageSize imageSize 1 UNCOMPRESSED_GRAY_ALPHA,
        recs).
End Packer.



(** The claim of the specification on the rectangle of a glyph: it has the
    width and the height of the bitmap, as [float]s. *)
Definition sized (c : CharInfo) (r : Rectangle.t) : Prop :=
  Rectangle.width r = rounded (Image.width (image c))
  /\ Rectangle.height r = rounded (Image.height (image c)).

(** A glyph whose bitmap is no wider than 32767 pixels and no higher than
    the font size. *)
Definition fits (fontSize : Z) (c : CharInfo) : Prop :=
  0 <= Image.width (image c) <= 32767
  /\ 0 <= Image.height (image c) <= fontSize.

(** Two rectangles placed apart, with the gap of twice the padding: the
    second is on the row of the first and starts beyond its right edge, or
    it starts below its bottom edge. *)
Definition apart (padding : Z) (r1 r2 : Rectangle.t) : Prop :=
  ((Rectangle.y r2 == Rectangle.y r1)%Q
   /\ (Rectangle.x r1 + Rectangle.width r1 + inject_Z (2 * padding)
       <= Rectangle.x r2)%Q)
  \/ (Rectangle.y r1 + Rectangle.height r1 + inject_Z (2 * padding)
      <= Rectangle.y r2)%Q.

(** A gray level of the atlas that is zero or a pixel of the bitmap of one
    of the glyphs. *)
Definition glyph_pixel (glyphs : list CharInfo) (p : Z) : Prop :=
  p = 0
  \/ exists c data,
      In c glyphs /\ Image.data (image c) = Some data /\ In p data.

(** An atlas of side [atlasSize] with room for a row of height [fontSize]
    below each of [n] glyphs, were each to start a row. *)
Definition room_for_rows (atlasSize fontSize padding : Z) (n : nat) : Prop :=
  0 <= padding /\ 0 <= fontSize /\ atlasSize <= F32.INT_MAX
  /\ padding + Z.of_nat n * (fontSize + 2 * padding)
     <= atlasSize - fontSize - padding.


(** ** A mathematical library for the examples *)

(** The float nearest to [n/d], for a positive [d]: the quotient is taken
    with over 64 bits and one more that tells whether the division was
    exact, and then rounded. *)
Definition nearest (n d : Z) : F32.t :=
  let s := 64 + Z.log2 d + 1 in
  let m := (Z.abs n * 2 ^ s) / d in
  let sticky := if (Z.abs n * 2 ^ s) mod d =? 0 then 0 else 1 in
  binary_normalize F32.prec F32.emax
                   ((if n <? 0 then -1 else 1) * (2 * m + sticky))
                   (- s - 1) false.

(** Fixed-point numbers with 128 fractional bits. *)
Definition fixed_one : Z := 2 ^ 128.

(** [k] terms of the series [t + t^3/3 + t^5/5 + ...] of [atanh t], from
    the term [power / (2 i + 1)] on. *)
Fixpoint atanh_series (k : nat) (square power i : Z) : Z :=
  match k with
  | O => 0
  | S k' =>
      power / (2 * i + 1)
      + atanh_series k' square (power * square / fixed_one) (i + 1)
  end.

(** [ln (n/d)] for [1 <= n/d <= 2], as [2 atanh ((n - d)/(n + d))]. *)
Definition ln_fixed (n d : Z) : Z :=
  let t := (n - d) * fixed_one / (n + d) in
  2 * atanh_series 45 (t * t / fixed_one) t 0.

(** [logf]: the logarithm of [m 2^e], with [m = z 2^k] and [1 <= z < 2],
    is [ln z + (k + e) ln 2]. *)
Definition sample_logf (x : F32.t) : F32.t :=
  match x with
  | S754_zero _ => S754_infinity true
  | S754_infinity false => x
  | S754_finite false m e =>
      let k := Z.log2 (Z.pos m) in
      nearest (ln_fixed (Z.pos m) (2 ^ k) + (k + e) * ln_fixed 2 1) fixed_one
  | _ => S754_nan
  end.

(** The whole number a float is, if it is one. *)
Definition whole (x : F32.t) : option Z :=
  match x with
  | S754_zero _ => Some 0
  | S754_finite s m e =>
      let n := if s then Z.neg m else Z.pos m in
      if 0 <=? e then Some (n * 2 ^ e)
      else if n mod 2 ^ (- e) =? 0 then Some (n / 2 ^ (- e)) else None
  | _ => None
  end.

(** [powf] for the base 2 and a whole or infinite exponent, which is where
    the atlas calls it; it is not defined here for other arguments and
    answers with a NaN. *)
Definition sample_powf (b y : F32.t) : F32.t :=
  match whole b, whole y, y with
  | Some 2, Some k, _ =>
      if 127 <? k then S754_infinity false
      else if k <? -149 then S754_zero false
      else if 0 <=? k then F32.of_int (2 ^ k) else nearest 1 (2 ^ (- k))
  | Some 2, None, S754_infinity s =>
      if s then S754_zero false else S754_infinity false
  | _, _, _ => S754_nan
  end.

Definition sample_libm : Libm :=
  {| logf := sample_logf; powf := sample_powf |}.

(** One glyph of 3 by 4 pixels. *)
Definition small_glyph : CharInfo :=
  {| value := 65; offsetX := 0; offsetY := 0; advanceX := 3;
     image := Image.make (Some [0; 1; 2; 3; 4; 5; 6; 7; 8; 9; 10; 11])
                         3 4 1 UNCOMPRESSED_GRAYSCALE |}.

(** A glyph that is a dash of 30 by 2 pixels. *)
Definition dash (v : Z) : CharInfo :=
  {| value := v; offsetX := 0; offsetY := 0; advanceX := 30;
     image := Image.make (Some (repeat 255 60)) 30 2 1
                         UNCOMPRESSED_GRAYSCALE |}.

(** The hyphen and two dashes; eight dashes and lines. *)
Definition three_dashes : list CharInfo := map dash [45; 8211; 8212].
Definition eight_dashes : list CharInfo :=
  map dash [45; 95; 8208; 8209; 8210; 8211; 8212; 8213].

(** A packer that packs nothing. *)
Definition no_packer : Z -> Z -> list (Z * Z) -> nat -> Z * Z * bool :=
  fun _ _ _ _ => (0, 0, false).

(** A packer that stacks the rectangles from the top, one below the
    other, as long as they fit. *)
Definition stack_packer : Z -> Z -> list (Z * Z) -> nat -> Z * Z * bool :=
  fun width height rects i =>
    let y := fold_left Z.add (map snd (firstn i rects)) 0 in
    let '(w, h) := nth i rects (0, 0) in
    (0, y, (w <=? width) && (y + h <=? height)).

(** ** LoadFontData (text.c, 109-216) *)

(** Modelled from the spec: the render modes (default anti-aliased, bitmap,
    signed distance field), an enumeration of [rayn.h], which is not under
    src/; only their being distinct matters here. *)
Definition FONT_DEFAULT : Z := 0.
Definition FONT_BITMAP : Z := 1.
Definition FONT_SDF : Z := 2.

(** Modelled from the spec: the trace levels of [rayn.h] that [text.c]
    logs at. *)
Inductive TraceLogType : Type := LOG_DEBUG | LOG_WARNING.

Definition SDF_CHAR_PADDING : Z := 4.
Definition SDF_ON_EDGE_VALUE : Z := 128.
Definition SDF_PIXEL_DIST_SCALE : Q := 64.
Definition BITMAP_ALPHA_THRESHOLD : Z := 80.

(** A rendered glyph as the rasterizer hands it out: the pixel buffer, its
    width and height, and the offsets of its origin. *)
Definition Bitmap : Type := (option (list Z) * Z * Z * Z * Z)%type.

(** The rasterizer of [stb_truetype.h] and the file system, external
    collaborators. *)
Record Rasterizer : Type :=
  { stbtt_fontinfo : Type;
    (** [fopen]/[fread]: the bytes of a file, if it opens *)
    read_file : string -> option (list Z);
    (** fills the font info and returns 0 on failure *)
    stbtt_InitFont : list Z -> stbtt_fontinfo * Z;
    stbtt_ScaleForPixelHeight : stbtt_fontinfo -> Q -> Q;
    (** ascent, descent and line gap *)
    stbtt_GetFontVMetrics : stbtt_fontinfo -> Z * Z * Z;
    stbtt_GetCodepointBitmap : stbtt_fontinfo -> Q -> Q -> Z -> Bitmap;
    stbtt_GetCodepointSDF :
      stbtt_fontinfo -> Q -> Z -> Z -> Z -> Q -> Bitmap;
    (** the advance width *)
    stbtt_GetCodepointHMetrics : stbtt_fontinfo -> Z -> Z;
    (** what the fields of a fresh [malloc] block happen to hold *)
    indeterminate : Z }.

(** The messages passed to [TraceLog], in order.  The two [LOG_DEBUG] traces
    of the glyph loop only print values and are left out. *)
Definition Log : Type := list (TraceLogType * string).

(** The aliased-bitmap pass: the first [n] pixels are set to 0 or 255. *)
Definition binarize (n : Z) (pixels : list Z) : list Z :=
  map (fun p => if p <? BITMAP_ALPHA_THRESHOLD then 0 else 255)
      (firstn (Z.to_nat n) pixels)
  ++ skipn (Z.to_nat n) pixels.

Section LoadFontData.
Variable rasterizer : Rasterizer.

(** The body of the glyph loop for the codepoint [ch]. *)
Definition load_glyph (fontInfo : stbtt_fontinfo rasterizer)
           (scaleFactor : Q) (ascent type ch : Z) : CharInfo :=
  let '(data, chw, chh, offX, offY) :=
    if negb (type =? FONT_SDF) then
      stbtt_GetCodepointBitmap rasterizer fontInfo scaleFactor scaleFactor ch
    else if negb (ch =? 32) then
      stbtt_GetCodepointSDF rasterizer fontInfo scaleFactor ch
                            SDF_CHAR_PADDING SDF_ON_EDGE_VALUE
                            SDF_PIXEL_DIST_SCALE
    else (None, 0, 0, indeterminate rasterizer, indeterminate rasterizer) in
  let data :=
    if type =? FONT_BITMAP then option_map (binarize (chw * chh)) data
    else data in
  {| value := ch;
     offsetX := offX;
     offsetY := offY + int_of_float (float_of_int ascent * scaleFactor)%Q;
     advanceX :=
       int_of_float
         (float_of_int (stbtt_GetCodepointHMetrics rasterizer fontInfo ch)
          * scaleFactor)%Q;
     image := Image.make data chw chh 1 UNCOMPRESSED_GRAYSCALE |}.

(** Returns the glyph array, [None] for a null pointer, and the log.  The
    outer failure is a read outside [fontChars]. *)
Definition LoadFontData (fileName : string) (fontSize : Z)
           (fontChars : option (list Z)) (charsCount type : Z)
  : option (option (list CharInfo) * Log) :=
  match read_file rasterizer fileName with
  | Some fontBuffer =>
      let '(fontInfo, ok) := stbtt_InitFont rasterizer fontBuffer in
      let log :=
        if ok =? 0 then [(LOG_WARNING, "Failed to init font!"%string)]
        else [] in
      let scaleFactor :=
        stbtt_ScaleForPixelHeight rasterizer fontInfo
                                  (float_of_int fontSize) in
      let '(ascent, descent, lineGap) :=
        stbtt_GetFontVMetrics rasterizer fontInfo in
      let charsCount := if 0 <? charsCount then charsCount else 95 in
      let codes :=
        match fontChars with
        | None =>
            Some (map (fun i => Z.of_nat i + 32)
                      (seq 0 (Z.to_nat charsCount)))
        | Some given =>
            if Z.of_nat (List.length given) <? charsCount then None
            else Some (firstn (Z.to_nat charsCount) given)
        end in
      codes <- codes ;;
      Some (Some (map (load_glyph fontInfo scaleFactor ascent type) codes),
            log)
  | None =>
      Some (None,
            [(LOG_WARNING,
              ("[" ++ fileName ++ "] TTF file could not be opened")%string)])
  end.
End LoadFontData.

(** A rasterizer that rejects every buffer, over a file system holding one
    file. *)
Definition rejecting : Rasterizer :=
  {| stbtt_fontinfo := unit;
     read_file := fun name =>
                    if String.eqb name "broken.ttf" then Some [0; 1; 2]
                    else None;
     stbtt_InitFont := fun _ => (tt, 0);
     stbtt_ScaleForPixelHeight := fun _ _ => 0%Q;
     stbtt_GetFontVMetrics := fun _ => (0, 0, 0);
     stbtt_GetCodepointBitmap := fun _ _ _ _ => (None, 0, 0, 0, 0);
     stbtt_GetCodepointSDF := fun _ _ _ _ _ _ => (None, 0, 0, 0, 0);
     stbtt_GetCodepointHMetrics := fun _ _ => 0;
     indeterminate := 0 |}.

(** The claim of the specification: a font the rasterizer rejects yields no
    glyph records. *)
Definition no_records (result : option (option (list CharInfo) * Log))
  : Prop :=
  exists log, result = Some (None, log).

(** ** Further notions used in the properties *)




(** The lines of a sequence of codepoints: the runs between newlines. *)
Fixpoint lines (cps : list Z) : list (list Z) :=
  match cps with
  | [] => [[]]
  | c :: cps' =>
      if c =? 10 then [] :: lines cps'
      else match lines cps' with
           | l :: ls => (c :: l) :: ls
           | [] => [[c]]
           end
  end.




(** ** LoadFontEx (text.c, 81-105) *)

(** [chars[i].image = img] *)
Definition set_image (c : CharInfo) (img : Image.t) : CharInfo :=
  {| value := value c; offsetX := offsetX c; offsetY := offsetY c;
     advanceX := advanceX c; image := img |}.

Section LoadFontEx.
Variable rasterizer : Rasterizer.
Variable libm : Libm.
Variable stbrp_pack_rects : Z -> Z -> list (Z * Z) -> nat -> Z * Z * bool.
(** The texture upload and the crop of an image, external collaborators
    declared in [rayn.h]. *)
Variable LoadTextureFromImage : Image.t -> Texture2D.
Variable ImageFromImage : Image.t -> Rectangle.t -> Image.t.
(** What the rectangle array, which comes from [malloc], holds at an
    index the packing loop has not written. *)
Variable unwritten : nat -> Rectangle.t.

(** The rectangles read from the array. *)
Definition stored (recs : Recs) : list Rectangle.t :=
  map (fun '(i, r) => match r with
                      | Some r => r
                      | None => unwritten i
                      end)
      (combine (seq 0 (List.length recs)) recs).

(** The loop [for (i = 0; i < font.charsCount; i++)] that replaces each
    glyph image by the piece of the atlas at [font.recs[i]]; [n]
    iterations are left.  An index outside the arrays is an error.  The
    releases ([UnloadImage]) change no value and are left out. *)
Fixpoint crop_glyphs (atlas : Image.t) (recs : list Rectangle.t) (n : nat)
         (i : Z) (chars : list CharInfo) : option (list CharInfo) :=
  match n with
  | O => Some chars
  | S n' =>
      c <- at_index chars i ;;
      rec <- at_index recs i ;;
      crop_glyphs atlas recs n' (i + 1)
                  (store_at chars (Z.to_nat i)
                            (set_image c (ImageFromImage atlas rec)))
  end.

(** Returns the font and the log.  [Font font = { 0 }] leaves the texture
    id zero and both arrays null when the glyph data could not be loaded;
    a null array is modelled as the empty list, which has no entry to
    read. *)
Definition LoadFontEx (fileName : string) (fontSize : Z)
           (fontChars : option (list Z)) (charsCount : Z)
  : option (Font * Log) :=
  let baseSize := fontSize in
  let charsCount := if 0 <? charsCount then charsCount else 95 in
  '(chars, log) <- LoadFontData rasterizer fileName baseSize fontChars
                                charsCount FONT_DEFAULT ;;
  match chars with
  | Some chars =>
      '(atlas, recs) <- GenImageFontAtlas libm stbrp_pack_rects chars
                                          charsCount baseSize 2 0 ;;
      let recs := stored recs in
      let texture := LoadTextureFromImage atlas in
      chars <- crop_glyphs atlas recs (Z.to_nat charsCount) 0 chars ;;
      Some ({| baseSize := baseSize; charsCount := charsCount;
               texture := texture; recs := recs; chars := chars |}, log)
  | None =>
      Some ({| baseSize := baseSize; charsCount := charsCount;
               texture := {| id := 0 |}; recs := []; chars := [] |}, log)
  end.

(** ** LoadFont (text.c, 60-76) *)

Definition DEFAULT_TTF_FONTSIZE : Z := 32.
Definition DEFAULT_TTF_NUMCHARS : Z := 95.

(** Returns the font, the log, and the texture [SetTextureFilter] was
    called on (always with [FILTER_POINT]), if it was. *)
Definition LoadFont (fileName : string)
  : option (Font * Log * option Texture2D) :=
  '(font, log) <- LoadFontEx fileName DEFAULT_TTF_FONTSIZE None
                             DEFAULT_TTF_NUMCHARS ;;
  if id (texture font) =? 0 then
    Some (font,
          log ++ [(LOG_WARNING,
                   ("[" ++ fileName ++ "] Font could not be loaded.")%string)],
          None)
  else Some (font, log, Some (texture font)).
End LoadFontEx.

(** A rasterizer that renders every glyph as a block of 16 by 32 pixels
    with an advance of 16, over a file system holding one file. *)
Definition blocks : Rasterizer :=
  {| stbtt_fontinfo := unit;
     read_file := fun name =>
                    if String.eqb name "blocks.ttf" then Some [0; 1; 0; 0]
                    else None;
     stbtt_InitFont := fun _ => (tt, 1);
     stbtt_ScaleForPixelHeight := fun _ _ => 1%Q;
     stbtt_GetFontVMetrics := fun _ => (0, 0, 0);
     stbtt_GetCodepointBitmap :=
       fun _ _ _ _ => (Some (repeat 255 512), 16, 32, 0, 0);
     stbtt_GetCodepointSDF :=
       fun _ _ _ _ _ _ => (Some (repeat 255 512), 16, 32, 0, 0);
     stbtt_GetCodepointHMetrics := fun _ _ => 16;
     indeterminate := 0 |}.

(** An upload that numbers the texture by the width of the image. *)
Definition upload (atlas : Image.t) : Texture2D :=
  {| id := Image.width atlas |}.

(** A crop that copies the rows of the rectangle out of an image of two
    bytes a pixel. *)
Definition crop (atlas : Image.t) (rec : Rectangle.t) : Image.t :=
  let x := int_of_float (Rectangle.x rec) in
  let y := int_of_float (Rectangle.y rec) in
  let w := int_of_float (Rectangle.width rec) in
  let h := int_of_float (Rectangle.height rec) in
  Image.make
    (option_map
       (fun data =>
          flat_map (fun row =>
                      firstn (Z.to_nat (2 * w))
                             (skipn (Z.to_nat
                                       (2 * ((y + row) * Image.width atlas
                                             + x)))
                                    data))
                   (upto h))
       (Image.data atlas))
    w h 1 (Image.format atlas).

(** An allocator that hands out zeroed memory. *)
Definition zeroed : nat -> Rectangle.t := fun _ => Rectangle.make 0 0 0 0.

(** The codepoints [LoadFontData] loads glyphs for: the first [charsCount]
    entries of [fontChars], or [charsCount] consecutive codepoints from 32
    (space) on when [fontChars] is null. *)
Definition requested (fontChars : option (list Z)) (charsCount : Z)
  : list Z :=
  match fontChars with
  | Some given => firstn (Z.to_nat charsCount) given
  | None => map (fun i => Z.of_nat i + 32) (seq 0 (Z.to_nat charsCount))
  end.

(** A rasterizer that renders every glyph as the same 2 by 2 bitmap of four
    shades. *)
Definition shades : Rasterizer :=
  {| stbtt_fontinfo := unit;
     read_file := fun _ => Some [0; 1; 0; 0];
     stbtt_InitFont := fun _ => (tt, 1);
     stbtt_ScaleForPixelHeight := fun _ _ => 1%Q;
     stbtt_GetFontVMetrics := fun _ => (0, 0, 0);
     stbtt_GetCodepointBitmap :=
       fun _ _ _ _ => (Some [0; 79; 80; 255], 2, 2, 0, 0);
     stbtt_GetCodepointSDF :=
       fun _ _ _ _ _ _ => (Some [0; 79; 80; 255], 2, 2, 0, 0);
     stbtt_GetCodepointHMetrics := fun _ _ => 2;
     indeterminate := 0 |}.

(** The font [LoadFontEx] returns when the file does not open: all of
    [Font font = { 0 }] but the base size and the glyph count. *)
Definition unloaded_font (fontSize charsCount : Z) : Font :=
  {| baseSize := fontSize; charsCount := charsCount;
     texture := {| id := 0 |}; recs := []; chars := [] |}.

(** ** UnloadFont (text.c, 359-372) *)

(** What [UnloadFont] releases: a call of [UnloadImage], of
    [UnloadTexture], and the two calls of [RL_FREE], on [font.chars] and on
    [font.recs]. *)
Inductive Release : Type :=
| UnloadImage (image : Image.t)
| UnloadTexture (texture : Texture2D)
| FreeChars
| FreeRecs.

(** The loop [for (i = 0; i < font.charsCount; i++)
    UnloadImage(font.chars[i].image)]; [n] iterations are left. *)
Fixpoint unload_images (font : Font) (n : nat) (i : Z)
  : option (list Release) :=
  match n with
  | O => Some []
  | S n' =>
      c <- at_index (chars font) i ;;
      rest <- unload_images font n' (i + 1) ;;
      Some (UnloadImage (image c) :: rest)
  end.

Section UnloadFont.
(** The font [GetFontDefault()] returns; the function is declared in
    [rayn.h] and defined outside this file. *)
Variable GetFontDefault : Font.

(** Returns the releases, in order, and the log. *)
Definition UnloadFont (font : Font) : option (list Release * Log) :=
  if negb (id (texture font) =? id (texture GetFontDefault)) then
    images <- unload_images font (Z.to_nat (charsCount font)) 0 ;;
    Some (images ++ [UnloadTexture (texture font); FreeChars; FreeRecs],
          [(LOG_DEBUG, "Unloaded sprite font data"%string)])
  else Some ([], []).
End UnloadFont.

(** * Properties *)

(** ** Bytes and bit fields *)

Lemma uchar_range (b : byte) : 0 <= uchar b < 256.
Proof.
  unfold uchar. pose proof (Byte.to_N_bounded b) as H. lia.
Qed.

Lemma uchar_byte_of_Z (z : Z) : 0 <= z < 256 -> uchar (byte_of_Z z) = z.
Proof.
  intros Hz. unfold uchar, byte_of_Z.
  destruct (Byte.of_N (Z.to_N z)) as [b|] eqn:E.
  - apply Byte.to_of_N in E. rewrite E. lia.
  - apply Byte.of_N_None_iff in E. lia.
Qed.

Lemma land_fits (x n : Z) :
  0 <= n -> 0 <= x < 2 ^ n -> Z.land x (Z.ones n) = x.
Proof.
  intros Hn Hx. rewrite Z.land_ones by assumption. now apply Z.mod_small.
Qed.

Lemma land_disjoint (x n mask : Z) :
  0 <= n -> 0 <= x < 2 ^ n -> Z.land (Z.ones n) mask = 0 -> Z.land x mask = 0.
Proof.
  intros Hn Hx Hm. rewrite <- (land_fits x n) by assumption.
  rewrite <- Z.land_assoc, Hm. apply Z.land_0_r.
Qed.

(** A tag [t] or-ed with a payload [x] that fits in the [n] low bits. *)
Section Tagged.
Variables (t x n : Z).
Hypothesis Hn : 0 <= n.
Hypothesis Hx : 0 <= x < 2 ^ n.
Hypothesis Ht : Z.land t (Z.ones n) = 0.

Lemma tagged_add : Z.lor t x = t + x.
Proof.
  assert (Z.land t x = 0) as H.
  { rewrite Z.land_comm. apply (land_disjoint x n t Hn Hx).
    now rewrite Z.land_comm. }
  rewrite <- Z.lxor_lor by assumption. symmetry.
  now apply Z.add_nocarry_lxor.
Qed.

Lemma tagged_payload : Z.land (Z.lor t x) (Z.ones n) = x.
Proof.
  rewrite Z.land_lor_distr_l, Ht, Z.lor_0_l. now apply land_fits.
Qed.

Lemma tagged_class (mask : Z) :
  Z.land (Z.ones n) mask = 0 -> Z.land (Z.lor t x) mask = Z.land t mask.
Proof.
  intros Hm. rewrite Z.land_lor_distr_l.
  rewrite (land_disjoint x n mask Hn Hx Hm). apply Z.lor_0_r.
Qed.
End Tagged.

Lemma recompose (c n : Z) :
  0 <= n -> Z.lor (Z.shiftl (Z.shiftr c n) n) (Z.land c (Z.ones n)) = c.
Proof.
  intros Hn. rewrite <- Z.ldiff_ones_r by assumption. apply Z.lor_ldiff_and.
Qed.

Lemma shiftr_range (c n k : Z) :
  0 <= n -> 0 <= k -> 0 <= c < 2 ^ (n + k) -> 0 <= Z.shiftr c n < 2 ^ k.
Proof.
  intros Hn Hk Hc. rewrite Z.shiftr_div_pow2 by assumption.
  rewrite Z.pow_add_r in Hc by assumption.
  assert (0 < 2 ^ n) by (apply Z.pow_pos_nonneg; lia).
  split.
  - apply Z.div_pos; lia.
  - apply Z.div_lt_upper_bound; lia.
Qed.

Lemma land_range (c n : Z) : 0 <= n -> 0 <= Z.land c (Z.ones n) < 2 ^ n.
Proof.
  intros Hn. rewrite Z.land_ones by assumption.
  apply Z.mod_pos_bound. apply Z.pow_pos_nonneg; lia.
Qed.

(** A continuation byte [10xxxxxx] with payload [m]. *)
Lemma continuation_value (m : Z) : 0 <= m < 64 -> Z.lor 0x80 m = 128 + m.
Proof. intros Hm. apply (tagged_add 0x80 m 6); [lia | exact Hm | reflexivity]. Qed.

Lemma continuation_payload (m : Z) :
  0 <= m < 64 -> Z.land (Z.lor 0x80 m) 0x3f = m.
Proof. intros Hm. apply (tagged_payload 0x80 m 6); [lia | exact Hm | reflexivity]. Qed.

Lemma continuation_expected (m : Z) :
  0 <= m < 64 -> unexpected (Z.lor 0x80 m) = false.
Proof.
  intros Hm. unfold unexpected. rewrite continuation_value by assumption.
  rewrite Z.shiftr_div_pow2 by lia.
  replace ((128 + m) / 2 ^ 6) with 2
    by (change (2 ^ 6) with 64; apply Z.div_unique with (r := m); lia).
  rewrite (proj2 (Z.eqb_neq (128 + m) 0)) by lia. reflexivity.
Qed.

Lemma continuation_byte (m : Z) :
  0 <= m < 64 -> uchar (byte_of_Z (Z.lor 0x80 m)) = Z.lor 0x80 m.
Proof.
  intros Hm. apply uchar_byte_of_Z. rewrite continuation_value by assumption. lia.
Qed.

(** ** Decoding well-formed sequences *)

Ltac bool_hyps :=
  repeat match goal with
  | H : (_ && _) = true |- _ => apply andb_true_iff in H; destruct H
  | H : (_ && _) = false |- _ => apply andb_false_iff in H; destruct H
  | H : (_ || _) = true |- _ => apply orb_true_iff in H; destruct H
  | H : (_ || _) = false |- _ => apply orb_false_iff in H; destruct H
  | H : negb _ = true |- _ => apply negb_true_iff in H
  | H : negb _ = false |- _ => apply negb_false_iff in H
  | H : (_ <=? _) = true |- _ => apply Z.leb_le in H
  | H : (_ <=? _) = false |- _ => apply Z.leb_gt in H
  | H : (_ <? _) = true |- _ => apply Z.ltb_lt in H
  | H : (_ <? _) = false |- _ => apply Z.ltb_ge in H
  | H : (_ =? _) = true |- _ => apply Z.eqb_eq in H
  | H : (_ =? _) = false |- _ => apply Z.eqb_neq in H
  end.

(** Decide the next test of the decoder from the facts at hand. *)
Ltac branch :=
  match goal with
  | |- context [if ?b then _ else _] =>
      let E := fresh "E" in
      destruct b eqn:E; bool_hyps; try lia; cbn [bindT ret app]
  end.

Lemma decode_ascii (c : Z) (rest : list byte) :
  0 <= c <= 0x7f ->
  GetNextCodepoint (byte_of_Z c :: rest) = Some ((c, 1), [0%nat]).
Proof.
  intros Hc. unfold GetNextCodepoint, text_at. cbn [nth_error].
  rewrite uchar_byte_of_Z by lia. cbn [bindT]. unfold clamp.
  repeat branch; reflexivity.
Qed.

Lemma decode_two (h m : Z) (rest : list byte) :
  2 <= h < 32 -> 0 <= m < 64 ->
  GetNextCodepoint (byte_of_Z (Z.lor 0xc0 h) :: byte_of_Z (Z.lor 0x80 m) :: rest)
  = Some ((clamp (Z.lor (Z.shiftl h 6) m), 2), [0; 1]%nat).
Proof.
  intros Hh Hm.
  assert (Z.lor 0xc0 h = 0xc0 + h) as Hv
    by (apply (tagged_add _ _ 5); [lia | lia | reflexivity]).
  assert (Z.land (Z.lor 0xc0 h) 0xe0 = 0xc0) as Hc
    by (rewrite (tagged_class _ _ 5); [reflexivity | lia | lia | reflexivity]).
  assert (Z.land (Z.lor 0xc0 h) 0x1f = h) as Hp
    by (apply (tagged_payload _ _ 5); [lia | lia | reflexivity]).
  unfold GetNextCodepoint, text_at. cbn [nth_error].
  rewrite uchar_byte_of_Z by lia.
  rewrite continuation_byte by assumption.
  cbn [bindT]. rewrite continuation_expected by assumption.
  rewrite Hc, Hp, continuation_payload by assumption.
  generalize dependent (Z.lor 0xc0 h). intros o Hv _ _.
  repeat branch; reflexivity.
Qed.

Lemma decode_three (h m1 m2 : Z) (rest : list byte) :
  0 <= h < 16 -> 0 <= m1 < 64 -> 0 <= m2 < 64 ->
  (h = 0 -> 32 <= m1) -> (h = 13 -> m1 < 32) ->
  GetNextCodepoint (byte_of_Z (Z.lor 0xe0 h) :: byte_of_Z (Z.lor 0x80 m1)
                    :: byte_of_Z (Z.lor 0x80 m2) :: rest)
  = Some ((clamp (Z.lor (Z.lor (Z.shiftl h 12) (Z.shiftl m1 6)) m2), 3),
          [0; 1; 2]%nat).
Proof.
  intros Hh Hm1 Hm2 Hlow Hsur.
  assert (Z.lor 0xe0 h = 0xe0 + h) as Hv
    by (apply (tagged_add _ _ 4); [lia | lia | reflexivity]).
  assert (Z.land (Z.lor 0xe0 h) 0xe0 = 0xe0) as Hc2
    by (rewrite (tagged_class _ _ 4); [reflexivity | lia | lia | reflexivity]).
  assert (Z.land (Z.lor 0xe0 h) 0xf0 = 0xe0) as Hc3
    by (rewrite (tagged_class _ _ 4); [reflexivity | lia | lia | reflexivity]).
  assert (Z.land (Z.lor 0xe0 h) 0xf = h) as Hp
    by (apply (tagged_payload _ _ 4); [lia | lia | reflexivity]).
  unfold GetNextCodepoint, text_at. cbn [nth_error].
  rewrite uchar_byte_of_Z by lia.
  rewrite !continuation_byte by assumption.
  cbn [bindT]. rewrite !continuation_expected by assumption.
  rewrite Hc2, Hc3, Hp, !continuation_payload by assumption.
  rewrite !continuation_value by assumption.
  generalize dependent (Z.lor 0xe0 h). intros o Hv _ _ _.
  repeat branch; reflexivity.
Qed.

Lemma decode_four (h m1 m2 m3 : Z) (rest : list byte) :
  0 <= h <= 4 -> 0 <= m1 < 64 -> 0 <= m2 < 64 -> 0 <= m3 < 64 ->
  (h = 0 -> 16 <= m1) -> (h = 4 -> m1 < 16) ->
  GetNextCodepoint (byte_of_Z (Z.lor 0xf0 h) :: byte_of_Z (Z.lor 0x80 m1)
                    :: byte_of_Z (Z.lor 0x80 m2) :: byte_of_Z (Z.lor 0x80 m3)
                    :: rest)
  = Some ((clamp (Z.lor (Z.lor (Z.lor (Z.shiftl h 18) (Z.shiftl m1 12))
                               (Z.shiftl m2 6)) m3), 4), [0; 1; 2; 3]%nat).
Proof.
  intros Hh Hm1 Hm2 Hm3 Hlow Hhigh.
  assert (Z.lor 0xf0 h = 0xf0 + h) as Hv
    by (apply (tagged_add _ _ 3); [lia | lia | reflexivity]).
  assert (Z.land (Z.lor 0xf0 h) 0xe0 = 0xe0) as Hc2
    by (rewrite (tagged_class _ _ 3); [reflexivity | lia | lia | reflexivity]).
  assert (Z.land (Z.lor 0xf0 h) 0xf0 = 0xf0) as Hc3
    by (rewrite (tagged_class _ _ 3); [reflexivity | lia | lia | reflexivity]).
  assert (Z.land (Z.lor 0xf0 h) 0xf8 = 0xf0) as Hc4
    by (rewrite (tagged_class _ _ 3); [reflexivity | lia | lia | reflexivity]).
  assert (Z.land (Z.lor 0xf0 h) 0x7 = h) as Hp
    by (apply (tagged_payload _ _ 3); [lia | lia | reflexivity]).
  unfold GetNextCodepoint, text_at. cbn [nth_error].
  rewrite uchar_byte_of_Z by lia.
  rewrite !continuation_byte by assumption.
  cbn [bindT]. rewrite !continuation_expected by assumption.
  rewrite Hc2, Hc3, Hc4, Hp, !continuation_payload by assumption.
  rewrite !continuation_value by assumption.
  generalize dependent (Z.lor 0xf0 h). intros o Hv _ _ _ _.
  repeat branch; reflexivity.
Qed.

(** ** Recomposition of a value from its 6-bit groups *)

Lemma recompose2 (c : Z) :
  Z.lor (Z.shiftl (Z.shiftr c 6) 6) (Z.land c 0x3f) = c.
Proof. apply (recompose c 6). lia. Qed.

Lemma recompose3 (c : Z) :
  Z.lor (Z.lor (Z.shiftl (Z.shiftr c 12) 12)
               (Z.shiftl (Z.land (Z.shiftr c 6) 0x3f) 6))
        (Z.land c 0x3f) = c.
Proof.
  rewrite <- (recompose2 c) at 4.
  rewrite <- (recompose2 (Z.shiftr c 6)) at 2.
  rewrite Z.shiftr_shiftr, Z.shiftl_lor, Z.shiftl_shiftl by lia.
  reflexivity.
Qed.

Lemma recompose4 (c : Z) :
  Z.lor (Z.lor (Z.lor (Z.shiftl (Z.shiftr c 18) 18)
                      (Z.shiftl (Z.land (Z.shiftr c 12) 0x3f) 12))
               (Z.shiftl (Z.land (Z.shiftr c 6) 0x3f) 6))
        (Z.land c 0x3f) = c.
Proof.
  rewrite <- (recompose3 c) at 5.
  rewrite <- (recompose2 (Z.shiftr c 12)) at 2.
  rewrite Z.shiftr_shiftr, Z.shiftl_lor, Z.shiftl_shiftl by lia.
  reflexivity.
Qed.

Lemma clamp_scalar (c : Z) : c <= 0x10ffff -> clamp c = c.
Proof. intros Hc. unfold clamp. branch; reflexivity. Qed.

Ltac fields :=
  rewrite ?Z.shiftr_div_pow2 by lia;
  change 0x3f with (Z.ones 6);
  rewrite ?Z.land_ones by lia;
  change (2 ^ 6) with 64; change (2 ^ 12) with 4096;
  change (2 ^ 18) with 262144.

(** C3. For every Unicode scalar value (U+0000..U+10FFFF without the
    surrogates U+D800..U+DFFF), decoding its standard UTF-8 encoding with
    GetNextCodepoint returns that same value, and the consumed-byte count is
    the exact length of the encoding: 1, 2, 3 or 4 bytes by encoding class. *)
Theorem C3_decode_of_encoding (c : Z) (rest : list byte) :
  is_scalar c ->
  decode (utf8_bytes c ++ rest) = Some (c, encoding_class c)
  /\ Z.of_nat (List.length (utf8_bytes c)) = encoding_class c.
Proof.
  intros [[Hlo Hhi] Hsur].
  unfold decode, utf8_bytes, utf8_encode, encoding_class.
  destruct (c <=? 0x7f) eqn:E1; bool_hyps.
  { split; [| reflexivity]. cbn [map app]. now rewrite decode_ascii by lia. }
  destruct (c <=? 0x7ff) eqn:E2; bool_hyps.
  { split; [| reflexivity]. cbn [map app].
    rewrite decode_two.
    - now rewrite recompose2, clamp_scalar.
    - fields. Z.div_mod_to_equations. lia.
    - fields. Z.div_mod_to_equations. lia. }
  destruct (c <=? 0xffff) eqn:E3; bool_hyps.
  { split; [| reflexivity]. cbn [map app].
    rewrite decode_three.
    - now rewrite recompose3, clamp_scalar.
    - fields. Z.div_mod_to_equations. lia.
    - fields. Z.div_mod_to_equations. lia.
    - fields. Z.div_mod_to_equations. lia.
    - fields. Z.div_mod_to_equations. lia.
    - fields. Z.div_mod_to_equations. lia. }
  split; [| reflexivity]. cbn [map app].
  rewrite decode_four.
  - now rewrite recompose4, clamp_scalar.
  - fields. Z.div_mod_to_equations. lia.
  - fields. Z.div_mod_to_equations. lia.
  - fields. Z.div_mod_to_equations. lia.
  - fields. Z.div_mod_to_equations. lia.
  - fields. Z.div_mod_to_equations. lia.
  - fields. Z.div_mod_to_equations. lia.
Qed.

Lemma C3_witness :
  is_scalar 0x20ac /\
  decode (utf8_bytes 0x20ac ++ [x00]) = Some (0x20ac, 3).
Proof.
  assert (is_scalar 0x20ac) as H by (unfold is_scalar; lia).
  split; [exact H |].
  exact (proj1 (C3_decode_of_encoding 0x20ac [x00] H)).
Defined.

(** ** The decoder and the terminating null *)

Lemma unexpected_null : unexpected (uchar x00) = true.
Proof. reflexivity. Qed.

Ltac explore :=
  repeat (cbn [bindT ret app nth_error]; rewrite ?unexpected_null;
          match goal with
          | |- context [if ?b then _ else _] =>
              first [ let v := eval vm_compute in b in
                      (lazymatch v with true => idtac | false => idtac end;
                       change b with v)
                    | destruct b eqn:? ]
          | |- context [match nth_error ?l ?k with _ => _ end] =>
              destruct (nth_error l k) eqn:?
          end);
  cbn [bindT ret app nth_error].

(** The bytes stored after a null do not influence the decoder. *)
Lemma GetNextCodepoint_upto_null (s rest : list byte) :
  GetNextCodepoint (s ++ x00 :: rest) = GetNextCodepoint (s ++ [x00]).
Proof.
  unfold GetNextCodepoint, text_at.
  destruct s as [|b0 [|b1 [|b2 [|b3 s]]]]; cbn [app nth_error]; reflexivity.
Qed.

Ltac leaf :=
  split;
  [ repeat (apply Forall_cons; [cbn [List.length]; lia |]); apply Forall_nil
  | cbn [In List.length]; intros Hin Hne; try congruence;
    repeat (destruct Hin as [Hin|Hin]; try discriminate Hin; try lia);
    try (split; reflexivity); try contradiction ].

Lemma GetNextCodepoint_stops_at_null (s : list byte) :
  stops_at_null s (GetNextCodepoint (s ++ [x00])).
Proof.
  unfold GetNextCodepoint, text_at, stops_at_null.
  destruct s as [|b0 [|b1 [|b2 [|b3 s]]]]; cbn [app nth_error].
  - explore. all: leaf.
  - explore. all: leaf.
  - explore. all: leaf.
  - explore. all: leaf.
  - explore. all: leaf.
Qed.

Lemma nominal_length_le (o : Z) : 1 <= nominal_length o <= 4.
Proof. unfold nominal_length. repeat destruct (_ : bool); lia. Qed.

Ltac classify H :=
  unfold nominal_length in H;
  repeat match goal with
         | E : ?b = _ |- _ =>
             match type of H with context [b] => rewrite E in H end
         end;
  cbn [List.length] in H.

(** A null inside the sequence the leading byte announces: the decoder
    returns 0x3f and counts the bytes it has read. *)
Lemma GetNextCodepoint_truncated (s : list byte) (b0 : byte) :
  nth_error s 0 = Some b0 ->
  Z.of_nat (List.length s) < nominal_length (uchar b0) ->
  exists n reads,
    GetNextCodepoint (s ++ [x00]) = Some ((0x3f, n), reads)
    /\ n = Z.of_nat (List.length reads).
Proof.
  intros H0 Hlen.
  destruct s as [|b [|b1 [|b2 [|b3 s]]]]; cbn [nth_error] in H0;
    try discriminate; injection H0 as ->.
  - unfold GetNextCodepoint, text_at. cbn [app nth_error]. explore.
    all: try (classify Hlen; lia).
    all: do 2 eexists; split; reflexivity.
  - unfold GetNextCodepoint, text_at. cbn [app nth_error]. explore.
    all: try (classify Hlen; lia).
    all: do 2 eexists; split; reflexivity.
  - unfold GetNextCodepoint, text_at. cbn [app nth_error]. explore.
    all: try (classify Hlen; lia).
    all: do 2 eexists; split; reflexivity.
  - cbn [List.length] in Hlen. pose proof (nominal_length_le (uchar b0)). lia.
Qed.

(** C4. For every null-terminated buffer and every starting position, the
    decoder inspects no byte past the terminating null: every offset it
    reads lies at or before the null.  When the buffer ends inside a
    multi-byte sequence (the null stands where the leading byte at the
    starting position announces a byte of the sequence), the decoder stops
    and returns the replacement codepoint 0x3F with the number of bytes
    inspected so far. *)
Theorem C4_no_read_past_null (buffer : list byte) (i p : nat) :
  nth_error buffer p = Some x00 -> (i <= p)%nat ->
  exists code n reads,
    GetNextCodepoint (skipn i buffer) = Some ((code, n), reads)
    /\ Forall (fun k => (i + k <= p)%nat) reads
    /\ (forall b0, nth_error buffer i = Some b0 -> (i < p)%nat ->
                   Z.of_nat (p - i) < nominal_length (uchar b0) ->
                   code = 0x3f /\ n = Z.of_nat (List.length reads)).
Proof.
  intros Hp Hi.
  destruct (nth_error_split buffer p Hp) as (pre & rest & Hb & Hlen).
  set (s := skipn i pre).
  assert (skipn i buffer = s ++ x00 :: rest) as Hs.
  { rewrite Hb, skipn_app.
    replace (i - List.length pre)%nat with 0%nat by lia. reflexivity. }
  assert (List.length s = (p - i)%nat) as Hls.
  { unfold s. rewrite length_skipn. lia. }
  rewrite Hs, GetNextCodepoint_upto_null.
  pose proof (GetNextCodepoint_stops_at_null s) as H.
  unfold stops_at_null in H.
  destruct (GetNextCodepoint (s ++ [x00])) as [[[code n] reads]|] eqn:Hrun;
    [| contradiction].
  destruct H as [Hreads _]. rewrite Hls in Hreads.
  exists code, n, reads. split; [reflexivity | split].
  - eapply Forall_impl; [| exact Hreads]. cbv beta. intros; lia.
  - intros b0 Hb0 Hlt Hshort.
    assert (nth_error s 0 = Some b0) as Hs0.
    { unfold s. rewrite nth_error_skipn, Nat.add_0_r.
      rewrite Hb, nth_error_app1 in Hb0 by lia. exact Hb0. }
    rewrite <- Hls in Hshort.
    destruct (GetNextCodepoint_truncated s b0 Hs0 Hshort)
      as (n' & reads' & Hrun' & Hn').
    rewrite Hrun in Hrun'. injection Hrun' as -> -> ->. now split.
Qed.

Lemma C4_witness :
  exists code n reads,
    GetNextCodepoint (skipn 1 [x41; xe2; x82; x00; x42])
    = Some ((code, n), reads)
    /\ Forall (fun k => (1 + k <= 3)%nat) reads
    /\ (forall b0, nth_error [x41; xe2; x82; x00; x42] 1 = Some b0 ->
                   (1 < 3)%nat ->
                   Z.of_nat (3 - 1) < nominal_length (uchar b0) ->
                   code = 0x3f /\ n = Z.of_nat (List.length reads)).
Proof.
  apply (C4_no_read_past_null [x41; xe2; x82; x00; x42] 1 3).
  - reflexivity.
  - lia.
Defined.

(** ** Malformed continuation bytes *)

(** The source's test of a continuation byte against the table's range. *)
Lemma unexpected_tail (b : byte) :
  unexpected (uchar b) = negb (is_tail (uchar b)).
Proof. destruct b; reflexivity. Qed.

Lemma uchar_null (b : byte) : uchar b = 0 -> b = x00.
Proof. destruct b; intros H; try reflexivity; discriminate H. Qed.

Lemma class_two (b : byte) :
  (Z.land (uchar b) 0xe0 =? 0xc0) = (0xc0 <=? uchar b) && (uchar b <=? 0xdf).
Proof. destruct b; reflexivity. Qed.

Lemma class_three (b : byte) :
  (Z.land (uchar b) 0xf0 =? 0xe0) = (0xe0 <=? uchar b) && (uchar b <=? 0xef).
Proof. destruct b; reflexivity. Qed.

Lemma class_four (b : byte) :
  (Z.land (uchar b) 0xf8 =? 0xf0) = (0xf0 <=? uchar b) && (uchar b <=? 0xf7).
Proof. destruct b; reflexivity. Qed.

(** Case analysis along the tests and reads of the decoder. *)
Ltac walk :=
  repeat (cbn [bindT ret app];
          match goal with
          | |- context [if ?b then _ else _] => destruct b eqn:?
          | |- context [match nth_error ?l ?k with _ => _ end] =>
              destruct (nth_error l k) eqn:?
          end);
  cbn [bindT ret app].

(** Rewrite the tests already decided into the goal. *)
Ltac decided :=
  repeat match goal with
  | H : ?c = _ |- context [if ?c then _ else _] => rewrite H
  end.

(** What a result of the decoder on a multi-byte leading byte tells: the
    count never exceeds the announced length, and a codepoint other than
    0x3F is only returned when every byte of the sequence passed its test. *)
Lemma multi_byte_outcome (text : list byte) (b0 : byte)
      (code n : Z) (reads : list nat) :
  nth_error text 0 = Some b0 ->
  2 <= nominal_length (uchar b0) ->
  GetNextCodepoint text = Some ((code, n), reads) ->
  1 <= n <= nominal_length (uchar b0)
  /\ (code <> 0x3f ->
      forall k, (1 <= k)%nat -> Z.of_nat k < nominal_length (uchar b0) ->
      exists bk, nth_error text k = Some bk
        /\ unexpected (uchar bk) = false
        /\ (k = 1%nat -> second_in_range (uchar b0) (uchar bk) = true)).
Proof.
  intros H0 Hmulti. unfold GetNextCodepoint, text_at. rewrite H0.
  revert Hmulti. walk.
  all: intros Hmulti H; try discriminate H; injection H as <- <- <-.
  all: revert Hmulti; unfold nominal_length; decided; intros Hmulti.
  all: try lia.
  all: (split; [lia |]).
  all: intros Hcode k Hk1 Hk; try (exfalso; apply Hcode; reflexivity).
  all: destruct k as [|[|[|[|k]]]]; try lia.
  all: eexists; (split; [eassumption |]); (split; [assumption |]).
  all: intros Hk'; try discriminate Hk'.
  all: unfold second_in_range.
  all: repeat match goal with
       | H : _ = _ |- _ =>
           progress rewrite ?class_two, ?class_three, ?class_four in H
       end.
  all: bool_hyps; repeat branch; try reflexivity; try lia.
Qed.

(** On a null-terminated buffer the decoder always returns. *)
Lemma GetNextCodepoint_total (text : list byte) :
  In x00 text -> exists r, GetNextCodepoint text = Some r.
Proof.
  intros Hnull. apply in_split in Hnull. destruct Hnull as (s & rest & ->).
  rewrite GetNextCodepoint_upto_null.
  pose proof (GetNextCodepoint_stops_at_null s) as H.
  destruct (GetNextCodepoint (s ++ [x00])) as [r|]; [| contradiction].
  now exists r.
Qed.

(** C2. For every null-terminated byte sequence whose leading byte announces
    a multi-byte sequence and one of whose continuation bytes is truncated
    (the null) or otherwise invalid, GetNextCodepoint returns the codepoint
    0x3F and a consumed-byte count that is at most the nominal length of the
    sequence.  In particular the sequence E0 9F 80 decodes to 0x3F with a
    count of exactly 2. *)
Theorem C2_bad_continuation (text : list byte) (b0 : byte) (k : nat)
        (rest : list byte) :
  (In x00 text -> bad_continuation text b0 k ->
   exists n, decode text = Some (0x3f, n)
             /\ 1 <= n <= nominal_length (uchar b0))
  /\ decode (xe0 :: x9f :: x80 :: rest) = Some (0x3f, 2).
Proof.
  split; [| reflexivity].
  intros Hnull (H0 & Hk1 & Hk & bk & Hbk & Hbad).
  destruct (GetNextCodepoint_total text Hnull) as [[[code n] reads] Hr].
  assert (2 <= nominal_length (uchar b0)) as Hmulti by lia.
  destruct (multi_byte_outcome text b0 code n reads H0 Hmulti Hr)
    as [Hn Hok].
  exists n. unfold decode. rewrite Hr. cbn [option_map fst].
  split; [| exact Hn].
  destruct (Z.eq_dec code 0x3f) as [-> | Hcode]; [reflexivity | exfalso].
  destruct (Hok Hcode k Hk1 Hk) as (bk' & Hbk' & Hexp & Hrange).
  rewrite Hbk in Hbk'. injection Hbk' as <-.
  rewrite unexpected_tail in Hexp. apply negb_false_iff in Hexp.
  destruct Hbad as [Hbad | [-> Hbad]].
  - congruence.
  - rewrite (Hrange eq_refl) in Hbad. discriminate Hbad.
Qed.

Lemma C2_witness :
  In x00 [xe2; x82; x00] /\ bad_continuation [xe2; x82; x00] xe2 2
  /\ exists n, decode [xe2; x82; x00] = Some (0x3f, n)
               /\ 1 <= n <= nominal_length (uchar xe2).
Proof.
  assert (In x00 [xe2; x82; x00]) as H1 by (cbn; tauto).
  assert (bad_continuation [xe2; x82; x00] xe2 2) as H2.
  { unfold bad_continuation. split; [reflexivity |]. split; [lia |].
    split; [reflexivity |]. exists x00. split; [reflexivity |].
    left. reflexivity. }
  split; [exact H1 | split; [exact H2 |]].
  exact (proj1 (C2_bad_continuation [xe2; x82; x00] xe2 2 []) H1 H2).
Defined.

(** ** Strings *)

Lemma strlen_null (text : list byte) (len : Z) :
  strlen text = Some len ->
  0 <= len /\ nth_error text (Z.to_nat len) = Some x00.
Proof.
  revert len. induction text as [|c text IH]; intros len H; [discriminate H |].
  cbn [strlen] in H. destruct (uchar c =? 0) eqn:E.
  - injection H as <-. apply Z.eqb_eq, uchar_null in E. subst c.
    split; [lia | reflexivity].
  - destruct (strlen text) as [n|]; [| discriminate H].
    cbn [bind] in H. injection H as <-.
    destruct (IH n eq_refl) as [Hn Hnth]. split; [lia |].
    replace (Z.to_nat (n + 1)) with (S (Z.to_nat n)) by lia. exact Hnth.
Qed.

Lemma strlen_total (text : list byte) :
  In x00 text -> exists len, strlen text = Some len.
Proof.
  induction text as [|c text IH]; intros H; [destruct H |].
  cbn [strlen]. destruct (uchar c =? 0) eqn:E; [now exists 0 |].
  destruct H as [-> | H]; [discriminate E |].
  destruct (IH H) as [n ->]. now exists (n + 1).
Qed.

Lemma text_from_null (text : list byte) (len i : Z) :
  strlen text = Some len -> 0 <= i <= len -> In x00 (text_from text i).
Proof.
  intros Hlen Hi. destruct (strlen_null text len Hlen) as [_ Hnth].
  destruct (nth_error_split text (Z.to_nat len) Hnth) as (pre & rest & -> & Hpre).
  unfold text_from. rewrite skipn_app. apply in_or_app. right.
  replace (Z.to_nat i - List.length pre)%nat with 0%nat by lia.
  left. reflexivity.
Qed.

(** ** The decoder always moves forward *)

Lemma GetNextCodepoint_count (text : list byte) (code n : Z)
      (reads : list nat) :
  GetNextCodepoint text = Some ((code, n), reads) -> 1 <= n <= 4.
Proof.
  unfold GetNextCodepoint, text_at. walk.
  all: intros H; try discriminate H; injection H as <- <- <-; lia.
Qed.

Lemma decode_count (text : list byte) (code n : Z) :
  decode text = Some (code, n) -> 1 <= n <= 4.
Proof.
  unfold decode. destruct (GetNextCodepoint text) as [[[c m] reads]|] eqn:E;
    intros H; [| discriminate H].
  injection H as <- <-. exact (GetNextCodepoint_count _ _ _ _ E).
Qed.

Lemma decode_total (text : list byte) :
  In x00 text -> exists c n, decode text = Some (c, n).
Proof.
  intros H. destruct (GetNextCodepoint_total text H) as [[[c n] reads] Hr].
  exists c, n. unfold decode. now rewrite Hr.
Qed.

(** ** The loops as folds over the codepoints *)

Lemma bind_comm {A B C : Type} (m : option A) (k : option B)
      (f : A -> B -> option C) :
  (a <- m ;; b <- k ;; f a b) = (b <- k ;; a <- m ;; f a b).
Proof. destruct m, k; reflexivity. Qed.

Section Walk.
Context {State : Type}.
Variable step : Z -> State -> option State.
Variable text : list byte.
Variable len : Z.

Lemma for_loop_walk (fuel : nat) (i : Z) (st : State) :
  for_loop fuel len (walk_body step text) i st
  = (cps <- codepoints_from fuel text len i ;; foldM step cps st).
Proof.
  revert i st. induction fuel as [|fuel IH]; intros i st; cbn [for_loop codepoints_from].
  - destruct (len <=? i); reflexivity.
  - destruct (len <=? i); [reflexivity |].
    unfold walk_body at 1.
    destruct (decode (text_from text i)) as [[c n]|]; [| reflexivity].
    cbn [bind].
    destruct (step c st) as [st'|] eqn:Hstep; cbn [bind].
    + rewrite IH.
      replace (i + ((if c =? 63 then 1 else n) - 1) + 1)
        with (i + (if c =? 63 then 1 else n)) by lia.
      destruct (codepoints_from fuel text len _) as [cps|]; [| reflexivity].
      cbn [bind foldM]. now rewrite Hstep.
    + destruct (codepoints_from fuel text len _) as [cps|]; [| reflexivity].
      cbn [bind foldM]. now rewrite Hstep.
Qed.
End Walk.

Lemma codepoints_from_total (text : list byte) (len : Z) :
  strlen text = Some len ->
  forall (fuel : nat) (i : Z),
    0 <= i -> len - i <= Z.of_nat fuel ->
    exists cps, codepoints_from fuel text len i = Some cps.
Proof.
  intros Hlen. induction fuel as [|fuel IH]; intros i Hi Hfuel;
    cbn [codepoints_from].
  - rewrite (proj2 (Z.leb_le len i)) by lia. now exists [].
  - destruct (len <=? i) eqn:E; [now exists [] |]. apply Z.leb_gt in E.
    destruct (decode_total (text_from text i)) as (c & n & Hd).
    { apply (text_from_null text len); [assumption | lia]. }
    rewrite Hd. cbn [bind]. pose proof (decode_count _ _ _ Hd) as Hn.
    destruct (IH (i + (if c =? 63 then 1 else n))) as [cps ->].
    + destruct (c =? 63); lia.
    + destruct (c =? 63); lia.
    + cbn [bind]. now exists (c :: cps).
Qed.

Lemma codepoints_total (text : list byte) :
  In x00 text -> exists cps, codepoints text = Some cps.
Proof.
  intros H. destruct (strlen_total text H) as [len Hlen].
  unfold codepoints. rewrite Hlen. cbn [bind].
  destruct (strlen_null text len Hlen) as [Hpos _].
  apply (codepoints_from_total text len Hlen); lia.
Qed.

(** ** Glyph lookup *)

Lemma at_index_Some {A : Type} (l : list A) (i : Z) :
  0 <= i < Z.of_nat (List.length l) -> exists v, at_index l i = Some v.
Proof.
  intros Hi. unfold at_index. rewrite (proj2 (Z.ltb_ge i 0)) by lia.
  destruct (nth_error l (Z.to_nat i)) as [v|] eqn:E; [now exists v |].
  apply nth_error_None in E. lia.
Qed.

Lemma at_index_range {A : Type} (l : list A) (i : Z) (v : A) :
  at_index l i = Some v -> 0 <= i < Z.of_nat (List.length l).
Proof.
  unfold at_index. destruct (i <? 0) eqn:E; [discriminate |].
  apply Z.ltb_ge in E. intros H.
  assert (nth_error l (Z.to_nat i) <> None) as Hn by congruence.
  apply nth_error_Some in Hn. lia.
Qed.

(** The loop returns the first index from [i] on whose glyph carries the
    codepoint, and [index] when the [n] glyphs from [i] on do not. *)
Lemma GetGlyphIndex_loop_found (font : Font) (codepoint : Z) :
  forall (n : nat) (i index k : Z) (c : CharInfo),
    0 <= i <= k -> k < i + Z.of_nat n ->
    at_index (chars font) k = Some c -> value c = codepoint ->
    (forall j c', i <= j < k -> at_index (chars font) j = Some c' ->
                  value c' <> codepoint) ->
    GetGlyphIndex_loop font codepoint n i index = Some k.
Proof.
  induction n as [|n IH]; intros i index k c Hik Hk Hc Hv Hfirst; [lia |].
  cbn [GetGlyphIndex_loop].
  destruct (Z.eq_dec i k) as [-> | Hne].
  - rewrite Hc. cbn [bind]. now rewrite (proj2 (Z.eqb_eq _ _) Hv).
  - destruct (at_index_Some (chars font) i) as [ci Hci].
    { apply at_index_range in Hc. lia. }
    rewrite Hci. cbn [bind].
    rewrite (proj2 (Z.eqb_neq _ _) (Hfirst i ci ltac:(lia) Hci)).
    apply (IH (i + 1) index k c); try assumption; try lia.
    intros j c' Hj. apply Hfirst. lia.
Qed.

Lemma GetGlyphIndex_loop_absent (font : Font) (codepoint : Z) :
  forall (n : nat) (i index : Z),
    0 <= i -> i + Z.of_nat n <= Z.of_nat (List.length (chars font)) ->
    (forall j c', i <= j -> at_index (chars font) j = Some c' ->
                  value c' <> codepoint) ->
    GetGlyphIndex_loop font codepoint n i index = Some index.
Proof.
  induction n as [|n IH]; intros i index Hi Hn Habs; [reflexivity |].
  cbn [GetGlyphIndex_loop].
  destruct (at_index_Some (chars font) i) as [ci Hci]; [lia |].
  rewrite Hci. cbn [bind].
  rewrite (proj2 (Z.eqb_neq _ _) (Habs i ci ltac:(lia) Hci)).
  apply IH; try lia. intros j c' Hj. apply Habs. lia.
Qed.



Lemma GetGlyphIndex_present (font : Font) (codepoint k : Z) (c : CharInfo) :
  0 <= k < charsCount font ->
  at_index (chars font) k = Some c -> value c = codepoint ->
  (forall j c', 0 <= j < k -> at_index (chars font) j = Some c' ->
                value c' <> codepoint) ->
  GetGlyphIndex font codepoint = Some k.
Proof.
  intros Hk Hc Hv Hfirst. unfold GetGlyphIndex.
  apply (GetGlyphIndex_loop_found font codepoint _ 0 _ k c);
    try assumption; lia.
Qed.

Lemma GetGlyphIndex_absent (font : Font) (codepoint : Z) :
  charsCount font <= Z.of_nat (List.length (chars font)) ->
  (forall j c', at_index (chars font) j = Some c' -> value c' <> codepoint) ->
  GetGlyphIndex font codepoint = Some TEXT_CHARACTER_NOTFOUND.
Proof.
  intros Hn Habs. unfold GetGlyphIndex.
  apply GetGlyphIndex_loop_absent; try lia. intros j c' _. apply Habs.
Qed.

(** C6 (evaluation of the code at the failing inputs).  For a codepoint no
    glyph of the font carries, GetGlyphIndex returns the constant 63, which
    is the codepoint of ['?'], not the index of its glyph: in the default
    character set (32..126) the glyph of ['?'] is at index 31 and index 63
    holds ['_'] (95); in a font of three glyphs index 63 is outside the
    glyph array while the glyph of ['?'] is at index 1. *)
Theorem C6_absent_codepoint_index :
  GetGlyphIndex ascii_font 0x20ac = Some 63
  /\ GetGlyphIndex ascii_font 0x3f = Some 31
  /\ option_map value (at_index (chars ascii_font) 63) = Some 0x5f
  /\ GetGlyphIndex tiny_font 0x20ac = Some 63
  /\ GetGlyphIndex tiny_font 0x3f = Some 1
  /\ at_index (chars tiny_font) 63 = None.
Proof. repeat split; reflexivity. Qed.

(** ** Measuring *)

Lemma MeasureTextEx_fold (font : Font) (text : list byte)
      (fontSize spacing : Q) :
  MeasureTextEx font text fontSize spacing
  = (cps <- codepoints text ;;
     st <- foldM (measure_step font) cps (MeasureTextEx_init font) ;;
     Some (MeasureTextEx_result font fontSize spacing st)).
Proof.
  unfold MeasureTextEx, codepoints.
  destruct (strlen text) as [len|]; [| reflexivity]. cbn [bind].
  change (MeasureTextEx_body font text)
    with (walk_body (measure_step font) text).
  rewrite for_loop_walk.
  destruct (codepoints_from (Z.to_nat len) text len 0); reflexivity.
Qed.






















(** ** Drawing *)

Lemma DrawTextEx_run_fold (font : Font) (text : list byte)
      (position : Vector2.t) (fontSize spacing : Q) (color : Color.t) :
  DrawTextEx_run font text position fontSize spacing color
  = (cps <- codepoints text ;;
     foldM (draw_step font position
                      (fontSize / float_of_int (baseSize font))%Q
                      spacing color)
           cps DrawTextEx_init).
Proof.
  unfold DrawTextEx_run, codepoints.
  destruct (strlen text) as [len|]; [| reflexivity]. cbn [bind].
  change (DrawTextEx_body font text position
            (fontSize / float_of_int (baseSize font))%Q spacing color)
    with (walk_body (draw_step font position
                       (fontSize / float_of_int (baseSize font))%Q
                       spacing color) text).
  apply for_loop_walk.
Qed.


(** ** Single precision: exact operations *)

Lemma digits2_shift (m : positive) :
  Z.pos (digits2_pos (8388608 * m)) = Z.pos (digits2_pos m) + 23.
Proof.
  change (8388608 * m)%positive
    with (m~0~0~0~0~0~0~0~0~0~0~0~0~0~0~0~0~0~0~0~0~0~0~0)%positive.
  cbn [digits2_pos]. lia.
Qed.

(** Rounding a mantissa of the format shifted by 23 bits gives it back. *)
Lemma round_shifted (s : bool) (m : positive) (e : Z) :
  bounded 24 128 m e = true ->
  binary_round_aux 24 128 s (Z.pos (8388608 * m)) (-23 + e) loc_Exact
  = S754_finite s m e.
Proof.
  unfold bounded, canonical_mantissa. intros H.
  apply andb_true_iff in H. destruct H as [Hc He].
  apply Z.eqb_eq in Hc.
  unfold binary_round_aux.
  match goal with
  | |- context [shr_fexp ?p ?q (Z.pos ?a) ?b ?c] =>
      replace (shr_fexp p q (Z.pos a) b c)
        with ({| shr_m := Z.pos m; shr_r := false; shr_s := false |}, e)
  end.
  2:{ unfold shr_fexp, Zdigits2. rewrite digits2_shift.
      replace (Z.pos (digits2_pos m) + 23 + (-23 + e))
        with (Z.pos (digits2_pos m) + e) by lia.
      rewrite Hc. replace (e - (-23 + e)) with 23 by lia.
      change (8388608 * m)%positive
        with (m~0~0~0~0~0~0~0~0~0~0~0~0~0~0~0~0~0~0~0~0~0~0~0)%positive.
      cbn [shr shr_record_of_loc iter_pos shr_1 orb].
      f_equal. lia. }
  cbn [shr_m loc_of_shr_record round_nearest_even].
  unfold shr_fexp, Zdigits2. rewrite Hc, Z.sub_diag.
  cbn [shr shr_record_of_loc shr_m]. rewrite He. reflexivity.
Qed.

(** [-1.0f * x] is [-x], exactly. *)
Lemma mul_minus_one (x : F32.t) :
  representable x -> F32.mul (F32.of_int (-1)) x = F32.opp x.
Proof.
  change (F32.of_int (-1)) with (S754_finite true 8388608 (-23)).
  destruct x as [s | s | | s m e]; try reflexivity.
  intros H. apply (round_shifted (negb s) m e H).
Qed.

(** [x * 1.0f] is [x], exactly. *)
Lemma mul_one (s : bool) (m : positive) (e : Z) :
  bounded 24 128 m e = true ->
  F32.mul (S754_finite s m e) (F32.of_int 1) = S754_finite s m e.
Proof.
  intros H. change (F32.of_int 1) with (S754_finite false 8388608 (-23)).
  unfold F32.mul, SFmul. rewrite xorb_false_r, Pos.mul_comm, Z.add_comm.
  apply (round_shifted s m e H).
Qed.

(** [x / x] is [1.0f] for a finite [x] other than zero. *)
Lemma div_self (s : bool) (m : positive) (e : Z) :
  F32.div (S754_finite s m e) (S754_finite s m e) = F32.of_int 1.
Proof.
  change (F32.of_int 1) with (S754_finite false 8388608 (-23)).
  unfold F32.div, SFdiv, SFdiv_core_binary.
  replace (Zdigits2 (Z.pos m) + e - (Zdigits2 (Z.pos m) + e)) with 0 by lia.
  rewrite Z.sub_diag.
  change (Z.min (fexp F32.prec F32.emax 0) 0) with (-24).
  change (0 - -24) with 24. cbv iota.
  change (IntDef.Z.div_eucl (IntDef.Z.shiftl (Z.pos m) 24) (Z.pos m))
    with (Z.div_eucl (Z.shiftl (Z.pos m) 24) (Z.pos m)).
  assert (Z.div_eucl (Z.shiftl (Z.pos m) 24) (Z.pos m) = (16777216, 0)) as ->.
  { pose proof (Z.div_eucl_eq (Z.shiftl (Z.pos m) 24) (Z.pos m)) as Heq.
    pose proof (Z.mod_pos_bound (Z.shiftl (Z.pos m) 24) (Z.pos m)) as Hb.
    unfold Z.modulo in Hb.
    destruct (Z.div_eucl (Z.shiftl (Z.pos m) 24) (Z.pos m)) as [q r].
    rewrite Z.shiftl_mul_pow2 in Heq by lia.
    change (2 ^ 24) with 16777216 in Heq.
    specialize (Heq ltac:(lia)). specialize (Hb ltac:(lia)).
    assert (q = 16777216) as ->.
    { destruct (Z.lt_trichotomy q 16777216) as [Hq | [Hq | Hq]];
        [exfalso | exact Hq | exfalso]; nia. }
    f_equal. lia. }
  rewrite xorb_nilpotent. unfold new_location.
  destruct (Z.even (Z.pos m)); reflexivity.
Qed.

(** ** Single precision: the conversion of small integers *)

Lemma digits2_iter (p k : positive) :
  Z.pos (digits2_pos (Pos.iter xO p k)) = Z.pos (digits2_pos p) + Z.pos k.
Proof.
  induction k as [| k IH] using Pos.peano_ind.
  - cbn. lia.
  - rewrite Pos.iter_succ. cbn [digits2_pos]. lia.
Qed.

Lemma iter_double (p k : positive) :
  Z.pos (Pos.iter xO p k) = Z.pos p * 2 ^ Z.pos k.
Proof.
  induction k as [| k IH] using Pos.peano_ind.
  - cbn. lia.
  - rewrite Pos.iter_succ, Pos2Z.inj_succ, Z.pow_succ_r by lia. lia.
Qed.

Lemma digits2_bound (p : positive) :
  2 ^ (Z.pos (digits2_pos p) - 1) <= Z.pos p < 2 ^ Z.pos (digits2_pos p).
Proof.
  induction p as [p IH | p IH |]; cbn [digits2_pos].
  - rewrite Pos2Z.inj_succ.
    replace (Z.succ (Z.pos (digits2_pos p)) - 1)
      with (Z.succ (Z.pos (digits2_pos p) - 1)) by lia.
    rewrite !Z.pow_succ_r by lia. lia.
  - rewrite Pos2Z.inj_succ.
    replace (Z.succ (Z.pos (digits2_pos p)) - 1)
      with (Z.succ (Z.pos (digits2_pos p) - 1)) by lia.
    rewrite !Z.pow_succ_r by lia. lia.
  - cbn. lia.
Qed.

(** A positive number below [2^24] converts to the float of that value, a
    float of the format. *)
Lemma binary_round_small (s : bool) (p : positive) :
  Z.pos p < 2 ^ 24 ->
  exists m e,
    binary_round 24 128 s p 0 = S754_finite s m e
    /\ bounded 24 128 m e = true
    /\ e <= 0 /\ Z.pos m = Z.pos p * 2 ^ (- e).
Proof.
  intros Hp. pose proof (digits2_bound p) as Hd.
  assert (Z.pos (digits2_pos p) <= 24) as Hle.
  { destruct (Z.le_gt_cases (Z.pos (digits2_pos p)) 24) as [H | H]; [exact H |].
    exfalso.
    assert (2 ^ 24 <= 2 ^ (Z.pos (digits2_pos p) - 1))
      by (apply Z.pow_le_mono_r; lia).
    lia. }
  unfold binary_round, shl_align.
  assert (fexp 24 128 (Z.pos (digits2_pos p) + 0)
          = Z.pos (digits2_pos p) - 24) as ->.
  { unfold fexp, emin. lia. }
  destruct (Z.pos (digits2_pos p) - 24 - 0) as [| k | k] eqn:Hk; [| lia |].
  - (* 24 digits: the mantissa as it is *)
    exists p, 0. unfold binary_round_aux, shr_fexp, Zdigits2.
    assert (fexp 24 128 (Z.pos (digits2_pos p) + 0) - 0 = 0) as Hf
        by (unfold fexp, emin; lia).
    rewrite Hf. cbn [shr shr_record_of_loc shr_m loc_of_shr_record
                         round_nearest_even].
    rewrite Hf. cbn [shr shr_record_of_loc shr_m Z.leb Z.compare Z.sub Z.opp
                         Z.add].
    repeat split; try lia.
    unfold bounded, canonical_mantissa.
    apply andb_true_iff. split; [apply Z.eqb_eq; lia | reflexivity].
  - (* fewer: shifted left to 24 digits *)
    exists (Pos.iter xO p k), (Z.pos (digits2_pos p) - 24).
    pose proof (digits2_iter p k) as Hdk. pose proof (iter_double p k) as Hv.
    assert (fexp 24 128 (Z.pos (digits2_pos (Pos.iter xO p k))
                         + (Z.pos (digits2_pos p) - 24))
            - (Z.pos (digits2_pos p) - 24) = 0) as Hf
        by (unfold fexp, emin; lia).
    unfold binary_round_aux, shr_fexp, Zdigits2.
    rewrite Hf. cbn [shr shr_record_of_loc shr_m loc_of_shr_record
                         round_nearest_even].
    rewrite Hf. cbn [shr shr_record_of_loc shr_m].
    assert ((Z.pos (digits2_pos p) - 24 <=? 128 - 24) = true) as ->
        by (apply Z.leb_le; lia).
    repeat split; try lia.
    + unfold bounded, canonical_mantissa.
      apply andb_true_iff. split; [apply Z.eqb_eq; lia | apply Z.leb_le; lia].
    + rewrite Hv. f_equal. f_equal. lia.
Qed.

Lemma Qred_whole (n : Z) : Qred (inject_Z n) = inject_Z n.
Proof.
  unfold Qred, inject_Z.
  pose proof (Z.ggcd_gcd n 1) as Hg.
  pose proof (Z.ggcd_correct_divisors n 1) as Hd.
  destruct (Z.ggcd n 1) as [g [a b]]. cbn [fst] in Hg.
  rewrite Z.gcd_1_r in Hg. subst g. destruct Hd as [Ha Hb].
  cbn [snd]. assert (b = 1) as -> by lia. assert (a = n) as -> by lia.
  reflexivity.
Qed.

Lemma value_small (s : bool) (m : positive) (e : Z) (n : Z) :
  e <= 0 -> (if s then Z.neg m else Z.pos m) = n * 2 ^ (- e) ->
  F32.value (S754_finite s m e) = inject_Z n.
Proof.
  intros He Hm. unfold F32.value. rewrite Hm.
  destruct (0 <=? e) eqn:Hz.
  - apply Z.leb_le in Hz. replace e with 0 by lia.
    change (2 ^ (- 0)) with 1. change (2 ^ 0) with 1. f_equal. lia.
  - assert (0 < 2 ^ (- e)) as Hpos by (apply Z.pow_pos_nonneg; lia).
    rewrite <- (Qred_whole n). apply Qred_complete. unfold Qeq, inject_Z. cbn [Qnum Qden].
    rewrite Z2Pos.id by exact Hpos. lia.
Qed.

(** [(float)n] is exact below [2^24]. *)
Lemma rounded_small (n : Z) : Z.abs n < 2 ^ 24 -> rounded n = inject_Z n.
Proof.
  intros Hn. unfold rounded, F32.of_int, binary_normalize, F32.prec, F32.emax.
  destruct n as [| p | p]; [reflexivity | |].
  - destruct (binary_round_small false p) as (m & e & -> & _ & He & Hm);
      [lia |].
    apply value_small; [exact He | exact Hm].
  - destruct (binary_round_small true p) as (m & e & -> & _ & He & Hm);
      [lia |].
    apply value_small; [exact He | lia].
Qed.

Lemma of_int_finite (n : Z) :
  n <> 0 -> Z.abs n < 2 ^ 24 ->
  exists s m e,
    F32.of_int n = S754_finite s m e /\ bounded 24 128 m e = true.
Proof.
  intros Hz Hn. unfold F32.of_int, binary_normalize, F32.prec, F32.emax.
  destruct n as [| p | p]; [contradiction | |].
  - destruct (binary_round_small false p) as (m & e & -> & Hb & _); [lia |].
    exists false, m, e. split; [reflexivity | exact Hb].
  - destruct (binary_round_small true p) as (m & e & -> & Hb & _); [lia |].
    exists true, m, e. split; [reflexivity | exact Hb].
Qed.

(** ** Measuring the empty string *)

Lemma MeasureTextEx_empty (font : Single.Font) (rest : list byte)
      (fontSize spacing : F32.t) :
  Single.MeasureTextEx font (x00 :: rest) fontSize spacing
  = Some {| Single.Vector2.x :=
              F32.add (F32.mul (F32.of_int 0) (Single.scale font fontSize))
                      (F32.mul (F32.of_int (-1)) spacing);
            Single.Vector2.y :=
              F32.mul (F32.of_int (Single.baseSize font))
                      (Single.scale font fontSize) |}.
Proof. reflexivity. Qed.

(** C10. For every Font Object, target pixel size and spacing,
    MeasureTextEx applied to the empty string returns the width
    [0*scaleFactor + (-1)*spacing] and the height [baseSize*scaleFactor],
    with [scaleFactor = fontSize/baseSize] and each operation rounded to
    single precision.  The width is exactly minus the spacing whenever the
    scale factor is finite (a zero of either sign when the spacing is
    zero).  The height is the target pixel size only as far as the rounding
    of the quotient and of the product allows; it is exactly the target
    pixel size when that is the base size of the font (not zero and below
    2^24). *)
Theorem C10_measure_empty (font : Single.Font) (rest : list byte)
        (fontSize spacing : F32.t) :
  exists v,
    Single.MeasureTextEx font (x00 :: rest) fontSize spacing = Some v
    /\ Single.Vector2.x v
       = F32.add (F32.mul (F32.of_int 0) (Single.scale font fontSize))
                 (F32.mul (F32.of_int (-1)) spacing)
    /\ Single.Vector2.y v
       = F32.mul (F32.of_int (Single.baseSize font))
                 (F32.div fontSize (F32.of_int (Single.baseSize font)))
    /\ (F32.is_finite (Single.scale font fontSize) = true ->
        representable spacing ->
        Single.Vector2.x v = F32.opp spacing
        \/ exists s s', spacing = S754_zero s
                        /\ Single.Vector2.x v = S754_zero s')
    /\ (Single.baseSize font <> 0 -> Z.abs (Single.baseSize font) < 2 ^ 24 ->
        fontSize = F32.of_int (Single.baseSize font) ->
        Single.Vector2.y v = fontSize).
Proof.
  eexists. split; [apply MeasureTextEx_empty |].
  cbn [Single.Vector2.x Single.Vector2.y].
  split; [reflexivity | split; [reflexivity | split]].
  - intros Hfin Hrep. rewrite (mul_minus_one spacing Hrep).
    change (F32.of_int 0) with (S754_zero false).
    destruct (Single.scale font fontSize) as [s1 | s1 | | s1 m1 e1];
      try discriminate Hfin;
      destruct spacing as [s | s | | s m e]; cbn;
      try (left; reflexivity);
      right; exists s; destruct s, s1; cbn; eexists; split; reflexivity.
  - intros Hbase Hsmall ->. unfold Single.scale.
    destruct (of_int_finite _ Hbase Hsmall) as (s & m & e & -> & Hb).
    rewrite div_self. apply (mul_one s m e Hb).
Qed.

(** At base size 7 and target size 31 the height measured is
    30.9999981, below the target size; at base size 0 the scale factor is
    infinite and neither the width nor the height is a number. *)
Lemma C10_counterexample :
  (exists v,
      Single.MeasureTextEx (Single.plain 7 []) [x00] (F32.of_int 31)
                           (F32.of_int 3) = Some v
      /\ Single.Vector2.x v = F32.of_int (-3)
      /\ Single.Vector2.y v = S754_finite false 16252927 (-19)
      /\ Single.Vector2.y v <> F32.of_int 31
      /\ F32.ltb (Single.Vector2.y v) (F32.of_int 31) = true)
  /\ (exists v,
         Single.MeasureTextEx (Single.plain 0 []) [x00] (F32.of_int 20)
                              (F32.of_int 3) = Some v
         /\ Single.Vector2.x v = S754_nan
         /\ Single.Vector2.y v = S754_nan).
Proof.
  split.
  - eexists. split; [apply MeasureTextEx_empty |].
    cbn [Single.Vector2.x Single.Vector2.y].
    repeat split; try (vm_compute; reflexivity).
    vm_compute. discriminate.
  - eexists. split; [apply MeasureTextEx_empty |].
    cbn [Single.Vector2.x Single.Vector2.y].
    split; vm_compute; reflexivity.
Qed.

(** ** Drawing against measuring, in single precision *)



Section Passes.
Variable font : Single.Font.
Variable position : Single.Vector2.t.
Variables scaleFactor spacing : F32.t.
Variable color : Color.t.







End Passes.





(** ** The atlas *)

(** *** The pixels: no write changes the size of the atlas *)

Lemma store_at_length {A : Type} (a : list A) (i : nat) (v : A) :
  List.length (store_at a i v) = List.length a.
Proof.
  revert i. induction a as [| x a IH]; intros i; [destruct i; reflexivity |].
  destruct i as [| i]; cbn [store_at List.length]; [reflexivity |].
  now rewrite IH.
Qed.

Lemma write_at_length {A : Type} (a a' : list A) (i : Z) (v : A) :
  write_at a i v = Some a' -> List.length a' = List.length a.
Proof.
  unfold write_at. destruct (_ && _); [| discriminate].
  intros H. injection H as <-. apply store_at_length.
Qed.

Lemma foldM_invariant {State : Type} (P : State -> Prop)
      (step : Z -> State -> option State) :
  (forall k st st', P st -> step k st = Some st' -> P st') ->
  forall (ks : list Z) (st st' : State),
    P st -> foldM step ks st = Some st' -> P st'.
Proof.
  intros Hstep. induction ks as [| k ks IH]; intros st st' HP H.
  - injection H as <-. exact HP.
  - cbn [foldM] in H. destruct (step k st) as [st1 |] eqn:E; [| discriminate].
    cbn [bind] in H. eapply IH; [| exact H]. eapply Hstep; eassumption.
Qed.

Lemma copy_glyph_length (c : CharInfo) (atlasWidth x0 y0 : Z)
      (atlas atlas' : list Z) :
  copy_glyph c atlasWidth x0 y0 atlas = Some atlas' ->
  List.length atlas' = List.length atlas.
Proof.
  unfold copy_glyph.
  apply (foldM_invariant (fun a => List.length a = List.length atlas));
    [| reflexivity].
  intros y st st' Hst.
  apply (foldM_invariant (fun a => List.length a = List.length atlas));
    [| exact Hst].
  intros x a a' Ha. unfold copy_pixel.
  destruct (Image.data (image c)) as [data |]; [| discriminate]. cbn [bind].
  destruct (at_index data _) as [p |]; [| discriminate]. cbn [bind].
  intros H. apply write_at_length in H. congruence.
Qed.

(** *** Row packing *)

(** The rectangles of the glyphs up to the break, then nothing; each
    rectangle written has the size of the bitmap of its glyph. *)
Lemma pack_rows_written (atlasSize fontSize padding : Z) :
  forall (glyphs : list CharInfo) (offsetX offsetY : Z) (atlas : list Z)
         (recs : Recs) (atlas' : list Z),
    pack_rows atlasSize fontSize padding glyphs offsetX offsetY atlas
    = Some (recs, atlas') ->
    List.length atlas' = List.length atlas
    /\ exists rs,
        recs = map Some rs
               ++ repeat None (List.length glyphs - List.length rs)
        /\ (List.length rs <= List.length glyphs)%nat
        /\ (glyphs <> [] -> rs <> [])
        /\ Forall2 sized (firstn (List.length rs) glyphs) rs.
Proof.
  induction glyphs as [| c rest IH];
    intros offsetX offsetY atlas recs atlas' H.
  - injection H as <- <-. split; [reflexivity |]. exists [].
    split; [reflexivity |]. split; [cbn; lia |].
    split; [congruence | constructor].
  - cbn [pack_rows] in H.
    destruct (copy_glyph c atlasSize offsetX offsetY atlas) as [atlas1 |]
      eqn:Hcopy; [| discriminate].
    apply copy_glyph_length in Hcopy. cbn [bind] in H.
    assert (forall offsetX' offsetY',
               ('(recs, atlas) <- pack_rows atlasSize fontSize padding rest
                                            offsetX' offsetY' atlas1 ;;
                Some (Some (glyph_rec (rounded offsetX) (rounded offsetY) c)
                      :: recs, atlas)) = Some (recs, atlas') ->
               List.length atlas' = List.length atlas
               /\ exists rs,
                   recs = map Some rs
                          ++ repeat None (List.length (c :: rest)
                                          - List.length rs)
                   /\ (List.length rs <= List.length (c :: rest))%nat
                   /\ (c :: rest <> [] -> rs <> [])
                   /\ Forall2 sized (firstn (List.length rs) (c :: rest)) rs)
      as Hgo.
    { intros offsetX' offsetY' Hrun.
      destruct (pack_rows atlasSize fontSize padding rest offsetX' offsetY'
                          atlas1) as [[recs1 atlas2] |] eqn:Hrest;
        [| discriminate].
      cbn [bind] in Hrun. injection Hrun as <- <-.
      destruct (IH _ _ _ _ _ Hrest) as (Hlen & rs & -> & Hle & _ & Hsz).
      split; [congruence |].
      exists (glyph_rec (rounded offsetX) (rounded offsetY) c :: rs).
      cbn [List.length map app firstn Nat.sub].
      split; [reflexivity |]. split; [lia |]. split; [discriminate |].
      constructor; [now split | exact Hsz]. }
    destruct (_ >=? _); [destruct (_ >? _) |]; try (eapply Hgo; exact H).
    injection H as <- <-. split; [exact Hcopy |].
    exists [glyph_rec (rounded offsetX) (rounded offsetY) c].
    cbn [List.length map app firstn Nat.sub]. rewrite Nat.sub_0_r.
    split; [| split; [lia | split; [discriminate | repeat constructor]]].
    f_equal. clear. induction rest as [| x rest IH]; [reflexivity |].
    cbn [map List.length repeat]. now rewrite IH.
Qed.

(** With room for a row below every glyph, the break is never taken. *)
Lemma pack_rows_room (atlasSize fontSize padding : Z) :
  0 <= padding -> 0 <= fontSize -> atlasSize <= F32.INT_MAX ->
  forall (glyphs : list CharInfo) (offsetX offsetY : Z) (atlas : list Z)
         (recs : Recs) (atlas' : list Z),
    0 <= offsetY ->
    offsetY + Z.of_nat (List.length glyphs) * (fontSize + 2 * padding)
    <= atlasSize - fontSize - padding ->
    pack_rows atlasSize fontSize padding glyphs offsetX offsetY atlas
    = Some (recs, atlas') ->
    Forall (fun r => r <> None) recs.
Proof.
  intros Hp Hf Hside.
  induction glyphs as [| c rest IH];
    intros offsetX offsetY atlas recs atlas' Hy Hroom H.
  - injection H as <- <-. constructor.
  - cbn [pack_rows] in H. cbn [List.length] in Hroom.
    rewrite Nat2Z.inj_succ in Hroom.
    destruct (copy_glyph c atlasSize offsetX offsetY atlas) as [atlas1 |];
      [| discriminate].
    cbn [bind] in H. unfold F32.INT_MAX in Hside.
    assert (wrap (offsetY + wrap (fontSize + wrap (2 * padding)))
            = offsetY + (fontSize + 2 * padding)) as Hnext.
    { unfold wrap. change (2 ^ 31) with 2147483648.
      change (2 ^ 32) with 4294967296.
      rewrite (Z.mod_small (2 * padding + 2147483648)) by nia.
      replace (2 * padding + 2147483648 - 2147483648) with (2 * padding)
        by lia.
      rewrite (Z.mod_small (fontSize + 2 * padding + 2147483648)) by nia.
      replace (fontSize + 2 * padding + 2147483648 - 2147483648)
        with (fontSize + 2 * padding) by lia.
      rewrite Z.mod_small by nia. lia. }
    assert (wrap (wrap (atlasSize - fontSize) - padding)
            = atlasSize - fontSize - padding) as Hlimit.
    { unfold wrap. change (2 ^ 31) with 2147483648.
      change (2 ^ 32) with 4294967296.
      rewrite (Z.mod_small (atlasSize - fontSize + 2147483648)) by nia.
      replace (atlasSize - fontSize + 2147483648 - 2147483648)
        with (atlasSize - fontSize) by lia.
      rewrite Z.mod_small by nia. lia. }
    rewrite Hnext, Hlimit in H.
    assert (forall offsetX' offsetY',
               0 <= offsetY' ->
               offsetY' <= offsetY + (fontSize + 2 * padding) ->
               ('(recs, atlas) <- pack_rows atlasSize fontSize padding rest
                                            offsetX' offsetY' atlas1 ;;
                Some (Some (glyph_rec (rounded offsetX) (rounded offsetY) c)
                      :: recs, atlas)) = Some (recs, atlas') ->
               Forall (fun r => r <> None) recs) as Hgo.
    { intros offsetX' offsetY' Hy0 Hy' Hrun.
      destruct (pack_rows atlasSize fontSize padding rest offsetX' offsetY'
                          atlas1) as [[recs1 atlas2] |] eqn:Hrest;
        [| discriminate].
      cbn [bind] in Hrun. injection Hrun as <- <-.
      constructor; [discriminate |].
      eapply (IH _ _ _ _ _ Hy0); [| exact Hrest]. nia. }
    destruct (_ >=? _);
      [destruct (_ >? _) eqn:Hbreak |].
    + apply Z.gtb_lt in Hbreak. nia.
    + eapply Hgo; [| | exact H]; lia.
    + eapply Hgo; [| | exact H]; nia.
Qed.

(** *** Skyline packing *)

(** Every entry is written, with the size of the bitmap of its glyph. *)
Lemma place_packed_written (atlasSize padding : Z)
      (packed : nat -> Z * Z * bool) :
  forall (glyphs : list CharInfo) (i : nat) (atlas : list Z) (recs : Recs)
         (atlas' : list Z),
    place_packed atlasSize padding packed glyphs i atlas
    = Some (recs, atlas') ->
    List.length atlas' = List.length atlas
    /\ exists rs, recs = map Some rs /\ Forall2 sized glyphs rs.
Proof.
  induction glyphs as [| c rest IH]; intros i atlas recs atlas' H.
  - injection H as <- <-. split; [reflexivity |]. exists [].
    split; [reflexivity | constructor].
  - cbn [place_packed] in H. destruct (packed i) as [[x y] was_packed].
    assert (exists atlas1,
               (if was_packed
                then copy_glyph c atlasSize (wrap (x + padding))
                                (wrap (y + padding)) atlas
                else Some atlas) = Some atlas1
               /\ List.length atlas1 = List.length atlas) as (atlas1 & E & Hl).
    { destruct was_packed.
      - destruct (copy_glyph c atlasSize _ _ atlas) as [atlas1 |] eqn:Hcopy;
          [| discriminate].
        exists atlas1. split; [reflexivity |].
        now apply copy_glyph_length in Hcopy.
      - now exists atlas. }
    rewrite E in H. cbn [bind] in H.
    destruct (place_packed atlasSize padding packed rest (S i) atlas1)
      as [[recs1 atlas2] |] eqn:Hrest; [| discriminate].
    cbn [bind] in H. injection H as <- <-.
    destruct (IH _ _ _ _ Hrest) as (Hlen & rs & -> & Hsz).
    split; [congruence |]. eexists (_ :: rs). split; [reflexivity |].
    constructor; [now split | exact Hsz].
Qed.

(** *** The atlas as a whole *)

Section Atlas.
Variable libm : Libm.
Variable stbrp_pack_rects : Z -> Z -> list (Z * Z) -> nat -> Z * Z * bool.

(** What a call that returns has computed on its way. *)
Lemma GenImageFontAtlas_returned (chars : list CharInfo)
      (charsCount fontSize padding packMethod : Z) (atlas : Image.t)
      (recs : Recs) :
  GenImageFontAtlas libm stbrp_pack_rects chars charsCount fontSize padding
                    packMethod = Some (atlas, recs) ->
  exists glyphs side pixels,
    first_glyphs chars (count_or_default charsCount) = Some glyphs
    /\ imageSize libm (guessSize (requiredArea glyphs padding)) = Some side
    /\ (if packMethod =? 0 then
          pack_rows side fontSize padding glyphs padding padding
                    (repeat 0 (Z.to_nat (wrap (side * side))))
        else if packMethod =? 1 then
          pack_skyline stbrp_pack_rects side padding glyphs
                       (repeat 0 (Z.to_nat (wrap (side * side))))
        else Some (map (fun _ => None) glyphs,
                   repeat 0 (Z.to_nat (wrap (side * side)))))
       = Some (recs, pixels)
    /\ List.length pixels = Z.to_nat (wrap (side * side))
    /\ atlas = Image.make (Some (flat_map (fun p => [255; p]) pixels))
                          side side 1 UNCOMPRESSED_GRAY_ALPHA.
Proof.
  unfold GenImageFontAtlas.
  destruct (first_glyphs chars (count_or_default charsCount))
    as [glyphs |] eqn:Hglyphs; [| discriminate].
  cbn [bind].
  destruct (imageSize libm (guessSize (requiredArea glyphs padding)))
    as [side |] eqn:Hside; [| discriminate].
  cbn [bind]. intros H.
  match type of H with
  | ('(_, _) <- ?packing ;; _) = _ =>
      destruct packing as [[recs1 pixels] |] eqn:Hpack; [| discriminate]
  end.
  cbn [bind] in H. injection H as <- <-. exists glyphs, side, pixels.
  split; [reflexivity |]. split; [exact Hside |]. split; [exact Hpack |].
  split; [| reflexivity].
  destruct (packMethod =? 0); [| destruct (packMethod =? 1)].
  - apply pack_rows_written in Hpack. destruct Hpack as [Hl _].
    rewrite Hl. apply repeat_length.
  - apply place_packed_written in Hpack. destruct Hpack as [Hl _].
    rewrite Hl. apply repeat_length.
  - injection Hpack as _ <-. apply repeat_length.
Qed.
End Atlas.

(** C8. Each Placement Rectangle that GenImageFontAtlas writes has the
    width and the height of the bitmap of its glyph, converted to float
    (exactly those below 2^24), whatever the padding.  Skyline packing
    writes the rectangle of every glyph.  Row packing writes the rectangles
    of the glyphs up to the one at which its loop breaks, the first glyph
    always among them, and leaves the entries after it as they were
    allocated; it writes all of them when the atlas has room for a row
    below every glyph. *)
Theorem C8_rectangle_sizes
        (libm : Libm)
        (stbrp_pack_rects : Z -> Z -> list (Z * Z) -> nat -> Z * Z * bool)
        (chars : list CharInfo) (count fontSize padding packMethod : Z)
        (atlas : Image.t) (recs : Recs) (glyphs : list CharInfo) :
  GenImageFontAtlas libm stbrp_pack_rects chars count fontSize padding
                    packMethod = Some (atlas, recs) ->
  first_glyphs chars (count_or_default count) = Some glyphs ->
  (packMethod = 0 \/ packMethod = 1) ->
  exists rs,
    recs = map Some rs ++ repeat None (List.length glyphs - List.length rs)
    /\ (List.length rs <= List.length glyphs)%nat
    /\ Forall2 sized (firstn (List.length rs) glyphs) rs
    /\ (forall c r, sized c r ->
                    Z.abs (Image.width (image c)) < 2 ^ 24 ->
                    Z.abs (Image.height (image c)) < 2 ^ 24 ->
                    Rectangle.width r = inject_Z (Image.width (image c))
                    /\ Rectangle.height r
                       = inject_Z (Image.height (image c)))
    /\ (packMethod = 1 -> List.length rs = List.length glyphs)
    /\ (packMethod = 0 -> glyphs <> [] -> rs <> [])
    /\ (packMethod = 0 ->
        room_for_rows (Image.width atlas) fontSize padding
                      (List.length glyphs) ->
        List.length rs = List.length glyphs).
Proof.
  intros Hrun Hglyphs Hmethod.
  destruct (GenImageFontAtlas_returned _ _ _ _ _ _ _ _ _ Hrun)
    as (glyphs' & side & pixels & Hg & _ & Hpack & _ & ->).
  rewrite Hglyphs in Hg. injection Hg as <-. cbn [Image.width].
  assert (forall c r, sized c r ->
                      Z.abs (Image.width (image c)) < 2 ^ 24 ->
                      Z.abs (Image.height (image c)) < 2 ^ 24 ->
                      Rectangle.width r = inject_Z (Image.width (image c))
                      /\ Rectangle.height r
                         = inject_Z (Image.height (image c))) as Hexact.
  { intros c r [Hw Hh] Hsw Hsh.
    now rewrite Hw, Hh, !rounded_small by assumption. }
  destruct Hmethod as [-> | ->]; cbn [Z.eqb Pos.eqb] in Hpack.
  - pose proof Hpack as Hall.
    apply pack_rows_written in Hpack.
    destruct Hpack as (_ & rs & -> & Hle & Hne & Hsz).
    exists rs. split; [reflexivity |]. split; [exact Hle |].
    split; [exact Hsz |]. split; [exact Hexact |].
    split; [discriminate |]. split; [intros _; exact Hne |].
    intros _ (Hp & Hf & Hside & Hroom).
    apply (pack_rows_room side fontSize padding Hp Hf Hside) in Hall;
      [| exact Hp | exact Hroom].
    destruct (Nat.eq_dec (List.length rs) (List.length glyphs)) as [E | E];
      [exact E | exfalso].
    rewrite Forall_forall in Hall. apply (Hall None); [| reflexivity].
    apply in_or_app. right.
    destruct (List.length glyphs - List.length rs)%nat eqn:Hk; [lia |].
    now left.
  - unfold pack_skyline in Hpack. apply place_packed_written in Hpack.
    destruct Hpack as (_ & rs & -> & Hsz).
    pose proof (Forall2_length Hsz) as Hlen.
    exists rs. rewrite Hlen, Nat.sub_diag, app_nil_r, firstn_all2 by lia.
    split; [reflexivity |]. split; [lia |]. split; [exact Hsz |].
    split; [exact Hexact |]. split; [reflexivity |].
    split; [discriminate | discriminate].
Qed.

Ltac evaluated_as H :=
  match goal with
  | |- context [?run = Some (_, _)] =>
      let v := eval vm_compute in run in
      match v with
      | Some (?a, ?r) =>
          assert (run = Some (a, r)) as H by (vm_compute; reflexivity)
      end
  end.

Lemma C8_witness :
  (exists atlas recs rs,
      GenImageFontAtlas sample_libm no_packer three_dashes 3 2 1 0
      = Some (atlas, recs)
      /\ Image.width atlas = 32
      /\ recs = map Some rs
      /\ List.length rs = 3%nat
      /\ Forall2 sized three_dashes rs)
  /\ (exists atlas recs rs,
         GenImageFontAtlas sample_libm stack_packer three_dashes 3 2 1 1
         = Some (atlas, recs)
         /\ recs = map Some rs
         /\ List.length rs = 3%nat
         /\ Forall2 sized three_dashes rs).
Proof.
  split.
  - evaluated_as Hrun.
    match type of Hrun with
    | _ = Some (?a, ?r) => exists a, r
    end.
    destruct (C8_rectangle_sizes sample_libm no_packer three_dashes 3 2 1 0
                _ _ three_dashes Hrun eq_refl (or_introl eq_refl))
      as (rs & Hrecs & _ & Hsized & _ & _ & _ & Hall).
    assert (List.length rs = 3%nat) as Hlen.
    { apply Hall; [reflexivity |]. cbv. repeat split; discriminate. }
    exists rs. rewrite Hlen in Hrecs, Hsized.
    split; [exact Hrun |]. split; [reflexivity |].
    split; [| split; [exact Hlen | exact Hsized]].
    rewrite Hrecs. cbn [three_dashes map List.length Nat.sub repeat].
    apply app_nil_r.
  - evaluated_as Hrun.
    match type of Hrun with
    | _ = Some (?a, ?r) => exists a, r
    end.
    destruct (C8_rectangle_sizes sample_libm stack_packer three_dashes 3 2 1
                1 _ _ three_dashes Hrun eq_refl (or_intror eq_refl))
      as (rs & Hrecs & _ & Hsized & _ & Hall & _).
    specialize (Hall eq_refl). change (List.length three_dashes) with 3%nat in *.
    exists rs. rewrite Hall in Hrecs, Hsized.
    split; [exact Hrun |].
    split; [| split; [exact Hall | exact Hsized]].
    rewrite Hrecs. cbn [Nat.sub repeat]. apply app_nil_r.
Defined.

(** Eight dashes of 30 by 2 pixels at font size 32 and padding 2 ask for an
    atlas of side 64; the first fills a row, there is no room for a second
    one, and the seven glyphs that follow get no rectangle. *)
Lemma C8_counterexample :
  exists atlas recs,
    GenImageFontAtlas sample_libm no_packer eight_dashes 8 32 2 0
    = Some (atlas, recs)
    /\ Image.width atlas = 64
    /\ nth_error eight_dashes 1 = Some (dash 95)
    /\ nth_error recs 1 = Some None
    /\ ~ (exists r, nth_error recs 1 = Some (Some r) /\ sized (dash 95) r).
Proof.
  evaluated_as Hrun.
  match type of Hrun with
  | _ = Some (?a, ?r) => exists a, r
  end.
  split; [exact Hrun |]. split; [reflexivity |]. split; [reflexivity |].
  split; [reflexivity |]. intros (r & H & _). discriminate H.
Qed.

(** *** The side of the atlas *)









(** What row packing leaves in the rectangle array of an atlas that is
    returned. *)
Lemma GenImageFontAtlas_row_packed
      (libm : Libm)
      (stbrp_pack_rects : Z -> Z -> list (Z * Z) -> nat -> Z * Z * bool)
      (chars : list CharInfo) (count fontSize padding : Z)
      (atlas : Image.t) (recs : Recs) :
  GenImageFontAtlas libm stbrp_pack_rects chars count fontSize padding 0
  = Some (atlas, recs) ->
  exists glyphs rs,
    first_glyphs chars (count_or_default count) = Some glyphs
    /\ Image.width atlas = Image.height atlas
    /\ recs = map Some rs ++ repeat None (List.length glyphs - List.length rs)
    /\ (List.length rs <= List.length glyphs)%nat
    /\ (glyphs <> [] -> rs <> [])
    /\ Forall2 sized (firstn (List.length rs) glyphs) rs.
Proof.
  intros Hrun.
  destruct (GenImageFontAtlas_returned _ _ _ _ _ _ _ _ _ Hrun)
    as (glyphs & side & pixels & Hg & _ & Hpack & _ & ->).
  cbn [Z.eqb] in Hpack. apply pack_rows_written in Hpack.
  destruct Hpack as (_ & rs & -> & Hle & Hne & Hsz).
  exists glyphs, rs. repeat split; assumption.
Qed.

(** ** Loading with a rejected font buffer *)

(** When the file opens and the rasterizer rejects its bytes, the warning is
    logged and the glyph loop runs all the same: the array returned holds
    one record per requested codepoint. *)
Lemma LoadFontData_init_failure (rasterizer : Rasterizer)
      (fileName : string) (fontBuffer : list Z)
      (fontInfo : stbtt_fontinfo rasterizer)
      (fontSize charsCount type : Z) :
  read_file rasterizer fileName = Some fontBuffer ->
  stbtt_InitFont rasterizer fontBuffer = (fontInfo, 0) ->
  exists chars,
    LoadFontData rasterizer fileName fontSize None charsCount type
    = Some (Some chars, [(LOG_WARNING, "Failed to init font!"%string)])
    /\ List.length chars
       = Z.to_nat (if 0 <? charsCount then charsCount else 95).
Proof.
  intros Hfile Hinit. unfold LoadFontData. rewrite Hfile, Hinit.
  destruct (stbtt_GetFontVMetrics rasterizer fontInfo) as [[ascent descent] gap].
  cbn [Z.eqb bind]. eexists. split; [reflexivity |].
  now rewrite length_map, length_map, length_seq.
Qed.

(** C5 (evaluation of the code at the failing input).  With a rasterizer
    that rejects the bytes of the font file, LoadFontData logs the warning
    "Failed to init font!" and still returns a glyph array of 95 records
    instead of no records. *)
Theorem C5_init_failure_returns_records :
  exists chars,
    LoadFontData rejecting "broken.ttf" 32 None 0 FONT_DEFAULT
    = Some (Some chars, [(LOG_WARNING, "Failed to init font!"%string)])
    /\ List.length chars = 95%nat
    /\ ~ no_records
         (LoadFontData rejecting "broken.ttf" 32 None 0 FONT_DEFAULT).
Proof.
  destruct (LoadFontData_init_failure rejecting "broken.ttf" [0; 1; 2] tt
              32 0 FONT_DEFAULT eq_refl eq_refl) as (chars & Hload & Hlen).
  exists chars. split; [exact Hload |]. split; [exact Hlen |].
  intros (log & Hnone). rewrite Hload in Hnone. discriminate Hnone.
Qed.

(** ** More on the decoder *)

Lemma clamp_range (x : Z) : 0 <= x -> 0 <= clamp x <= 0x10ffff.
Proof. intros Hx. unfold clamp. destruct (0x10ffff <? x) eqn:E; bool_hyps; lia. Qed.

(** Case analysis along the decoder that leaves its arithmetic folded. *)
Ltac stroll :=
  repeat (cbv beta iota zeta delta [bindT ret app];
          match goal with
          | |- context [if ?b then _ else _] => destruct b eqn:?
          | |- context [match nth_error ?l ?k with _ => _ end] =>
              destruct (nth_error l k) eqn:?
          end);
  cbv beta iota zeta delta [bindT ret app].

Lemma GetNextCodepoint_bounds (text : list byte) :
  match GetNextCodepoint text with
  | Some ((code, n), reads) =>
      0 <= code <= 0x10ffff
      /\ 1 <= n <= Z.of_nat (List.length reads)
      /\ (List.length reads <= 4)%nat
      /\ reads = seq 0 (List.length reads)
  | None => True
  end.
Proof.
  unfold GetNextCodepoint, text_at. stroll.
  all: try exact I.
  all: (split;
        [| cbn [List.length seq]; split; [lia | split; [lia | reflexivity]]]).
  all: try (change (clamp 63) with 63); try lia.
  all: apply clamp_range.
  all: repeat match goal with
       | |- 0 <= uchar ?b => pose proof (uchar_range b); lia
       | |- 0 <= Z.lor _ _ => apply (proj2 (Z.lor_nonneg _ _)); split
       | |- 0 <= Z.shiftl _ _ => apply (proj2 (Z.shiftl_nonneg _ _))
       | |- 0 <= Z.land _ _ => apply (proj2 (Z.land_nonneg _ _)); right; lia
       end.
Qed.

(** X1. Whatever the bytes, a result of GetNextCodepoint is a codepoint of
    U+0000..U+10FFFF with a count of 1 to 4; the offsets read are the first
    ones of the buffer, in order and at most four, and no byte is counted as
    consumed that was not read. *)
Theorem decoder_result_bounds (text : list byte) (code n : Z)
        (reads : list nat) :
  GetNextCodepoint text = Some ((code, n), reads) ->
  0 <= code <= 0x10ffff
  /\ 1 <= n <= Z.of_nat (List.length reads)
  /\ (List.length reads <= 4)%nat
  /\ reads = seq 0 (List.length reads).
Proof.
  intros H. pose proof (GetNextCodepoint_bounds text) as Hb.
  now rewrite H in Hb.
Qed.

Lemma decoder_result_bounds_witness :
  0 <= 0x3f <= 0x10ffff
  /\ 1 <= 2 <= Z.of_nat (List.length [0; 1; 2]%nat)
  /\ (List.length [0; 1; 2]%nat <= 4)%nat
  /\ [0; 1; 2]%nat = seq 0 (List.length [0; 1; 2]%nat).
Proof.
  apply (decoder_result_bounds [xe0; x9f; x80; x00] 0x3f 2 [0; 1; 2]%nat).
  reflexivity.
Defined.

(** *** Only standard encodings are accepted *)

Lemma byte_of_uchar (b : byte) : byte_of_Z (uchar b) = b.
Proof. destruct b; reflexivity. Qed.

(** A byte that passes the continuation test is [10xxxxxx]. *)
Lemma tail_shape (b : byte) :
  unexpected (uchar b) = false ->
  0 <= Z.land (uchar b) 0x3f < 64
  /\ uchar b = 128 + Z.land (uchar b) 0x3f.
Proof.
  intros H. rewrite unexpected_tail in H. apply negb_false_iff in H.
  unfold is_tail in H. bool_hyps.
  pose proof (land_range (uchar b) 6 ltac:(lia)) as Hm.
  change (Z.ones 6) with 0x3f in Hm. change (2 ^ 6) with 64 in Hm.
  split; [exact Hm |].
  revert H H0 Hm. change 0x3f with (Z.ones 6). rewrite Z.land_ones by lia.
  change (2 ^ 6) with 64. intros. Z.div_mod_to_equations. lia.
Qed.

(** The payload of a leading byte, given the range of the byte: the low bits
    below [2 ^ n] of a byte of [tag .. tag + 2 ^ n - 1], for a tag that is a
    multiple of [2 ^ n]. *)
Lemma lead_shape (b : byte) (tag n : Z) :
  0 <= n -> tag mod 2 ^ n = 0 ->
  tag <= uchar b < tag + 2 ^ n ->
  uchar b = tag + Z.land (uchar b) (Z.ones n).
Proof.
  intros Hn Htag Hb. rewrite Z.land_ones by assumption.
  assert (0 < 2 ^ n) as Hp by (apply Z.pow_pos_nonneg; lia).
  pose proof (Z.div_mod tag (2 ^ n) ltac:(lia)) as Hdiv.
  rewrite Htag, Z.add_0_r in Hdiv.
  replace (uchar b) with ((uchar b - tag) + (tag / 2 ^ n) * 2 ^ n) at 2 by lia.
  rewrite Z_mod_plus_full, Z.mod_small by lia. lia.
Qed.

(** Or-ing shifted groups is adding them. *)
Lemma group_add (h m n : Z) :
  0 <= n -> 0 <= m < 2 ^ n -> Z.lor (Z.shiftl h n) m = h * 2 ^ n + m.
Proof.
  intros Hn Hm. rewrite <- Z.shiftl_mul_pow2 by assumption.
  apply (tagged_add _ _ n Hn Hm).
  rewrite Z.land_ones, Z.shiftl_mul_pow2 by assumption.
  apply Z_mod_mult.
Qed.

Lemma lor_0x80 (m : Z) :
  0 <= m < 64 -> byte_of_Z (Z.lor 0x80 m) = byte_of_Z (128 + m).
Proof. intros Hm. now rewrite continuation_value. Qed.

Lemma tail_byte (b : byte) :
  unexpected (uchar b) = false ->
  byte_of_Z (Z.lor 0x80 (Z.land (uchar b) 0x3f)) = b.
Proof.
  intros H. destruct (tail_shape b H) as [Hm Hb].
  rewrite lor_0x80 by assumption. rewrite <- Hb. apply byte_of_uchar.
Qed.

Lemma lead_byte (b : byte) (tag n : Z) :
  0 <= n -> tag mod 2 ^ n = 0 -> Z.land tag (Z.ones n) = 0 ->
  tag <= uchar b < tag + 2 ^ n ->
  byte_of_Z (Z.lor tag (Z.land (uchar b) (Z.ones n))) = b.
Proof.
  intros Hn Htag Hland Hb.
  rewrite (tagged_add tag _ n Hn (land_range _ n Hn) Hland).
  rewrite <- (lead_shape b tag n Hn Htag Hb). apply byte_of_uchar.
Qed.

Ltac arith_fields :=
  rewrite ?Z.shiftr_div_pow2 by lia;
  change 0x3f with (Z.ones 6);
  rewrite ?Z.land_ones by lia;
  change (2 ^ 6) with 64; change (2 ^ 12) with 4096;
  change (2 ^ 18) with 262144.

Lemma standard_two (b0 b1 : byte) :
  0xc2 <= uchar b0 <= 0xdf -> unexpected (uchar b1) = false ->
  let c := Z.lor (Z.shiftl (Z.land (uchar b0) 0x1f) 6)
                 (Z.land (uchar b1) 0x3f) in
  clamp c = c /\ is_scalar c /\ encoding_class c = 2
  /\ utf8_bytes c = [b0; b1].
Proof.
  intros H0 H1 c.
  pose proof (lead_shape b0 0xc0 5 ltac:(lia) eq_refl ltac:(cbn; lia)) as Hh.
  pose proof (lead_byte b0 0xc0 5 ltac:(lia) eq_refl eq_refl ltac:(cbn; lia))
    as Hb0.
  pose proof (land_range (uchar b0) 5 ltac:(lia)) as Hhr.
  change (Z.ones 5) with 0x1f in *. change (2 ^ 5) with 32 in Hhr.
  destruct (tail_shape b1 H1) as [Hm _]. pose proof (tail_byte b1 H1) as Hb1.
  assert (c = Z.land (uchar b0) 0x1f * 64 + Z.land (uchar b1) 0x3f) as Hc
    by (apply (group_add _ _ 6); [lia | exact Hm]).
  revert Hc Hb0 Hb1 Hh Hhr Hm.
  generalize (Z.land (uchar b0) 0x1f) (Z.land (uchar b1) 0x3f). clearbody c.
  intros h m Hc Hb0 Hb1 Hh Hhr Hm.
  assert (0x80 <= c <= 0x7ff) as Hr by lia.
  split; [apply clamp_scalar; lia |].
  split; [unfold is_scalar; lia |].
  unfold encoding_class, utf8_bytes, utf8_encode.
  rewrite (proj2 (Z.leb_gt c 0x7f)) by lia.
  rewrite (proj2 (Z.leb_le c 0x7ff)) by lia.
  split; [reflexivity |]. cbn [map].
  replace (Z.shiftr c 6) with h by (arith_fields; Z.div_mod_to_equations; lia).
  replace (Z.land c 0x3f) with m by (arith_fields; Z.div_mod_to_equations; lia).
  now rewrite Hb0, Hb1.
Qed.

Lemma groups3 (h m1 m2 : Z) :
  0 <= m1 < 64 -> 0 <= m2 < 64 ->
  Z.lor (Z.lor (Z.shiftl h 12) (Z.shiftl m1 6)) m2
  = h * 4096 + m1 * 64 + m2.
Proof.
  intros H1 H2.
  rewrite (group_add h (Z.shiftl m1 6) 12)
    by (rewrite ?Z.shiftl_mul_pow2 by lia;
        change (2 ^ 6) with 64; change (2 ^ 12) with 4096; lia).
  rewrite (Z.shiftl_mul_pow2 m1 6) by lia.
  change (2 ^ 6) with 64; change (2 ^ 12) with 4096.
  replace (h * 4096 + m1 * 64) with (Z.shiftl (h * 64 + m1) 6)
    by (rewrite Z.shiftl_mul_pow2 by lia; change (2 ^ 6) with 64; lia).
  rewrite (group_add _ m2 6) by (change (2 ^ 6) with 64; lia).
  rewrite Z.shiftl_mul_pow2 by lia. reflexivity.
Qed.

Lemma groups4 (h m1 m2 m3 : Z) :
  0 <= m1 < 64 -> 0 <= m2 < 64 -> 0 <= m3 < 64 ->
  Z.lor (Z.lor (Z.lor (Z.shiftl h 18) (Z.shiftl m1 12)) (Z.shiftl m2 6)) m3
  = h * 262144 + m1 * 4096 + m2 * 64 + m3.
Proof.
  intros H1 H2 H3.
  rewrite (group_add h (Z.shiftl m1 12) 18)
    by (rewrite ?Z.shiftl_mul_pow2 by lia;
        change (2 ^ 12) with 4096; change (2 ^ 18) with 262144; lia).
  rewrite (Z.shiftl_mul_pow2 m1 12) by lia.
  change (2 ^ 12) with 4096; change (2 ^ 18) with 262144.
  replace (h * 262144 + m1 * 4096) with (Z.shiftl (h * 64 + m1) 12)
    by (rewrite Z.shiftl_mul_pow2 by lia; change (2 ^ 12) with 4096; lia).
  rewrite groups3 by assumption.
  rewrite Z.shiftl_mul_pow2 by lia. change (2 ^ 12) with 4096. lia.
Qed.

Lemma standard_three (b0 b1 b2 : byte) :
  0xe0 <= uchar b0 <= 0xef ->
  unexpected (uchar b1) = false -> unexpected (uchar b2) = false ->
  ((uchar b0 =? 0xe0) && negb ((0xa0 <=? uchar b1) && (uchar b1 <=? 0xbf)))
  || ((uchar b0 =? 0xed) && negb ((0x80 <=? uchar b1) && (uchar b1 <=? 0x9f)))
  = false ->
  let c := Z.lor (Z.lor (Z.shiftl (Z.land (uchar b0) 0xf) 12)
                        (Z.shiftl (Z.land (uchar b1) 0x3f) 6))
                 (Z.land (uchar b2) 0x3f) in
  clamp c = c /\ is_scalar c /\ encoding_class c = 3
  /\ utf8_bytes c = [b0; b1; b2].
Proof.
  intros H0 H1 H2 Hrange c.
  pose proof (lead_shape b0 0xe0 4 ltac:(lia) eq_refl ltac:(cbn; lia)) as Hh.
  pose proof (lead_byte b0 0xe0 4 ltac:(lia) eq_refl eq_refl ltac:(cbn; lia))
    as Hb0.
  pose proof (land_range (uchar b0) 4 ltac:(lia)) as Hhr.
  change (Z.ones 4) with 0xf in *. change (2 ^ 4) with 16 in Hhr.
  destruct (tail_shape b1 H1) as [Hm1 Ho1].
  destruct (tail_shape b2 H2) as [Hm2 _].
  pose proof (tail_byte b1 H1) as Hb1. pose proof (tail_byte b2 H2) as Hb2.
  assert (c = Z.land (uchar b0) 0xf * 4096 + Z.land (uchar b1) 0x3f * 64
              + Z.land (uchar b2) 0x3f) as Hc
    by (apply groups3; assumption).
  apply orb_false_iff in Hrange. destruct Hrange as [Hlow Hsur].
  assert (uchar b0 = 0xe0 -> 0xa0 <= uchar b1) as Hlow'.
  { intros E. apply Z.eqb_eq in E. rewrite E in Hlow. cbn [andb] in Hlow.
    apply negb_false_iff in Hlow. clear Hsur. bool_hyps. lia. }
  clear Hlow.
  assert (uchar b0 = 0xed -> uchar b1 <= 0x9f) as Hsur'.
  { intros E. apply Z.eqb_eq in E. rewrite E in Hsur. cbn [andb] in Hsur.
    apply negb_false_iff in Hsur. bool_hyps. lia. }
  clear Hsur.
  revert Hc Hb0 Hb1 Hb2 Hh Hhr Hm1 Ho1 Hm2.
  generalize (Z.land (uchar b0) 0xf) (Z.land (uchar b1) 0x3f)
             (Z.land (uchar b2) 0x3f).
  clearbody c. intros h m1 m2 Hc Hb0 Hb1 Hb2 Hh Hhr Hm1 Ho1 Hm2.
  assert (0x800 <= c <= 0xffff /\ ~ (0xd800 <= c <= 0xdfff)) as [Hr Hs]
    by lia.
  split; [apply clamp_scalar; lia |].
  split; [unfold is_scalar; lia |].
  unfold encoding_class, utf8_bytes, utf8_encode.
  rewrite (proj2 (Z.leb_gt c 0x7f)) by lia.
  rewrite (proj2 (Z.leb_gt c 0x7ff)) by lia.
  rewrite (proj2 (Z.leb_le c 0xffff)) by lia.
  split; [reflexivity |]. cbn [map].
  replace (Z.shiftr c 12) with h
    by (arith_fields; Z.div_mod_to_equations; lia).
  replace (Z.land (Z.shiftr c 6) 0x3f) with m1
    by (arith_fields; Z.div_mod_to_equations; lia).
  replace (Z.land c 0x3f) with m2
    by (arith_fields; Z.div_mod_to_equations; lia).
  now rewrite Hb0, Hb1, Hb2.
Qed.

Lemma standard_four (b0 b1 b2 b3 : byte) :
  0xf0 <= uchar b0 <= 0xf4 ->
  unexpected (uchar b1) = false -> unexpected (uchar b2) = false ->
  unexpected (uchar b3) = false ->
  ((uchar b0 =? 0xf0) && negb ((0x90 <=? uchar b1) && (uchar b1 <=? 0xbf)))
  || ((uchar b0 =? 0xf4) && negb ((0x80 <=? uchar b1) && (uchar b1 <=? 0x8f)))
  = false ->
  let c := Z.lor (Z.lor (Z.lor (Z.shiftl (Z.land (uchar b0) 0x7) 18)
                               (Z.shiftl (Z.land (uchar b1) 0x3f) 12))
                        (Z.shiftl (Z.land (uchar b2) 0x3f) 6))
                 (Z.land (uchar b3) 0x3f) in
  clamp c = c /\ is_scalar c /\ encoding_class c = 4
  /\ utf8_bytes c = [b0; b1; b2; b3].
Proof.
  intros H0 H1 H2 H3 Hrange c.
  pose proof (lead_shape b0 0xf0 3 ltac:(lia) eq_refl ltac:(cbn; lia)) as Hh.
  pose proof (lead_byte b0 0xf0 3 ltac:(lia) eq_refl eq_refl ltac:(cbn; lia))
    as Hb0.
  pose proof (land_range (uchar b0) 3 ltac:(lia)) as Hhr.
  change (Z.ones 3) with 0x7 in *. change (2 ^ 3) with 8 in Hhr.
  destruct (tail_shape b1 H1) as [Hm1 Ho1].
  destruct (tail_shape b2 H2) as [Hm2 _].
  destruct (tail_shape b3 H3) as [Hm3 _].
  pose proof (tail_byte b1 H1) as Hb1. pose proof (tail_byte b2 H2) as Hb2.
  pose proof (tail_byte b3 H3) as Hb3.
  assert (c = Z.land (uchar b0) 0x7 * 262144 + Z.land (uchar b1) 0x3f * 4096
              + Z.land (uchar b2) 0x3f * 64 + Z.land (uchar b3) 0x3f) as Hc
    by (apply groups4; assumption).
  apply orb_false_iff in Hrange. destruct Hrange as [Hlow Hhigh].
  assert (uchar b0 = 0xf0 -> 0x90 <= uchar b1) as Hlow'.
  { intros E. apply Z.eqb_eq in E. rewrite E in Hlow. cbn [andb] in Hlow.
    apply negb_false_iff in Hlow. clear Hhigh. bool_hyps. lia. }
  clear Hlow.
  assert (uchar b0 = 0xf4 -> uchar b1 <= 0x8f) as Hhigh'.
  { intros E. apply Z.eqb_eq in E. rewrite E in Hhigh. cbn [andb] in Hhigh.
    apply negb_false_iff in Hhigh. bool_hyps. lia. }
  clear Hhigh.
  revert Hc Hb0 Hb1 Hb2 Hb3 Hh Hhr Hm1 Ho1 Hm2 Hm3.
  generalize (Z.land (uchar b0) 0x7) (Z.land (uchar b1) 0x3f)
             (Z.land (uchar b2) 0x3f) (Z.land (uchar b3) 0x3f).
  clearbody c. intros h m1 m2 m3 Hc Hb0 Hb1 Hb2 Hb3 Hh Hhr Hm1 Ho1 Hm2 Hm3.
  assert (0x10000 <= c <= 0x10ffff) as Hr by lia.
  split; [apply clamp_scalar; lia |].
  split; [unfold is_scalar; lia |].
  unfold encoding_class, utf8_bytes, utf8_encode.
  rewrite (proj2 (Z.leb_gt c 0x7f)) by lia.
  rewrite (proj2 (Z.leb_gt c 0x7ff)) by lia.
  rewrite (proj2 (Z.leb_gt c 0xffff)) by lia.
  split; [reflexivity |]. cbn [map].
  replace (Z.shiftr c 18) with h
    by (arith_fields; Z.div_mod_to_equations; lia).
  replace (Z.land (Z.shiftr c 12) 0x3f) with m1
    by (arith_fields; Z.div_mod_to_equations; lia).
  replace (Z.land (Z.shiftr c 6) 0x3f) with m2
    by (arith_fields; Z.div_mod_to_equations; lia).
  replace (Z.land c 0x3f) with m3
    by (arith_fields; Z.div_mod_to_equations; lia).
  now rewrite Hb0, Hb1, Hb2, Hb3.
Qed.

Lemma standard_one (b0 : byte) :
  uchar b0 <= 0x7f ->
  clamp (uchar b0) = uchar b0 /\ is_scalar (uchar b0)
  /\ encoding_class (uchar b0) = 1 /\ utf8_bytes (uchar b0) = [b0].
Proof.
  intros H. pose proof (uchar_range b0) as Hr.
  split; [apply clamp_scalar; lia |]. split; [unfold is_scalar; lia |].
  unfold encoding_class, utf8_bytes, utf8_encode.
  rewrite (proj2 (Z.leb_le _ 0x7f)) by lia.
  split; [reflexivity |]. cbn [map]. now rewrite byte_of_uchar.
Qed.

Lemma firstn_1 (text : list byte) (b0 : byte) :
  nth_error text 0 = Some b0 -> firstn 1 text = [b0].
Proof. destruct text; cbn; congruence. Qed.

Lemma firstn_2 (text : list byte) (b0 b1 : byte) :
  nth_error text 0 = Some b0 -> nth_error text 1 = Some b1 ->
  firstn 2 text = [b0; b1].
Proof. destruct text as [| ? [| ? ?]]; cbn; congruence. Qed.

Lemma firstn_3 (text : list byte) (b0 b1 b2 : byte) :
  nth_error text 0 = Some b0 -> nth_error text 1 = Some b1 ->
  nth_error text 2 = Some b2 -> firstn 3 text = [b0; b1; b2].
Proof. destruct text as [| ? [| ? [| ? ?]]]; cbn; congruence. Qed.

Lemma firstn_4 (text : list byte) (b0 b1 b2 b3 : byte) :
  nth_error text 0 = Some b0 -> nth_error text 1 = Some b1 ->
  nth_error text 2 = Some b2 -> nth_error text 3 = Some b3 ->
  firstn 4 text = [b0; b1; b2; b3].
Proof. destruct text as [| ? [| ? [| ? [| ? ?]]]]; cbn; congruence. Qed.

Lemma GetNextCodepoint_standard (text : list byte) :
  match GetNextCodepoint text with
  | Some ((code, n), _) =>
      code = 0x3f
      \/ (is_scalar code /\ n = encoding_class code
          /\ firstn (Z.to_nat n) text = utf8_bytes code)
  | None => True
  end.
Proof.
  unfold GetNextCodepoint, text_at. stroll.
  all: try exact I.
  all: try (left; reflexivity).
  all: right.
  all: rewrite ?class_two, ?class_three, ?class_four in *.
  - destruct (standard_one b) as (-> & Hs & -> & ->);
      [bool_hyps; lia |].
    repeat split; try apply Hs. now apply firstn_1.
  - destruct (standard_two b b0) as (-> & Hs & -> & ->);
      [bool_hyps; lia | assumption |].
    repeat split; try apply Hs. now apply firstn_2.
  - destruct (standard_three b b0 b1) as (-> & Hs & -> & ->);
      [| assumption ..|].
    { match goal with
      | H : (0xe0 <=? _) && (_ <=? 0xef) = true |- _ =>
          clear - H; bool_hyps; lia
      end. }
    repeat split; try apply Hs. now apply firstn_3.
  - destruct (standard_four b b0 b1 b2) as (-> & Hs & -> & ->);
      [| assumption ..|].
    { match goal with
      | H1 : (0xf4 <? _) = false, H2 : (0xf0 <=? _) = true |- _ =>
          clear - H1 H2; bool_hyps; lia
      end. }
    repeat split; try apply Hs. now apply firstn_4.
Qed.

(** X2. The decoder accepts standard UTF-8 only: a result other than the
    replacement value 0x3f is a Unicode scalar value (no surrogate, nothing
    above U+10FFFF), the count is the length of its encoding class (no
    overlong form), and the bytes consumed are exactly its RFC 3629
    encoding. *)
Theorem decoder_accepts_standard_only (text : list byte) (code n : Z) :
  decode text = Some (code, n) -> code <> 0x3f ->
  is_scalar code /\ n = encoding_class code
  /\ firstn (Z.to_nat n) text = utf8_bytes code.
Proof.
  unfold decode. intros H Hcode.
  pose proof (GetNextCodepoint_standard text) as Hs.
  destruct (GetNextCodepoint text) as [[[c k] reads] |]; [| discriminate].
  cbn in H. injection H as -> ->. destruct Hs as [-> | Hs]; [easy | exact Hs].
Qed.

Lemma decoder_accepts_standard_only_witness :
  is_scalar 0x20ac /\ 3 = encoding_class 0x20ac
  /\ firstn (Z.to_nat 3) [xe2; x82; xac; x41; x00] = utf8_bytes 0x20ac.
Proof.
  apply (decoder_accepts_standard_only [xe2; x82; xac; x41; x00] 0x20ac 3).
  - reflexivity.
  - discriminate.
Defined.

(** ** More on the walk over a string *)

(** *** The bytes stored after the null *)

Lemma strlen_app (s rest : list byte) :
  Forall (fun b => b <> x00) s ->
  strlen (s ++ x00 :: rest) = Some (Z.of_nat (List.length s)).
Proof.
  induction 1 as [| b s Hb _ IH]; [reflexivity |].
  cbn [app strlen List.length]. destruct (uchar b =? 0) eqn:E.
  - apply Z.eqb_eq, uchar_null in E. contradiction.
  - rewrite IH. cbn [bind]. f_equal. lia.
Qed.

Lemma text_from_app (s tail : list byte) (i : Z) :
  0 <= i <= Z.of_nat (List.length s) ->
  text_from (s ++ tail) i = skipn (Z.to_nat i) s ++ tail.
Proof.
  intros Hi. unfold text_from. rewrite skipn_app.
  replace (Z.to_nat i - List.length s)%nat with 0%nat by lia. reflexivity.
Qed.

Lemma decode_upto_null (s rest : list byte) (i : Z) :
  0 <= i <= Z.of_nat (List.length s) ->
  decode (text_from (s ++ x00 :: rest) i) = decode (text_from (s ++ [x00]) i).
Proof.
  intros Hi. rewrite !text_from_app by assumption. unfold decode.
  now rewrite GetNextCodepoint_upto_null.
Qed.

Lemma codepoints_from_upto_null (s rest : list byte) :
  forall (fuel : nat) (i : Z),
    0 <= i ->
    codepoints_from fuel (s ++ x00 :: rest) (Z.of_nat (List.length s)) i
    = codepoints_from fuel (s ++ [x00]) (Z.of_nat (List.length s)) i.
Proof.
  induction fuel as [| fuel IH]; intros i Hi; cbn [codepoints_from];
    [reflexivity |].
  destruct (Z.of_nat (List.length s) <=? i) eqn:E; [reflexivity |].
  apply Z.leb_gt in E. rewrite decode_upto_null by lia.
  destruct (decode (text_from (s ++ [x00]) i)) as [[c n] |] eqn:Hd;
    [| reflexivity].
  cbn [bind]. pose proof (decode_count _ _ _ Hd) as Hn.
  rewrite IH by (destruct (c =? 63); lia). reflexivity.
Qed.

Lemma codepoints_null_free (s rest : list byte) :
  Forall (fun b => b <> x00) s ->
  codepoints (s ++ x00 :: rest) = codepoints (s ++ [x00]).
Proof.
  intros Hs. unfold codepoints. rewrite !strlen_app by assumption.
  cbn [bind]. apply codepoints_from_upto_null. lia.
Qed.

(** A string up to its first null. *)
Lemma first_null (s : list byte) :
  Forall (fun b => b <> x00) s
  \/ exists p q, s = p ++ x00 :: q /\ Forall (fun b => b <> x00) p.
Proof.
  induction s as [| b s IH]; [left; constructor |].
  destruct (Byte.byte_eq_dec b x00) as [-> | Hb].
  - right. exists [], s. split; [reflexivity | constructor].
  - destruct IH as [IH | (p & q & -> & Hp)].
    + left. now constructor.
    + right. exists (b :: p), q. split; [reflexivity | now constructor].
Qed.

Lemma codepoints_upto_null (s rest : list byte) :
  codepoints (s ++ x00 :: rest) = codepoints (s ++ [x00]).
Proof.
  destruct (first_null s) as [Hs | (p & q & -> & Hp)].
  - now apply codepoints_null_free.
  - rewrite <- !app_assoc. cbn [app].
    rewrite (codepoints_null_free p (q ++ x00 :: rest)) by assumption.
    now rewrite (codepoints_null_free p (q ++ [x00])) by assumption.
Qed.

(** X3. Whatever is stored after the terminating null has no part in the
    result: MeasureTextEx returns the same size, and DrawTextEx issues the
    same calls, as on the string cut right after its null. *)
Theorem text_after_null_ignored (font : Font) (s rest : list byte)
        (position : Vector2.t) (fontSize spacing : Q) (color : Color.t) :
  MeasureTextEx font (s ++ x00 :: rest) fontSize spacing
  = MeasureTextEx font (s ++ [x00]) fontSize spacing
  /\ DrawTextEx font (s ++ x00 :: rest) position fontSize spacing color
     = DrawTextEx font (s ++ [x00]) position fontSize spacing color.
Proof.
  unfold DrawTextEx.
  now rewrite !MeasureTextEx_fold, !DrawTextEx_run_fold, codepoints_upto_null.
Qed.

(** *** The codepoints of an encoded string *)

Lemma decode_standard (c : Z) (rest : list byte) :
  is_scalar c -> decode (utf8_bytes c ++ rest) = Some (c, encoding_class c).
Proof.
  intros [[Hlo Hhi] Hsur].
  unfold decode, utf8_bytes, utf8_encode, encoding_class.
  destruct (c <=? 0x7f) eqn:E1;
    [| destruct (c <=? 0x7ff) eqn:E2; [| destruct (c <=? 0xffff) eqn:E3]];
    bool_hyps; cbn [map app].
  - now rewrite decode_ascii by lia.
  - rewrite decode_two by (fields; Z.div_mod_to_equations; lia).
    now rewrite recompose2, clamp_scalar.
  - rewrite decode_three by (fields; Z.div_mod_to_equations; lia).
    now rewrite recompose3, clamp_scalar.
  - rewrite decode_four by (fields; Z.div_mod_to_equations; lia).
    now rewrite recompose4, clamp_scalar.
Qed.

Lemma utf8_bytes_length (c : Z) :
  Z.of_nat (List.length (utf8_bytes c)) = encoding_class c.
Proof.
  unfold utf8_bytes, utf8_encode, encoding_class.
  destruct (c <=? 0x7f), (c <=? 0x7ff), (c <=? 0xffff); reflexivity.
Qed.

(** No byte of the encoding of a scalar value other than zero is null. *)
Lemma utf8_bytes_null_free (c : Z) :
  is_scalar c -> c <> 0 -> Forall (fun b => b <> x00) (utf8_bytes c).
Proof.
  intros Hc Hnz. apply Forall_forall. intros b Hb Hnull. subst b.
  apply in_split in Hb. destruct Hb as (p & q & Hb).
  pose proof (decode_standard c [x00] Hc) as Hd.
  pose proof (utf8_bytes_length c) as Hlen. revert Hd.
  rewrite Hb, <- app_assoc. cbn [app]. unfold decode.
  rewrite GetNextCodepoint_upto_null.
  destruct p as [| b0 p'].
  { (* the encoding starts with a null: the value is zero *)
    cbn. intros Heq. injection Heq as Heq _. apply Hnz. now symmetry. }
  pose proof (GetNextCodepoint_stops_at_null (b0 :: p')) as Hstop.
  pose proof (GetNextCodepoint_bounds ((b0 :: p') ++ [x00])) as Hbound.
  destruct (GetNextCodepoint ((b0 :: p') ++ [x00])) as [[[code n] reads] |];
    [| discriminate].
  cbn [option_map fst]. intros Heq. injection Heq as -> ->.
  destruct Hstop as [Hreads Hnull]. destruct Hbound as (_ & Hn & _ & Hseq).
  rewrite Hb, length_app in Hlen. cbn [List.length] in Hlen, Hreads, Hnull.
  (* the count exceeds the offsets read, which end at the null *)
  assert (List.length reads <= S (S (List.length p')))%nat as Hle.
  { destruct reads as [| r reads']; [cbn; lia |].
    assert (In (List.length reads') (r :: reads')) as Hin.
    { rewrite Hseq. apply in_seq. cbn [List.length]. lia. }
    rewrite Forall_forall in Hreads. specialize (Hreads _ Hin).
    cbn [List.length]. lia. }
  assert (In (S (List.length p')) reads) as Hin.
  { rewrite Hseq. apply in_seq. lia. }
  destruct (Hnull Hin ltac:(discriminate)) as [Hcode Hcount].
  (* 0x3f is encoded on one byte *)
  subst c. cbn in Hlen. lia.
Qed.

Lemma text_from_skip (p tail : list byte) :
  text_from (p ++ tail) (Z.of_nat (List.length p)) = tail.
Proof.
  unfold text_from. rewrite Nat2Z.id, skipn_app, Nat.sub_diag, skipn_all.
  reflexivity.
Qed.

Lemma encoded_null_free (cps : list Z) :
  Forall (fun c => is_scalar c /\ c <> 0) cps ->
  Forall (fun b => b <> x00) (flat_map utf8_bytes cps).
Proof.
  induction 1 as [| c cps [Hc Hnz] _ IH]; [constructor |].
  cbn [flat_map]. apply Forall_app. split; [| exact IH].
  now apply utf8_bytes_null_free.
Qed.

Lemma codepoints_from_encoded (p : list byte) :
  forall (cps : list Z) (fuel : nat),
    Forall (fun c => is_scalar c /\ c <> 0) cps ->
    (List.length (flat_map utf8_bytes cps) <= fuel)%nat ->
    codepoints_from fuel (p ++ flat_map utf8_bytes cps ++ [x00])
      (Z.of_nat (List.length p + List.length (flat_map utf8_bytes cps)))
      (Z.of_nat (List.length p))
    = Some cps.
Proof.
  intros cps. revert p.
  induction cps as [| c cps IH]; intros p fuel Hcps Hfuel.
  - cbn [flat_map List.length]. rewrite Nat.add_0_r.
    destruct fuel; cbn [codepoints_from]; now rewrite Z.leb_refl.
  - inversion Hcps as [| ? ? [Hc Hnz] Hrest]; subst.
    cbn [flat_map] in *. rewrite length_app in *.
    pose proof (utf8_bytes_length c) as Hlen.
    assert (1 <= encoding_class c)
      by (unfold encoding_class;
          destruct (c <=? 0x7f), (c <=? 0x7ff), (c <=? 0xffff); lia).
    destruct fuel as [| fuel]; [lia |]. cbn [codepoints_from].
    rewrite (proj2 (Z.leb_gt _ _)) by lia.
    rewrite text_from_skip, <- app_assoc, decode_standard by assumption.
    cbn [bind].
    replace (Z.of_nat (List.length p)
             + (if c =? 63 then 1 else encoding_class c))
      with (Z.of_nat (List.length (p ++ utf8_bytes c))).
    2:{ rewrite length_app, Nat2Z.inj_add, Hlen.
        destruct (c =? 63) eqn:E; [| reflexivity].
        apply Z.eqb_eq in E. subst c. reflexivity. }
    replace (p ++ utf8_bytes c ++ flat_map utf8_bytes cps ++ [x00])
      with ((p ++ utf8_bytes c) ++ flat_map utf8_bytes cps ++ [x00])
      by now rewrite <- app_assoc.
    replace (List.length p
             + (List.length (utf8_bytes c)
                + List.length (flat_map utf8_bytes cps)))%nat
      with (List.length (p ++ utf8_bytes c)
            + List.length (flat_map utf8_bytes cps))%nat
      by (rewrite length_app; lia).
    rewrite IH by (assumption || lia). reflexivity.
Qed.

Lemma codepoints_encoded (cps : list Z) (rest : list byte) :
  Forall (fun c => is_scalar c /\ c <> 0) cps ->
  codepoints (flat_map utf8_bytes cps ++ x00 :: rest) = Some cps.
Proof.
  intros Hcps. rewrite codepoints_upto_null. unfold codepoints.
  rewrite strlen_app by now apply encoded_null_free.
  cbn [bind]. rewrite Nat2Z.id.
  apply (codepoints_from_encoded [] cps _ Hcps). lia.
Qed.

(** X4. Round trip on strings: on the UTF-8 encoding of a sequence of scalar
    values other than zero, followed by a null, both passes visit exactly
    these codepoints, in order: MeasureTextEx and DrawTextEx are the
    per-codepoint steps of their loops run over that sequence. *)
Theorem passes_visit_encoded_codepoints (font : Font) (cps : list Z)
        (rest : list byte) (position : Vector2.t) (fontSize spacing : Q)
        (color : Color.t) :
  Forall (fun c => is_scalar c /\ c <> 0) cps ->
  let text := flat_map utf8_bytes cps ++ x00 :: rest in
  codepoints text = Some cps
  /\ MeasureTextEx font text fontSize spacing
     = option_map (MeasureTextEx_result font fontSize spacing)
         (foldM (measure_step font) cps (MeasureTextEx_init font))
  /\ DrawTextEx_run font text position fontSize spacing color
     = foldM (draw_step font position
                (fontSize / float_of_int (baseSize font))%Q spacing color)
         cps DrawTextEx_init.
Proof.
  intros Hcps text. pose proof (codepoints_encoded cps rest Hcps) as H.
  split; [exact H |]. subst text.
  rewrite MeasureTextEx_fold, DrawTextEx_run_fold, H. cbn [bind].
  split; [| reflexivity].
  now destruct (foldM (measure_step font) cps (MeasureTextEx_init font)).
Qed.

Lemma passes_visit_encoded_codepoints_witness :
  let text := flat_map utf8_bytes [0x41; 0x20ac] ++ x00 :: [x42] in
  codepoints text = Some [0x41; 0x20ac]
  /\ MeasureTextEx ascii_font text 20 3
     = option_map (MeasureTextEx_result ascii_font 20 3)
         (foldM (measure_step ascii_font) [0x41; 0x20ac]
                (MeasureTextEx_init ascii_font))
  /\ DrawTextEx_run ascii_font text origin 20 3 white
     = foldM (draw_step ascii_font origin
                (20 / float_of_int (baseSize ascii_font))%Q 3 white)
         [0x41; 0x20ac] DrawTextEx_init.
Proof.
  apply (passes_visit_encoded_codepoints ascii_font [0x41; 0x20ac] [x42]
           origin 20 3 white).
  repeat (apply Forall_cons;
          [split; [unfold is_scalar; lia | discriminate] |]).
  apply Forall_nil.
Defined.

(** ** More on the glyph lookup *)

Lemma at_index_In {A : Type} (l : list A) (i : Z) (v : A) :
  at_index l i = Some v -> In v l.
Proof.
  unfold at_index. destruct (i <? 0); [discriminate |]. apply nth_error_In.
Qed.

Lemma In_at_index {A : Type} (l : list A) (v : A) :
  In v l -> exists i, at_index l i = Some v.
Proof.
  intros H. apply In_nth_error in H. destruct H as [k Hk].
  exists (Z.of_nat k). unfold at_index.
  rewrite (proj2 (Z.ltb_ge _ 0)) by lia. now rewrite Nat2Z.id.
Qed.

Lemma at_index_None {A : Type} (l : list A) (i : Z) :
  Z.of_nat (List.length l) <= i -> at_index l i = None.
Proof.
  intros Hi. unfold at_index. destruct (i <? 0); [reflexivity |].
  apply nth_error_None. lia.
Qed.

Lemma GetGlyphIndex_loop_sound (font : Font) (codepoint : Z) :
  forall (n : nat) (i index idx : Z),
    0 <= i <= Z.of_nat (List.length (chars font)) ->
    GetGlyphIndex_loop font codepoint n i index = Some idx ->
    (i <= idx < i + Z.of_nat n
     /\ option_map value (at_index (chars font) idx) = Some codepoint
     /\ forall j c, i <= j < idx -> at_index (chars font) j = Some c ->
                    value c <> codepoint)
    \/ (idx = index
        /\ i + Z.of_nat n <= Z.of_nat (List.length (chars font))
        /\ forall j c, i <= j < i + Z.of_nat n ->
                       at_index (chars font) j = Some c ->
                       value c <> codepoint).
Proof.
  induction n as [| n IH]; intros i index idx Hi H; cbn [GetGlyphIndex_loop] in H.
  - injection H as <-. right. split; [reflexivity |]. split; [lia |].
    intros j c Hj. lia.
  - destruct (at_index (chars font) i) as [ci |] eqn:Hci; [| discriminate].
    cbn [bind] in H. pose proof (at_index_range _ _ _ Hci) as Hr.
    destruct (value ci =? codepoint) eqn:E.
    + injection H as <-. apply Z.eqb_eq in E. left.
      split; [lia |]. split; [now rewrite Hci; cbn; f_equal |].
      intros j c Hj. lia.
    + apply Z.eqb_neq in E.
      destruct (IH (i + 1) index idx ltac:(lia) H)
        as [(Hidx & Hv & Hfirst) | (-> & Hlen & Hnone)].
      * left. split; [lia |]. split; [exact Hv |].
        intros j c Hj Hc. destruct (Z.eq_dec j i) as [-> | Hne].
        -- congruence.
        -- apply (Hfirst j c); [lia | exact Hc].
      * right. split; [reflexivity |]. split; [lia |].
        intros j c Hj Hc. destruct (Z.eq_dec j i) as [-> | Hne].
        -- congruence.
        -- apply (Hnone j c); [lia | exact Hc].
Qed.

(** X5. What a result of GetGlyphIndex is: the first index below charsCount
    whose glyph carries the codepoint; or, when none of the charsCount
    glyphs carries it, the constant 63, whatever the glyph at index 63 is
    and whether or not the font has that many glyphs. *)
Theorem GetGlyphIndex_first_or_fallback (font : Font) (codepoint idx : Z) :
  GetGlyphIndex font codepoint = Some idx ->
  (0 <= idx < charsCount font
   /\ option_map value (at_index (chars font) idx) = Some codepoint
   /\ forall j c, 0 <= j < idx -> at_index (chars font) j = Some c ->
                  value c <> codepoint)
  \/ (idx = 63
      /\ charsCount font <= Z.of_nat (List.length (chars font))
      /\ forall j c, 0 <= j < charsCount font ->
                     at_index (chars font) j = Some c ->
                     value c <> codepoint).
Proof.
  unfold GetGlyphIndex. intros H.
  destruct (GetGlyphIndex_loop_sound font codepoint _ 0 _ idx ltac:(lia) H)
    as [(Hidx & Hv & Hfirst) | (-> & Hlen & Hnone)].
  - left. split; [lia |]. split; [exact Hv | exact Hfirst].
  - right. split; [reflexivity |]. split; [lia |].
    intros j c Hj. apply Hnone. lia.
Qed.

Lemma GetGlyphIndex_first_or_fallback_witness :
  (0 <= 33 < charsCount ascii_font
   /\ option_map value (at_index (chars ascii_font) 33) = Some 0x41
   /\ forall j c, 0 <= j < 33 -> at_index (chars ascii_font) j = Some c ->
                  value c <> 0x41)
  \/ (33 = 63
      /\ charsCount ascii_font
         <= Z.of_nat (List.length (chars ascii_font))
      /\ forall j c, 0 <= j < charsCount ascii_font ->
                     at_index (chars ascii_font) j = Some c ->
                     value c <> 0x41).
Proof.
  apply (GetGlyphIndex_first_or_fallback ascii_font 0x41 33). reflexivity.
Defined.

Lemma GetGlyphIndex_loop_fails (font : Font) (codepoint : Z) :
  forall (n : nat) (i index : Z),
    0 <= i <= Z.of_nat (List.length (chars font)) ->
    GetGlyphIndex_loop font codepoint n i index = None
    <-> (Z.of_nat (List.length (chars font)) < i + Z.of_nat n
         /\ forall j c, i <= j -> at_index (chars font) j = Some c ->
                        value c <> codepoint).
Proof.
  induction n as [| n IH]; intros i index Hi; cbn [GetGlyphIndex_loop].
  - split; [discriminate | lia].
  - destruct (at_index (chars font) i) as [ci |] eqn:Hci; cbn [bind].
    + pose proof (at_index_range _ _ _ Hci) as Hr.
      destruct (value ci =? codepoint) eqn:E.
      * apply Z.eqb_eq in E. split; [discriminate |].
        intros [_ Hnone]. exfalso. apply (Hnone i ci); [lia | | ]; assumption.
      * apply Z.eqb_neq in E. rewrite (IH (i + 1) index) by lia.
        split; intros [Hlen Hnone]; (split; [lia |]); intros j c Hj Hc.
        -- destruct (Z.eq_dec j i) as [-> | Hne]; [congruence |].
           apply (Hnone j c); [lia | exact Hc].
        -- apply (Hnone j c); [lia | exact Hc].
    + split; [intros _ | reflexivity].
      assert (Z.of_nat (List.length (chars font)) <= i) as Hout.
      { destruct (Z_lt_le_dec i (Z.of_nat (List.length (chars font))))
          as [Hlt | Hle]; [| exact Hle].
        destruct (at_index_Some (chars font) i ltac:(lia)) as [v Hv].
        congruence. }
      split; [lia |]. intros j c Hj Hc.
      rewrite at_index_None in Hc by lia. discriminate.
Qed.

(** X6. GetGlyphIndex reads outside the glyph array exactly when charsCount
    exceeds the number of glyphs and no glyph carries the codepoint: its
    loop bound is the charsCount field, and only a match stops it earlier. *)
Theorem GetGlyphIndex_out_of_bounds (font : Font) (codepoint : Z) :
  GetGlyphIndex font codepoint = None
  <-> (Z.of_nat (List.length (chars font)) < charsCount font
       /\ forall c, In c (chars font) -> value c <> codepoint).
Proof.
  unfold GetGlyphIndex. rewrite GetGlyphIndex_loop_fails by lia.
  split; intros [Hlen Hnone].
  - split; [lia |]. intros c Hc. destruct (In_at_index _ _ Hc) as [j Hj].
    apply (Hnone j c); [| exact Hj]. apply at_index_range in Hj. lia.
  - split; [lia |]. intros j c _ Hc. apply Hnone. exact (at_index_In _ _ _ Hc).
Qed.

(** ** More on the two passes *)

(** *** A codepoint the font lacks, on a font of fewer than 64 glyphs *)

Lemma foldM_fails {State : Type} (step : Z -> State -> option State)
      (c : Z) :
  (forall st, step c st = None) ->
  forall cps st, In c cps -> foldM step cps st = None.
Proof.
  intros Hc. induction cps as [| c' cps IH]; intros st Hin; [destruct Hin |].
  cbn [foldM]. destruct Hin as [-> | Hin].
  - now rewrite Hc.
  - destruct (step c' st); [| reflexivity]. cbn [bind]. now apply IH.
Qed.

Section Short.
Variable font : Font.
Variable c : Z.
Hypothesis Hcount : charsCount font <= Z.of_nat (List.length (chars font)).
Hypothesis Hshort : Z.of_nat (List.length (chars font)) <= 63.
Hypothesis Habsent : forall g, In g (chars font) -> value g <> c.
Hypothesis Hline : c <> 10.

Lemma fallback_index : GetGlyphIndex font c = Some 63.
Proof.
  apply GetGlyphIndex_absent; [exact Hcount |].
  intros j g Hg. apply Habsent. exact (at_index_In _ _ _ Hg).
Qed.

Lemma no_glyph_63 : at_index (chars font) 63 = None.
Proof. apply at_index_None. exact Hshort. Qed.

Lemma measure_step_fails (st : MeasureState) :
  measure_step font c st = None.
Proof.
  unfold measure_step. rewrite fallback_index. cbn [bind].
  rewrite (proj2 (Z.eqb_neq _ _) Hline). cbn [negb].
  unfold measure_advance. now rewrite no_glyph_63.
Qed.

Lemma draw_step_fails (position : Vector2.t) (scaleFactor spacing : Q)
      (color : Color.t) (st : DrawState) :
  draw_step font position scaleFactor spacing color c st = None.
Proof.
  unfold draw_step. rewrite fallback_index. cbn [bind].
  rewrite (proj2 (Z.eqb_neq _ _) Hline).
  unfold draw_call, draw_advance. rewrite no_glyph_63. cbn [bind].
  now destruct (negb (c =? 32) && negb (c =? 9)).
Qed.
End Short.

(** X7. On a font of fewer than 64 glyphs, a text holding a codepoint (other
    than a newline) that no glyph of the font carries makes both passes read
    the glyph array out of bounds: the lookup answers 63, and chars[63] is
    read. *)
Theorem short_font_reads_out_of_bounds (font : Font) (cps : list Z) (c : Z)
        (rest : list byte) (position : Vector2.t) (fontSize spacing : Q)
        (color : Color.t) :
  charsCount font <= Z.of_nat (List.length (chars font)) ->
  Z.of_nat (List.length (chars font)) <= 63 ->
  Forall (fun c => is_scalar c /\ c <> 0) cps ->
  In c cps -> c <> 10 ->
  (forall g, In g (chars font) -> value g <> c) ->
  let text := flat_map utf8_bytes cps ++ x00 :: rest in
  MeasureTextEx font text fontSize spacing = None
  /\ DrawTextEx font text position fontSize spacing color = None.
Proof.
  intros Hcount Hshort Hcps Hin Hline Habsent text. subst text.
  unfold DrawTextEx.
  rewrite MeasureTextEx_fold, DrawTextEx_run_fold, codepoints_encoded
    by assumption.
  cbn [bind].
  rewrite (foldM_fails (measure_step font) c)
    by (try assumption; now apply measure_step_fails).
  rewrite (foldM_fails (draw_step font _ _ _ _) c)
    by (try assumption; intros; now apply draw_step_fails).
  split; reflexivity.
Qed.

Lemma short_font_reads_out_of_bounds_witness :
  let text := flat_map utf8_bytes [0x41; 0x20ac] ++ x00 :: [] in
  MeasureTextEx tiny_font text 10 1 = None
  /\ DrawTextEx tiny_font text origin 10 1 white = None.
Proof.
  apply (short_font_reads_out_of_bounds tiny_font [0x41; 0x20ac] 0x20ac []
           origin 10 1 white).
  - cbn. lia.
  - cbn. lia.
  - repeat (apply Forall_cons;
            [split; [unfold is_scalar; lia | discriminate] |]).
    apply Forall_nil.
  - cbn. right. left. reflexivity.
  - discriminate.
  - cbn. intros g [<- | [<- | [<- | []]]]; discriminate.
Defined.

(** *** The calls DrawTextEx issues *)



Section Calls.
Variable font : Font.
Variable position : Vector2.t.
Variables scaleFactor spacing : Q.
Variable color : Color.t.


End Calls.



(** ** The width MeasureTextEx reports *)




Lemma line_width_from_shift (font : Font) :
  forall (l : list Z) (t r : Q),
    line_width_from font l t = Some r ->
    exists r0, line_width font l = Some r0 /\ (r == t + r0)%Q.
Proof.
  unfold line_width.
  assert (forall (l : list Z) (t t' r : Q),
             line_width_from font l t = Some r ->
             exists r', line_width_from font l t' = Some r'
                        /\ (r - t == r' - t')%Q) as Hshift.
  { unfold line_width_from.
    induction l as [| c l IH]; intros t t' r H; cbn [foldM] in *.
    - injection H as <-. exists t'. split; [reflexivity | ring].
    - destruct (GetGlyphIndex font c) as [idx |]; [| discriminate].
      cbn [bind] in *.
      destruct (measure_advance font idx) as [a |]; [| discriminate].
      cbn [bind] in *.
      destruct (IH (t + a)%Q (t' + a)%Q r H) as (r' & Hr' & Heq).
      exists r'. split; [exact Hr' |].
      setoid_replace (r - t)%Q with (r - (t + a) + a)%Q by ring.
      rewrite Heq. ring. }
  intros l t r H. destruct (Hshift l t 0%Q r H) as (r0 & Hr0 & Heq).
  exists r0. split; [exact Hr0 |].
  setoid_replace r with (r - t + t)%Q by ring. rewrite Heq. ring.
Qed.


Lemma lines_nonempty (cps : list Z) : exists l ls, lines cps = l :: ls.
Proof.
  induction cps as [| c cps (l & ls & IH)]; cbn [lines].
  - now exists [], [].
  - destruct (c =? 10); [now exists [], (lines cps) |].
    rewrite IH. now exists (c :: l), ls.
Qed.




(** ** The layout of row packing *)

Lemma wrap_small (n : Z) : - 2 ^ 31 <= n < 2 ^ 31 -> wrap n = n.
Proof.
  intros Hn. unfold wrap. change (2 ^ 31) with 2147483648 in *.
  change (2 ^ 32) with 4294967296. rewrite Z.mod_small by lia. lia.
Qed.

(** No operation of the loop of row packing leaves the range of [int] on
    sizes of this order. *)
Ltac unwrap H :=
  repeat match type of H with
         | context [wrap ?n] =>
             rewrite (wrap_small n) in H
               by (change (2 ^ 31) with 2147483648; lia)
         end.

Section Rows.
Variables atlasSize fontSize padding : Z.
Hypothesis Hside : 0 <= atlasSize < 2 ^ 24.
Hypothesis Hfont : 0 <= fontSize <= 32767.
Hypothesis Hpad : 0 <= padding <= 32767.

(** Where the loop, entered with the pen at [(x, y)], puts the glyph of
    an entry it writes: on the row of the pen, at the pen or right of
    it, or on a row below. *)
Lemma pack_rows_from :
  forall (glyphs : list CharInfo) (x y : Z) (atlas : list Z)
         (recs : Recs) (atlas' : list Z),
    Forall (fits fontSize) glyphs -> 0 <= x < 2 ^ 24 -> 0 <= y < 2 ^ 24 ->
    pack_rows atlasSize fontSize padding glyphs x y atlas
    = Some (recs, atlas') ->
    forall (j : nat) (r : Rectangle.t),
      nth_error recs j = Some (Some r) ->
      exists c xj yj,
        nth_error glyphs j = Some c
        /\ r = glyph_rec (inject_Z xj) (inject_Z yj) c
        /\ ((yj = y /\ x <= xj) \/ y + fontSize + 2 * padding <= yj).
Proof.
  change (2 ^ 24) with 16777216 in *.
  induction glyphs as [| c rest IH];
    intros x y atlas recs atlas' Hfits Hx Hy Hrun j r Hr.
  - injection Hrun as <- <-. destruct j; discriminate Hr.
  - inversion Hfits as [| ? ? [Hw Hh] Hrest]; subst.
    cbn [pack_rows] in Hrun.
    destruct (copy_glyph c atlasSize x y atlas) as [atlas1 |];
      [| discriminate].
    cbn [bind] in Hrun.
    rewrite !rounded_small in Hrun
      by (change (2 ^ 24) with 16777216; lia).
    unwrap Hrun.
    assert (forall x' y',
               0 <= x' < 16777216 -> 0 <= y' < 16777216 ->
               (y' = y /\ x <= x') \/ y + fontSize + 2 * padding <= y' ->
               ('(recs, atlas) <- pack_rows atlasSize fontSize padding rest
                                            x' y' atlas1 ;;
                Some (Some (glyph_rec (inject_Z x) (inject_Z y) c) :: recs,
                      atlas)) = Some (recs, atlas') ->
               exists c0 xj yj,
                 nth_error (c :: rest) j = Some c0
                 /\ r = glyph_rec (inject_Z xj) (inject_Z yj) c0
                 /\ ((yj = y /\ x <= xj)
                     \/ y + fontSize + 2 * padding <= yj)) as Hgo.
    { intros x' y' Hx' Hy' Hpen Hrun'.
      destruct (pack_rows atlasSize fontSize padding rest x' y' atlas1)
        as [[recs1 atlas2] |] eqn:Hrec; [| discriminate].
      cbn [bind] in Hrun'. injection Hrun' as <- <-.
      destruct j as [| j]; cbn [nth_error] in Hr |- *.
      - injection Hr as <-. exists c, x, y.
        split; [reflexivity |]. split; [reflexivity |]. left. lia.
      - destruct (IH _ _ _ _ _ Hrest Hx' Hy' Hrec j r Hr)
          as (c0 & xj & yj & Hc0 & -> & Hpos).
        exists c0, xj, yj. split; [exact Hc0 |]. split; [reflexivity |].
        lia. }
    destruct (Z.geb_spec (x + (Image.width (image c) + 2 * padding))
                         (atlasSize - Image.width (image c) - padding))
      as [Hfull | Hmore].
    + destruct (Z.gtb_spec (y + (fontSize + 2 * padding))
                           (atlasSize - fontSize - padding))
        as [Hbreak | Hnext].
      * injection Hrun as <- <-.
        destruct j as [| j]; cbn [nth_error] in Hr |- *.
        -- injection Hr as <-. exists c, x, y.
           split; [reflexivity |]. split; [reflexivity |]. left. lia.
        -- rewrite nth_error_map in Hr.
           destruct (nth_error rest j); discriminate Hr.
      * apply (Hgo padding (y + (fontSize + 2 * padding))); [lia | lia | | ].
        -- right. lia.
        -- exact Hrun.
    + apply (Hgo (x + (Image.width (image c) + 2 * padding)) y);
        [lia | lia | | exact Hrun].
      left. lia.
Qed.

(** Two entries the loop writes are apart. *)
Lemma pack_rows_apart :
  forall (glyphs : list CharInfo) (x y : Z) (atlas : list Z)
         (recs : Recs) (atlas' : list Z),
    Forall (fits fontSize) glyphs ->
    0 <= x < 2 ^ 24 -> 0 <= y < 2 ^ 24 ->
    pack_rows atlasSize fontSize padding glyphs x y atlas
    = Some (recs, atlas') ->
    forall (i j : nat) (ri rj : Rectangle.t),
      (i < j)%nat ->
      nth_error recs i = Some (Some ri) ->
      nth_error recs j = Some (Some rj) ->
      apart padding ri rj.
Proof.
  change (2 ^ 24) with 16777216 in *.
  induction glyphs as [| c rest IH];
    intros x y atlas recs atlas' Hfits Hx Hy Hrun i j ri rj Hij Hi Hj.
  - injection Hrun as <- <-. destruct i; discriminate Hi.
  - destruct i as [| i].
    + (* the first glyph against a later one *)
      inversion Hfits as [| ? ? [Hw Hh] Hrest]; subst.
      destruct j as [| j]; [lia |].
      cbn [pack_rows] in Hrun.
      destruct (copy_glyph c atlasSize x y atlas) as [atlas1 |];
        [| discriminate].
      cbn [bind] in Hrun.
      unwrap Hrun.
      assert (forall x' y',
                 0 <= x' < 16777216 -> 0 <= y' < 16777216 ->
                 (y' = y /\ x + Image.width (image c) + 2 * padding <= x')
                 \/ y + fontSize + 2 * padding <= y' ->
                 ('(recs, atlas) <- pack_rows atlasSize fontSize padding
                                              rest x' y' atlas1 ;;
                  Some (Some (glyph_rec (rounded x) (rounded y) c) :: recs,
                        atlas)) = Some (recs, atlas') ->
                 ri = glyph_rec (rounded x) (rounded y) c
                 /\ exists cj xj yj,
                     rj = glyph_rec (inject_Z xj) (inject_Z yj) cj
                     /\ ((yj = y
                          /\ x + Image.width (image c) + 2 * padding <= xj)
                         \/ y + fontSize + 2 * padding <= yj)) as Hgo.
      { intros x' y' Hx' Hy' Hpen Hrun'.
        destruct (pack_rows atlasSize fontSize padding rest x' y' atlas1)
          as [[recs1 atlas2] |] eqn:Hrec; [| discriminate].
        cbn [bind] in Hrun'. injection Hrun' as <- <-.
        cbn [nth_error] in Hi, Hj. injection Hi as <-.
        split; [reflexivity |].
        destruct (pack_rows_from _ _ _ _ _ _ Hrest Hx' Hy' Hrec j _ Hj)
          as (c1 & x1 & y1 & _ & -> & Hpos).
        exists c1, x1, y1. split; [reflexivity | lia]. }
      assert (ri = glyph_rec (rounded x) (rounded y) c
              /\ exists cj xj yj,
                  rj = glyph_rec (inject_Z xj) (inject_Z yj) cj
                  /\ ((yj = y
                       /\ x + Image.width (image c) + 2 * padding <= xj)
                      \/ y + fontSize + 2 * padding <= yj))
        as (-> & cj & xj & yj & -> & Hpos).
      { destruct (Z.geb_spec (x + (Image.width (image c) + 2 * padding))
                             (atlasSize - Image.width (image c) - padding))
          as [Hfull | Hmore].
        - destruct (Z.gtb_spec (y + (fontSize + 2 * padding))
                               (atlasSize - fontSize - padding))
            as [Hbreak | Hnext].
          + injection Hrun as <- <-. cbn [nth_error] in Hj.
            rewrite nth_error_map in Hj.
            destruct (nth_error rest j); discriminate Hj.
          + apply (Hgo padding (y + (fontSize + 2 * padding)));
              [lia | lia | right; lia | exact Hrun].
        - apply (Hgo (x + (Image.width (image c) + 2 * padding)) y);
            [lia | lia | left; lia | exact Hrun]. }
      unfold apart, glyph_rec. cbn [Rectangle.x Rectangle.y Rectangle.width
                                      Rectangle.height].
      rewrite !rounded_small by (change (2 ^ 24) with 16777216; lia).
      rewrite <- !inject_Z_plus.
      destruct Hpos as [[-> Hright] | Hbelow].
      * left. split; [reflexivity |]. rewrite <- Zle_Qle. lia.
      * right. rewrite <- Zle_Qle. lia.
    + (* both among the glyphs that follow *)
      destruct j as [| j]; [lia |].
      inversion Hfits as [| ? ? [Hw Hh] Hrest]; subst.
      cbn [pack_rows] in Hrun.
      destruct (copy_glyph c atlasSize x y atlas) as [atlas1 |];
        [| discriminate].
      cbn [bind] in Hrun.
      unwrap Hrun.
      assert (forall x' y',
                 0 <= x' < 16777216 -> 0 <= y' < 16777216 ->
                 ('(recs, atlas) <- pack_rows atlasSize fontSize padding
                                              rest x' y' atlas1 ;;
                  Some (Some (glyph_rec (rounded x) (rounded y) c) :: recs,
                        atlas)) = Some (recs, atlas') ->
                 apart padding ri rj) as Hgo.
      { intros x' y' Hx' Hy' Hrun'.
        destruct (pack_rows atlasSize fontSize padding rest x' y' atlas1)
          as [[recs1 atlas2] |] eqn:Hrec; [| discriminate].
        cbn [bind] in Hrun'. injection Hrun' as <- <-.
        cbn [nth_error] in Hi, Hj.
        apply (IH _ _ _ _ _ Hrest Hx' Hy' Hrec i j ri rj); [lia | | ];
          assumption. }
      destruct (Z.geb_spec (x + (Image.width (image c) + 2 * padding))
                           (atlasSize - Image.width (image c) - padding))
        as [Hfull | Hmore].
      * destruct (Z.gtb_spec (y + (fontSize + 2 * padding))
                             (atlasSize - fontSize - padding))
          as [Hbreak | Hnext].
        -- injection Hrun as <- <-. cbn [nth_error] in Hi.
           rewrite nth_error_map in Hi.
           destruct (nth_error rest i); discriminate Hi.
        -- apply (Hgo padding (y + (fontSize + 2 * padding)));
             [lia | lia | exact Hrun].
      * apply (Hgo (x + (Image.width (image c) + 2 * padding)) y);
          [lia | lia | exact Hrun].
Qed.
End Rows.

(** X13. Row packing (packMethod 0) on glyphs no higher than the font size,
    with sizes, padding and font size of at most 32767 and an atlas of a
    side below 2^24, when it returns: the first glyph is placed at
    (padding, padding), and of two rectangles written the later one is
    apart from the earlier one: on the same row and twice the padding or
    more right of its right edge, or twice the padding or more below its
    bottom edge. *)
Theorem row_packing_layout
        (libm : Libm)
        (stbrp_pack_rects : Z -> Z -> list (Z * Z) -> nat -> Z * Z * bool)
        (chars : list CharInfo) (count fontSize padding : Z)
        (atlas : Image.t) (recs : Recs) :
  GenImageFontAtlas libm stbrp_pack_rects chars count fontSize padding 0
  = Some (atlas, recs) ->
  0 <= padding <= 32767 -> 0 <= fontSize <= 32767 ->
  0 <= Image.width atlas < 2 ^ 24 ->
  Forall (fits fontSize) chars ->
  (forall r, nth_error recs 0 = Some (Some r) ->
             Rectangle.x r = inject_Z padding
             /\ Rectangle.y r = inject_Z padding)
  /\ (forall i j ri rj,
         (i < j)%nat ->
         nth_error recs i = Some (Some ri) ->
         nth_error recs j = Some (Some rj) ->
         apart padding ri rj).
Proof.
  intros Hrun Hpad Hfont Hside Hfits.
  destruct (GenImageFontAtlas_returned _ _ _ _ _ _ _ _ _ Hrun)
    as (glyphs & side & pixels & Hg & _ & Hpack & _ & ->).
  cbn [Image.width] in Hside. cbn [Z.eqb] in Hpack.
  assert (Forall (fits fontSize) glyphs) as Hfits'.
  { unfold first_glyphs in Hg. destruct (_ <? _); [discriminate |].
    injection Hg as <-. rewrite Forall_forall in *.
    intros c Hc. apply Hfits.
    rewrite <- (firstn_skipn (Z.to_nat (count_or_default count)) chars).
    apply in_or_app. now left. }
  assert (0 <= padding < 2 ^ 24) as Hpen
      by (change (2 ^ 24) with 16777216; lia).
  split.
  - intros r Hr.
    destruct (pack_rows_from side fontSize padding Hside Hfont Hpad _ _ _ _ _
                             _ Hfits' Hpen Hpen Hpack 0%nat r Hr)
      as (c & x & y & Hc & -> & _).
    destruct glyphs as [| c0 rest]; [discriminate Hc |].
    cbn [pack_rows] in Hpack.
    destruct (copy_glyph c0 side padding padding _) as [atlas1 |];
      [| discriminate].
    cbn [bind] in Hpack.
    assert (nth_error recs 0
            = Some (Some (glyph_rec (rounded padding) (rounded padding) c0)))
      as Hhead.
    { destruct (_ >=? _); [destruct (_ >? _) |];
        try (injection Hpack as <- _; reflexivity);
        destruct (pack_rows side fontSize padding rest _ _ atlas1)
          as [[recs1 atlas2] |]; try discriminate;
        cbn [bind] in Hpack; injection Hpack as <- _; reflexivity. }
    rewrite Hhead in Hr. injection Hr as Hx Hy _ _.
    rewrite rounded_small in Hx, Hy
      by (change (2 ^ 24) with 16777216; lia).
    cbn [glyph_rec Rectangle.x Rectangle.y]. now rewrite <- Hx, <- Hy.
  - intros i j ri rj.
    apply (pack_rows_apart side fontSize padding Hside Hfont Hpad _ _ _ _ _
                           _ Hfits' Hpen Hpen Hpack).
Qed.

Lemma three_dashes_fit : Forall (fits 2) three_dashes.
Proof. repeat constructor; cbn; lia. Qed.

Lemma row_packing_layout_witness :
  exists atlas recs,
    GenImageFontAtlas sample_libm no_packer three_dashes 3 2 1 0
    = Some (atlas, recs)
    /\ (forall r, nth_error recs 0 = Some (Some r) ->
                  Rectangle.x r = inject_Z 1 /\ Rectangle.y r = inject_Z 1)
    /\ (forall i j ri rj,
           (i < j)%nat ->
           nth_error recs i = Some (Some ri) ->
           nth_error recs j = Some (Some rj) ->
           apart 1 ri rj).
Proof.
  evaluated_as Hrun.
  match type of Hrun with
  | _ = Some (?a, ?r) => exists a, r
  end.
  split; [exact Hrun |].
  apply (row_packing_layout sample_libm no_packer three_dashes 3 2 1 _ _
                            Hrun).
  - lia.
  - lia.
  - cbn. lia.
  - exact three_dashes_fit.
Defined.

(** ** The pixels of the atlas *)

Lemma store_at_Forall {A : Type} (P : A -> Prop) (a : list A) (i : nat)
      (v : A) :
  Forall P a -> P v -> Forall P (store_at a i v).
Proof.
  intros Ha Hv. revert i.
  induction Ha as [| x a Hx Ha IH]; intros i; [destruct i; constructor |].
  destruct i as [| i]; cbn [store_at]; constructor; auto.
Qed.

Section Pixels.
Variable glyphs : list CharInfo.

Lemma copy_glyph_pixels (c : CharInfo) (atlasWidth x0 y0 : Z)
      (atlas atlas' : list Z) :
  In c glyphs -> Forall (glyph_pixel glyphs) atlas ->
  copy_glyph c atlasWidth x0 y0 atlas = Some atlas' ->
  Forall (glyph_pixel glyphs) atlas'.
Proof.
  intros Hc. unfold copy_glyph.
  apply (foldM_invariant (Forall (glyph_pixel glyphs))). intros y st st'.
  apply (foldM_invariant (Forall (glyph_pixel glyphs))). intros x a a' Ha.
  unfold copy_pixel.
  destruct (Image.data (image c)) as [data |] eqn:Hdata; [| discriminate].
  cbn [bind].
  destruct (at_index data _) as [p |] eqn:Hp; [| discriminate].
  cbn [bind]. unfold write_at. destruct (_ && _); [| discriminate].
  intros H. injection H as <-. apply store_at_Forall; [exact Ha |].
  right. exists c, data. split; [exact Hc |]. split; [exact Hdata |].
  eapply at_index_In, Hp.
Qed.

Lemma pack_rows_pixels (atlasSize fontSize padding : Z) :
  forall (rest : list CharInfo) (x y : Z) (atlas : list Z) (recs : Recs)
         (atlas' : list Z),
    incl rest glyphs -> Forall (glyph_pixel glyphs) atlas ->
    pack_rows atlasSize fontSize padding rest x y atlas
    = Some (recs, atlas') ->
    Forall (glyph_pixel glyphs) atlas'.
Proof.
  induction rest as [| c rest IH]; intros x y atlas recs atlas' Hin Ha H.
  - now injection H as _ <-.
  - cbn [pack_rows] in H.
    destruct (copy_glyph c atlasSize x y atlas) as [atlas1 |] eqn:Hcopy;
      [| discriminate].
    apply copy_glyph_pixels in Hcopy; [| apply Hin; now left | exact Ha].
    cbn [bind] in H.
    assert (incl rest glyphs) as Hin'
        by (intros g Hg; apply Hin; now right).
    assert (forall x' y',
               ('(recs, atlas) <- pack_rows atlasSize fontSize padding rest
                                            x' y' atlas1 ;;
                Some (Some (glyph_rec (rounded x) (rounded y) c) :: recs,
                      atlas)) = Some (recs, atlas') ->
               Forall (glyph_pixel glyphs) atlas') as Hgo.
    { intros x' y' Hrun.
      destruct (pack_rows atlasSize fontSize padding rest x' y' atlas1)
        as [[recs1 atlas2] |] eqn:Hrest; [| discriminate].
      cbn [bind] in Hrun. injection Hrun as _ <-.
      exact (IH _ _ _ _ _ Hin' Hcopy Hrest). }
    destruct (_ >=? _); [destruct (_ >? _) |]; try (eapply Hgo; exact H).
    now injection H as _ <-.
Qed.

Lemma place_packed_pixels (atlasSize padding : Z)
      (packed : nat -> Z * Z * bool) :
  forall (rest : list CharInfo) (i : nat) (atlas : list Z) (recs : Recs)
         (atlas' : list Z),
    incl rest glyphs -> Forall (glyph_pixel glyphs) atlas ->
    place_packed atlasSize padding packed rest i atlas
    = Some (recs, atlas') ->
    Forall (glyph_pixel glyphs) atlas'.
Proof.
  induction rest as [| c rest IH]; intros i atlas recs atlas' Hin Ha H.
  - now injection H as _ <-.
  - cbn [place_packed] in H. destruct (packed i) as [[x y] was_packed].
    assert (exists atlas1,
               (if was_packed
                then copy_glyph c atlasSize (wrap (x + padding))
                                (wrap (y + padding)) atlas
                else Some atlas) = Some atlas1
               /\ Forall (glyph_pixel glyphs) atlas1) as (atlas1 & E & Ha1).
    { destruct was_packed.
      - destruct (copy_glyph c atlasSize _ _ atlas) as [atlas1 |]
          eqn:Hcopy; [| discriminate].
        exists atlas1. split; [reflexivity |].
        eapply copy_glyph_pixels; [apply Hin; now left | exact Ha |].
        exact Hcopy.
      - now exists atlas. }
    rewrite E in H. cbn [bind] in H.
    destruct (place_packed atlasSize padding packed rest (S i) atlas1)
      as [[recs1 atlas2] |] eqn:Hrest; [| discriminate].
    cbn [bind] in H. injection H as _ <-.
    apply (IH _ _ _ _ (fun g Hg => Hin g (or_intror Hg)) Ha1 Hrest).
Qed.
End Pixels.

(** X20. The atlas GenImageFontAtlas returns has one mipmap and two bytes
    a pixel, in the gray-and-alpha format: the first byte of every pixel is
    255, and the second is a gray level that is zero or a pixel of the
    bitmap of one of the glyphs. *)
Theorem atlas_pixels
        (libm : Libm)
        (stbrp_pack_rects : Z -> Z -> list (Z * Z) -> nat -> Z * Z * bool)
        (chars : list CharInfo) (count fontSize padding packMethod : Z)
        (atlas : Image.t) (recs : Recs) :
  GenImageFontAtlas libm stbrp_pack_rects chars count fontSize padding
                    packMethod = Some (atlas, recs) ->
  exists glyphs levels,
    first_glyphs chars (count_or_default count) = Some glyphs
    /\ Image.data atlas = Some (flat_map (fun p => [255; p]) levels)
    /\ Image.format atlas = UNCOMPRESSED_GRAY_ALPHA
    /\ Image.mipmaps atlas = 1
    /\ Forall (glyph_pixel glyphs) levels.
Proof.
  intros Hrun.
  destruct (GenImageFontAtlas_returned _ _ _ _ _ _ _ _ _ Hrun)
    as (glyphs & side & pixels & Hg & _ & Hpack & _ & ->).
  exists glyphs, pixels. split; [exact Hg |].
  split; [reflexivity |]. split; [reflexivity |]. split; [reflexivity |].
  assert (Forall (glyph_pixel glyphs)
                 (repeat 0 (Z.to_nat (wrap (side * side))))) as Hzero.
  { apply Forall_forall. intros p Hp. left. now apply repeat_spec in Hp. }
  destruct (packMethod =? 0); [| destruct (packMethod =? 1)].
  - exact (pack_rows_pixels glyphs _ _ _ _ _ _ _ _ _ (incl_refl _) Hzero
                            Hpack).
  - exact (place_packed_pixels glyphs _ _ _ _ _ _ _ _ (incl_refl _) Hzero
                               Hpack).
  - injection Hpack as _ <-. exact Hzero.
Qed.

Lemma atlas_pixels_witness :
  exists atlas recs glyphs levels,
    GenImageFontAtlas sample_libm no_packer [small_glyph] 1 4 0 0
    = Some (atlas, recs)
    /\ first_glyphs [small_glyph] (count_or_default 1) = Some glyphs
    /\ Image.data atlas = Some (flat_map (fun p => [255; p]) levels)
    /\ Image.format atlas = UNCOMPRESSED_GRAY_ALPHA
    /\ Image.mipmaps atlas = 1
    /\ Forall (glyph_pixel glyphs) levels.
Proof.
  evaluated_as Hrun.
  match type of Hrun with
  | _ = Some (?a, ?r) => exists a, r
  end.
  destruct (atlas_pixels sample_libm no_packer [small_glyph] 1 4 0 0 _ _ Hrun)
    as (glyphs & levels & H).
  exists glyphs, levels. split; [exact Hrun | exact H].
Defined.

(** ** More on LoadFontData *)

Section Records.
Variable rasterizer : Rasterizer.

Lemma load_glyph_value (fontInfo : stbtt_fontinfo rasterizer)
      (scaleFactor : Q) (ascent type ch : Z) :
  let c := load_glyph rasterizer fontInfo scaleFactor ascent type ch in
  value c = ch /\ Image.mipmaps (image c) = 1
  /\ Image.format (image c) = UNCOMPRESSED_GRAYSCALE.
Proof.
  unfold load_glyph.
  destruct (if negb (type =? FONT_SDF) then _ else _)
    as [[[[data chw] chh] offX] offY].
  cbn. repeat split.
Qed.

Lemma LoadFontData_glyphs (fileName : string) (fontSize : Z)
      (fontChars : option (list Z)) (charsCount type : Z)
      (chars : list CharInfo) (log : Log) :
  LoadFontData rasterizer fileName fontSize fontChars charsCount type
  = Some (Some chars, log) ->
  match fontChars with
  | Some given =>
      count_or_default charsCount <= Z.of_nat (List.length given)
  | None => True
  end
  /\ exists fontInfo scaleFactor ascent,
       chars = map (load_glyph rasterizer fontInfo scaleFactor ascent type)
                   (requested fontChars (count_or_default charsCount)).
Proof.
  unfold LoadFontData, requested, count_or_default.
  destruct (read_file rasterizer fileName) as [buffer |]; [| discriminate].
  destruct (stbtt_InitFont rasterizer buffer) as [fontInfo ok].
  destruct (stbtt_GetFontVMetrics rasterizer fontInfo)
    as [[ascent descent] gap].
  destruct fontChars as [given |].
  - destruct (_ <? _) eqn:E; [discriminate |]. apply Z.ltb_ge in E.
    cbn [bind]. intros H. injection H as <- _.
    split; [exact E |]. do 3 eexists. reflexivity.
  - cbn [bind]. intros H. injection H as <- _.
    split; [exact I |]. do 3 eexists. reflexivity.
Qed.

Lemma requested_length (fontChars : option (list Z)) (n : Z) :
  match fontChars with
  | Some given => n <= Z.of_nat (List.length given)
  | None => True
  end ->
  List.length (requested fontChars n) = Z.to_nat n.
Proof.
  destruct fontChars as [given |]; cbn [requested]; intros H.
  - rewrite length_firstn. lia.
  - now rewrite length_map, length_seq.
Qed.
(** The records returned carry the codepoints asked for, in order. *)
Lemma LoadFontData_loaded (fileName : string) (fontSize : Z)
      (fontChars : option (list Z)) (charsCount type : Z)
      (chars : list CharInfo) (log : Log) :
  LoadFontData rasterizer fileName fontSize fontChars charsCount type
  = Some (Some chars, log) ->
  map value chars = requested fontChars (count_or_default charsCount)
  /\ Z.of_nat (List.length chars) = count_or_default charsCount
  /\ Forall (fun c => Image.mipmaps (image c) = 1
                      /\ Image.format (image c) = UNCOMPRESSED_GRAYSCALE)
            chars.
Proof.
  intros H.
  destruct (LoadFontData_glyphs _ _ _ _ _ _ _ H)
    as (Hlong & fontInfo & scaleFactor & ascent & ->).
  assert (0 < count_or_default charsCount) as Hpos
    by (unfold count_or_default;
        destruct (0 <? charsCount) eqn:E; [apply Z.ltb_lt in E |]; lia).
  split; [| split].
  - rewrite map_map. rewrite <- (map_id (requested _ _)) at 2.
    apply map_ext. intros ch. apply load_glyph_value.
  - rewrite length_map, requested_length by exact Hlong. lia.
  - apply Forall_map, Forall_forall. intros ch _. apply load_glyph_value.
Qed.
End Records.

(** X14. Once the file opens, LoadFontData returns one glyph record for each
    codepoint asked for, in the order asked: the first charsCount entries
    of fontChars, or the codepoints from 32 on when fontChars is null; with
    a charsCount of zero or less, 95 of them.  Each record holds a
    one-channel image without mipmaps.  An array fontChars of fewer than
    charsCount entries is read out of bounds. *)
Theorem LoadFontData_records (rasterizer : Rasterizer) (fileName : string)
        (fontBuffer : list Z) (fontSize : Z) (fontChars : option (list Z))
        (charsCount type : Z) :
  read_file rasterizer fileName = Some fontBuffer ->
  match fontChars with
  | Some given =>
      Z.of_nat (List.length given) < count_or_default charsCount ->
      LoadFontData rasterizer fileName fontSize fontChars charsCount type
      = None
  | None => True
  end
  /\ (match fontChars with
      | Some given =>
          count_or_default charsCount <= Z.of_nat (List.length given)
      | None => True
      end ->
      exists chars log,
        LoadFontData rasterizer fileName fontSize fontChars charsCount type
        = Some (Some chars, log)
        /\ map value chars
           = requested fontChars (count_or_default charsCount)
        /\ Z.of_nat (List.length chars) = count_or_default charsCount
        /\ Forall (fun c => Image.mipmaps (image c) = 1
                            /\ Image.format (image c)
                               = UNCOMPRESSED_GRAYSCALE) chars).
Proof.
  intros Hfile. split.
  - destruct fontChars as [given |]; [| exact I]. intros Hshort.
    unfold LoadFontData, count_or_default in *. rewrite Hfile.
    destruct (stbtt_InitFont rasterizer fontBuffer) as [fontInfo ok].
    destruct (stbtt_GetFontVMetrics rasterizer fontInfo)
      as [[ascent descent] gap].
    now rewrite (proj2 (Z.ltb_lt _ _) Hshort).
  - intros Hlong.
    assert (exists chars log,
               LoadFontData rasterizer fileName fontSize fontChars charsCount
                            type = Some (Some chars, log)) as (chars & log & H).
    { unfold LoadFontData, count_or_default in *. rewrite Hfile.
      destruct (stbtt_InitFont rasterizer fontBuffer) as [fontInfo ok].
      destruct (stbtt_GetFontVMetrics rasterizer fontInfo)
        as [[ascent descent] gap].
      destruct fontChars as [given |].
      - rewrite (proj2 (Z.ltb_ge _ _) Hlong). cbn [bind].
        do 2 eexists. reflexivity.
      - cbn [bind]. do 2 eexists. reflexivity. }
    exists chars, log. split; [exact H |].
    exact (LoadFontData_loaded _ _ _ _ _ _ _ _ H).
Qed.

Lemma LoadFontData_records_witness :
  (Z.of_nat (List.length [0x41; 0x42; 0x43]) < count_or_default 2 ->
   LoadFontData shades "any.ttf" 16 (Some [0x41; 0x42; 0x43]) 2 FONT_DEFAULT
   = None)
  /\ (count_or_default 2 <= Z.of_nat (List.length [0x41; 0x42; 0x43]) ->
      exists chars log,
        LoadFontData shades "any.ttf" 16 (Some [0x41; 0x42; 0x43]) 2
                     FONT_DEFAULT
        = Some (Some chars, log)
        /\ map value chars
           = requested (Some [0x41; 0x42; 0x43]) (count_or_default 2)
        /\ Z.of_nat (List.length chars) = count_or_default 2
        /\ Forall (fun c => Image.mipmaps (image c) = 1
                            /\ Image.format (image c)
                               = UNCOMPRESSED_GRAYSCALE) chars).
Proof.
  apply (LoadFontData_records shades "any.ttf" [0; 1; 0; 0] 16
           (Some [0x41; 0x42; 0x43]) 2 FONT_DEFAULT).
  reflexivity.
Defined.

(** *** The aliased bitmap mode *)

Lemma binarize_pixels (n : Z) (pixels : list Z) :
  Z.of_nat (List.length pixels) <= n ->
  List.length (binarize n pixels) = List.length pixels
  /\ Forall (fun p => p = 0 \/ p = 255) (binarize n pixels).
Proof.
  intros Hn. unfold binarize.
  rewrite firstn_all2, skipn_all2, app_nil_r by lia.
  split; [apply length_map |].
  apply Forall_map, Forall_forall. intros p _.
  destruct (p <? BITMAP_ALPHA_THRESHOLD); [now left | now right].
Qed.

(** X15. In the aliased bitmap mode (FONT_BITMAP) no shade of grey is left: when
    the rasterizer hands out bitmaps of width * height pixels, every pixel
    of every glyph record is 0 where the rasterizer gave less than 80 and
    255 elsewhere, and the bitmaps keep their number of pixels. *)
Theorem LoadFontData_bitmap_pixels (rasterizer : Rasterizer)
        (fileName : string) (fontSize : Z) (fontChars : option (list Z))
        (charsCount : Z) (chars : list CharInfo) (log : Log) :
  (forall fontInfo sx sy ch data w h ox oy,
      stbtt_GetCodepointBitmap rasterizer fontInfo sx sy ch
      = (Some data, w, h, ox, oy) ->
      Z.of_nat (List.length data) = w * h) ->
  LoadFontData rasterizer fileName fontSize fontChars charsCount FONT_BITMAP
  = Some (Some chars, log) ->
  Forall (fun c =>
            forall pixels, Image.data (image c) = Some pixels ->
              Z.of_nat (List.length pixels)
              = Image.width (image c) * Image.height (image c)
              /\ Forall (fun p => p = 0 \/ p = 255) pixels
              /\ exists fontInfo sx sy given w h ox oy,
                   stbtt_GetCodepointBitmap rasterizer fontInfo sx sy
                                            (value c)
                   = (Some given, w, h, ox, oy)
                   /\ pixels
                      = map (fun p => if p <? 80 then 0 else 255) given)
         chars.
Proof.
  intros Hsize H.
  destruct (LoadFontData_glyphs _ _ _ _ _ _ _ _ H)
    as (_ & fontInfo & scaleFactor & ascent & ->).
  apply Forall_map, Forall_forall. intros ch _ pixels.
  unfold load_glyph. change (FONT_BITMAP =? FONT_SDF) with false.
  change (FONT_BITMAP =? FONT_BITMAP) with true. cbn [negb].
  destruct (stbtt_GetCodepointBitmap rasterizer fontInfo scaleFactor
              scaleFactor ch) as [[[[data chw] chh] offX] offY] eqn:Hbmp.
  cbn [image value Image.data Image.width Image.height].
  destruct data as [given |]; [| discriminate]. cbn [option_map].
  intros Hpx. injection Hpx as <-.
  pose proof (Hsize _ _ _ _ _ _ _ _ _ Hbmp) as Hlen.
  destruct (binarize_pixels (chw * chh) given ltac:(lia)) as [Hl Hall].
  split; [lia |]. split; [exact Hall |].
  exists fontInfo, scaleFactor, scaleFactor, given, chw, chh, offX, offY.
  split; [exact Hbmp |]. unfold binarize.
  now rewrite firstn_all2, skipn_all2, app_nil_r by lia.
Qed.

Lemma LoadFontData_bitmap_pixels_witness :
  Forall (fun c =>
            forall pixels, Image.data (image c) = Some pixels ->
              Z.of_nat (List.length pixels)
              = Image.width (image c) * Image.height (image c)
              /\ Forall (fun p => p = 0 \/ p = 255) pixels
              /\ exists fontInfo sx sy given w h ox oy,
                   stbtt_GetCodepointBitmap shades fontInfo sx sy (value c)
                   = (Some given, w, h, ox, oy)
                   /\ pixels
                      = map (fun p => if p <? 80 then 0 else 255) given)
         [{| value := 0x41; offsetX := 0; offsetY := 0; advanceX := 2;
             image := Image.make (Some [0; 0; 255; 255]) 2 2 1
                                 UNCOMPRESSED_GRAYSCALE |}].
Proof.
  apply (LoadFontData_bitmap_pixels shades "any.ttf" 16 (Some [0x41]) 1 _ []).
  - intros fontInfo sx sy ch data w h ox oy H. cbn in H.
    injection H as <- <- <- _ _. reflexivity.
  - reflexivity.
Defined.

(** ** LoadFontEx and LoadFont *)

Lemma store_at_middle {A : Type} (pre rest : list A) (x v : A) :
  store_at (pre ++ x :: rest) (List.length pre) v = pre ++ v :: rest.
Proof. induction pre as [| y pre IH]; cbn; [reflexivity | now rewrite IH]. Qed.

Lemma at_index_middle {A : Type} (pre rest : list A) (x : A) :
  at_index (pre ++ x :: rest) (Z.of_nat (List.length pre)) = Some x.
Proof.
  unfold at_index. rewrite (proj2 (Z.ltb_ge _ 0)) by lia.
  rewrite Nat2Z.id, nth_error_app2, Nat.sub_diag by lia. reflexivity.
Qed.

Lemma nth_error_indexed {A : Type} (l : list A) :
  forall (start i : nat),
    nth_error (combine (seq start (List.length l)) l) i
    = option_map (fun c => ((start + i)%nat, c)) (nth_error l i).
Proof.
  induction l as [|c l IH]; intros start i.
  - destruct i; reflexivity.
  - destruct i as [|i]; cbn [List.length seq combine nth_error option_map].
    + now rewrite Nat.add_0_r.
    + rewrite IH. now rewrite Nat.add_succ_r.
Qed.

Section Loaded.
Variable rasterizer : Rasterizer.
Variable libm : Libm.
Variable stbrp_pack_rects : Z -> Z -> list (Z * Z) -> nat -> Z * Z * bool.
Variable LoadTextureFromImage : Image.t -> Texture2D.
Variable ImageFromImage : Image.t -> Rectangle.t -> Image.t.
Variable unwritten : nat -> Rectangle.t.

Lemma stored_length (recs : Recs) :
  List.length (stored unwritten recs) = List.length recs.
Proof.
  unfold stored. rewrite length_map, length_combine, length_seq.
  apply Nat.min_id.
Qed.

(** The rectangles read: those written, as they were written, and the
    rest as the allocation left them. *)
Lemma stored_nth (recs : Recs) (i : nat) :
  nth_error (stored unwritten recs) i
  = option_map (fun r => match r with
                         | Some r => r
                         | None => unwritten i
                         end) (nth_error recs i).
Proof.
  unfold stored. rewrite nth_error_map, nth_error_indexed.
  destruct (nth_error recs i) as [r |]; reflexivity.
Qed.

(** The loop over arrays of the same length. *)
Lemma crop_glyphs_all (atlas : Image.t) :
  forall (rest pre : list CharInfo) (rpre rrest : list Rectangle.t),
    List.length rpre = List.length pre ->
    List.length rrest = List.length rest ->
    crop_glyphs ImageFromImage atlas (rpre ++ rrest)
                (List.length rest) (Z.of_nat (List.length pre))
                (pre ++ rest)
    = Some (pre ++ map (fun '(c, r) =>
                          set_image c (ImageFromImage atlas r))
                       (combine rest rrest)).
Proof.
  induction rest as [| c rest IH]; intros pre rpre rrest Hpre Hrest.
  - cbn. reflexivity.
  - destruct rrest as [| r rrest]; [discriminate Hrest |].
    cbn [List.length crop_glyphs].
    rewrite at_index_middle. cbn [bind].
    rewrite <- Hpre at 1. rewrite at_index_middle. cbn [bind].
    rewrite Nat2Z.id, store_at_middle.
    specialize (IH (pre ++ [set_image c (ImageFromImage atlas r)])
                   (rpre ++ [r]) rrest).
    rewrite !length_app in IH. cbn [List.length] in IH.
    rewrite <- !app_assoc in IH. cbn [app] in IH.
    replace (Z.of_nat (List.length pre) + 1)
      with (Z.of_nat (List.length pre + 1)) by lia.
    rewrite IH by (cbn [List.length] in Hrest; lia).
    cbn [combine map]. reflexivity.
Qed.

Lemma count_or_default_pos (n : Z) : 0 < count_or_default n.
Proof.
  unfold count_or_default.
  destruct (0 <? n) eqn:E; [apply Z.ltb_lt in E |]; lia.
Qed.

Lemma count_or_default_idem (n : Z) :
  count_or_default (count_or_default n) = count_or_default n.
Proof.
  pose proof (count_or_default_pos n) as H.
  unfold count_or_default at 1. now rewrite (proj2 (Z.ltb_lt _ _) H).
Qed.

(** What a font that LoadFontEx built from a file that opens is made
    of. *)
Lemma LoadFontEx_parts (fileName : string) (fontBuffer : list Z)
      (fontSize : Z) (fontChars : option (list Z)) (charsCount : Z)
      (font : Font) (log : Log) :
  read_file rasterizer fileName = Some fontBuffer ->
  LoadFontEx rasterizer libm stbrp_pack_rects LoadTextureFromImage
             ImageFromImage unwritten fileName fontSize fontChars
             charsCount
  = Some (font, log) ->
  exists glyphs atlas recs,
    LoadFontData rasterizer fileName fontSize fontChars
                 (count_or_default charsCount) FONT_DEFAULT
    = Some (Some glyphs, log)
    /\ Z.of_nat (List.length glyphs) = count_or_default charsCount
    /\ GenImageFontAtlas libm stbrp_pack_rects glyphs
                         (count_or_default charsCount) fontSize 2 0
       = Some (atlas, recs)
    /\ first_glyphs glyphs (count_or_default (count_or_default charsCount))
       = Some glyphs
    /\ List.length recs = List.length glyphs
    /\ font
       = {| baseSize := fontSize;
            charsCount := count_or_default charsCount;
            texture := LoadTextureFromImage atlas;
            recs := stored unwritten recs;
            chars :=
              map (fun '(c, r) => set_image c (ImageFromImage atlas r))
                  (combine glyphs (stored unwritten recs)) |}.
Proof.
  intros Hfile. unfold LoadFontEx.
  change (if 0 <? charsCount then charsCount else 95)
    with (count_or_default charsCount).
  destruct (LoadFontData rasterizer fileName fontSize fontChars
              (count_or_default charsCount) FONT_DEFAULT)
    as [[[glyphs |] log'] |] eqn:Hdata; cbn [bind]; try discriminate.
  2:{ exfalso. revert Hdata. unfold LoadFontData. rewrite Hfile.
      destruct (stbtt_InitFont rasterizer fontBuffer) as [fontInfo ok].
      destruct (stbtt_GetFontVMetrics rasterizer fontInfo) as [[a d] g].
      destruct fontChars as [given |];
        [destruct (_ <? _); [discriminate |] |];
        cbn [bind]; discriminate. }
  destruct (GenImageFontAtlas libm stbrp_pack_rects glyphs
              (count_or_default charsCount) fontSize 2 0)
    as [[atlas recs] |] eqn:Hatlas; cbn [bind]; [| discriminate].
  destruct (crop_glyphs ImageFromImage atlas (stored unwritten recs)
              (Z.to_nat (count_or_default charsCount)) 0 glyphs)
    as [chars' |] eqn:Hcrop; cbn [bind]; [| discriminate].
  intros H. injection H as <- <-.
  (* the glyph array has [charsCount] entries *)
  assert (Z.of_nat (List.length glyphs) = count_or_default charsCount)
    as Hlen.
  { destruct (LoadFontData_loaded _ _ _ _ _ _ _ _ Hdata) as (_ & Hl & _).
    now rewrite count_or_default_idem in Hl. }
  destruct (GenImageFontAtlas_row_packed _ _ _ _ _ _ _ _ Hatlas)
    as (glyphs' & rs & Hfirst & _ & Hrecs & Hle & _).
  assert (glyphs' = glyphs) as ->.
  { rewrite count_or_default_idem in Hfirst. unfold first_glyphs in Hfirst.
    rewrite (proj2 (Z.ltb_ge _ _)) in Hfirst by lia.
    injection Hfirst as <-. apply firstn_all2. lia. }
  assert (List.length recs = List.length glyphs) as Hrl.
  { rewrite Hrecs, length_app, length_map, repeat_length. lia. }
  exists glyphs, atlas, recs.
  split; [reflexivity |]. split; [exact Hlen |]. split; [exact Hatlas |].
  split; [exact Hfirst |]. split; [exact Hrl |].
  pose proof (crop_glyphs_all atlas glyphs [] [] (stored unwritten recs)
                              eq_refl) as Hspec.
  cbn [app List.length Z.of_nat] in Hspec.
  replace (Z.to_nat (count_or_default charsCount))
    with (List.length glyphs) in Hcrop by lia.
  rewrite Hspec in Hcrop by (rewrite stored_length; exact Hrl).
  injection Hcrop as <-. reflexivity.
Qed.
End Loaded.

Lemma combine_values (glyphs : list CharInfo) (rs : list Rectangle.t)
      (f : Rectangle.t -> Image.t) :
  List.length rs = List.length glyphs ->
  map value (map (fun '(c, r) => set_image c (f r)) (combine glyphs rs))
  = map value glyphs.
Proof.
  revert rs. induction glyphs as [| c glyphs IH]; intros rs Hlen;
    [reflexivity |].
  destruct rs as [| r rs]; [discriminate Hlen |].
  cbn [combine map set_image value]. f_equal. apply IH.
  cbn [List.length] in Hlen. lia.
Qed.

Lemma combine_images (glyphs : list CharInfo) (rs : list Rectangle.t)
      (f : Rectangle.t -> Image.t) :
  forall (i : nat) (c : CharInfo) (r : Rectangle.t),
    nth_error (map (fun '(c, r) => set_image c (f r)) (combine glyphs rs)) i
    = Some c ->
    nth_error rs i = Some r ->
    image c = f r
    /\ exists g, nth_error glyphs i = Some g
                 /\ offsetX c = offsetX g /\ offsetY c = offsetY g
                 /\ advanceX c = advanceX g.
Proof.
  revert rs. induction glyphs as [| g glyphs IH]; intros rs i c r Hc Hr.
  - destruct i; discriminate Hc.
  - destruct rs as [| r0 rs]; [destruct i; discriminate Hr |].
    destruct i as [| i]; cbn [combine map nth_error] in *.
    + injection Hc as <-. injection Hr as <-. split; [reflexivity |].
      exists g. repeat split.
    + exact (IH rs i c r Hc Hr).
Qed.

(** The arrays of a font that LoadFontEx built. *)
Lemma LoadFontEx_shape (rasterizer : Rasterizer) (libm : Libm)
      (stbrp_pack_rects : Z -> Z -> list (Z * Z) -> nat -> Z * Z * bool)
      (LoadTextureFromImage : Image.t -> Texture2D)
      (ImageFromImage : Image.t -> Rectangle.t -> Image.t)
      (unwritten : nat -> Rectangle.t)
      (fileName : string) (fontBuffer : list Z) (fontSize : Z)
      (fontChars : option (list Z)) (count : Z)
      (font : Font) (log : Log) :
  read_file rasterizer fileName = Some fontBuffer ->
  LoadFontEx rasterizer libm stbrp_pack_rects LoadTextureFromImage
             ImageFromImage unwritten fileName fontSize fontChars count
  = Some (font, log) ->
  baseSize font = fontSize
  /\ charsCount font = count_or_default count
  /\ Z.of_nat (List.length (chars font)) = charsCount font
  /\ Z.of_nat (List.length (recs font)) = charsCount font
  /\ map value (chars font) = requested fontChars (count_or_default count).
Proof.
  intros Hfile Hload.
  destruct (LoadFontEx_parts _ _ _ _ _ _ _ _ _ _ _ _ _ Hfile Hload)
    as (glyphs & atlas & entries & Hdata & Hlen & _ & _ & Hrl & ->).
  cbn [baseSize charsCount chars recs texture].
  pose proof (stored_length unwritten entries) as Hsl.
  split; [reflexivity |]. split; [reflexivity |].
  split; [rewrite length_map, length_combine; lia |].
  split; [lia |].
  rewrite combine_values by lia.
  destruct (LoadFontData_loaded _ _ _ _ _ _ _ _ Hdata) as (Hv & _).
  now rewrite count_or_default_idem in Hv.
Qed.

(** X16. A font that LoadFontEx builds from a file that opens has the base
    size asked for and as many glyphs and rectangles as asked for (95 for a
    count of zero or less); its glyphs carry the codepoints asked for, in
    the order asked; its texture is the upload of a square atlas, and the
    image of each glyph is the piece of that atlas at the rectangle of the
    glyph.  The rectangles of the first glyphs, up to the one at which row
    packing stopped, have the size of the bitmap the rasterizer rendered;
    the other rectangles are read as the allocation left them. *)
Theorem LoadFontEx_font (rasterizer : Rasterizer) (libm : Libm)
        (stbrp_pack_rects : Z -> Z -> list (Z * Z) -> nat -> Z * Z * bool)
        (LoadTextureFromImage : Image.t -> Texture2D)
        (ImageFromImage : Image.t -> Rectangle.t -> Image.t)
        (unwritten : nat -> Rectangle.t)
        (fileName : string) (fontBuffer : list Z) (fontSize : Z)
        (fontChars : option (list Z)) (count : Z)
        (font : Font) (log : Log) :
  read_file rasterizer fileName = Some fontBuffer ->
  LoadFontEx rasterizer libm stbrp_pack_rects LoadTextureFromImage
             ImageFromImage unwritten fileName fontSize fontChars count
  = Some (font, log) ->
  baseSize font = fontSize
  /\ charsCount font = count_or_default count
  /\ Z.of_nat (List.length (chars font)) = charsCount font
  /\ Z.of_nat (List.length (recs font)) = charsCount font
  /\ map value (chars font)
     = requested fontChars (count_or_default count)
  /\ exists atlas glyphs log' written,
       LoadFontData rasterizer fileName fontSize fontChars
                    (count_or_default count) FONT_DEFAULT
       = Some (Some glyphs, log')
       /\ texture font = LoadTextureFromImage atlas
       /\ Image.width atlas = Image.height atlas
       /\ (forall i c r,
              nth_error (chars font) i = Some c ->
              nth_error (recs font) i = Some r ->
              image c = ImageFromImage atlas r)
       /\ (1 <= written <= List.length glyphs)%nat
       /\ (forall i g,
              (i < written)%nat -> nth_error glyphs i = Some g ->
              exists r, nth_error (recs font) i = Some r /\ sized g r)
       /\ (forall i,
              (written <= i < List.length glyphs)%nat ->
              nth_error (recs font) i = Some (unwritten i)).
Proof.
  intros Hfile Hload.
  destruct (LoadFontEx_shape _ _ _ _ _ _ _ _ _ _ _ _ _ Hfile Hload)
    as (Hbase & Hcount & Hchars & Hrecs & Hvalues).
  split; [exact Hbase |]. split; [exact Hcount |]. split; [exact Hchars |].
  split; [exact Hrecs |]. split; [exact Hvalues |].
  destruct (LoadFontEx_parts _ _ _ _ _ _ _ _ _ _ _ _ _ Hfile Hload)
    as (glyphs & atlas & entries & Hdata & Hlen & Hatlas & Hfirst & Hrl
        & ->).
  cbn [baseSize charsCount chars recs texture].
  destruct (GenImageFontAtlas_row_packed _ _ _ _ _ _ _ _ Hatlas)
    as (glyphs' & rs & Hfirst' & Hsquare & Hwritten & Hle & Hne & Hsized).
  rewrite Hfirst in Hfirst'. injection Hfirst' as <-.
  assert (glyphs <> []) as Hsome.
  { intros ->. pose proof (count_or_default_pos count). cbn in Hlen. lia. }
  specialize (Hne Hsome).
  exists atlas, glyphs, log, (List.length rs).
  split; [exact Hdata |]. split; [reflexivity |]. split; [exact Hsquare |].
  split; [| split; [| split]].
  - intros i c r Hc Hr.
    now destruct (combine_images glyphs (stored unwritten entries) _ i c r
                                 Hc Hr).
  - destruct rs; [contradiction | cbn [List.length] in *; lia].
  - intros i g Hi Hg. rewrite stored_nth, Hwritten.
    rewrite nth_error_app1 by (rewrite length_map; exact Hi).
    rewrite nth_error_map.
    destruct (nth_error rs i) as [r |] eqn:Hr;
      [| apply nth_error_None in Hr; lia].
    exists r. split; [reflexivity |].
    assert (nth_error (firstn (List.length rs) glyphs) i = Some g) as Hg'
        by (rewrite nth_error_firstn;
            destruct (Nat.ltb_spec i (List.length rs)); [exact Hg | lia]).
    clear - Hsized Hg' Hr. revert i Hg' Hr.
    induction Hsized as [| g0 r0 gs rs0 H0 _ IH]; intros i Hg Hr.
    + destruct i; discriminate Hg.
    + destruct i as [| i]; cbn [nth_error] in Hg, Hr.
      * injection Hg as <-. injection Hr as <-. exact H0.
      * exact (IH i Hg Hr).
  - intros i Hi. rewrite stored_nth, Hwritten.
    rewrite nth_error_app2 by (rewrite length_map; lia).
    rewrite length_map, nth_error_repeat by lia. reflexivity.
Qed.

Lemma LoadFontEx_font_witness :
  exists font log,
    LoadFontEx shades sample_libm no_packer upload crop zeroed "shades.ttf"
               2 (Some [65; 66; 67]) 3 = Some (font, log)
    /\ baseSize font = 2
    /\ charsCount font = count_or_default 3
    /\ Z.of_nat (List.length (chars font)) = charsCount font
    /\ Z.of_nat (List.length (recs font)) = charsCount font
    /\ map value (chars font)
       = requested (Some [65; 66; 67]) (count_or_default 3)
    /\ exists atlas glyphs log' written,
         LoadFontData shades "shades.ttf" 2 (Some [65; 66; 67])
                      (count_or_default 3) FONT_DEFAULT
         = Some (Some glyphs, log')
         /\ texture font = upload atlas
         /\ Image.width atlas = Image.height atlas
         /\ (forall i c r,
                nth_error (chars font) i = Some c ->
                nth_error (recs font) i = Some r ->
                image c = crop atlas r)
         /\ (1 <= written <= List.length glyphs)%nat
         /\ (forall i g,
                (i < written)%nat -> nth_error glyphs i = Some g ->
                exists r, nth_error (recs font) i = Some r /\ sized g r)
         /\ (forall i,
                (written <= i < List.length glyphs)%nat ->
                nth_error (recs font) i = Some (zeroed i)).
Proof.
  evaluated_as Hrun.
  match type of Hrun with
  | _ = Some (?a, ?r) => exists a, r
  end.
  split; [exact Hrun |].
  exact (LoadFontEx_font shades sample_libm no_packer upload crop zeroed
                         "shades.ttf" [0; 1; 0; 0] 2 (Some [65; 66; 67]) 3
                         _ _ eq_refl Hrun).
Defined.

(** ** LoadFont *)

(** *** The default character set *)

Lemma default_charset_nth (i : nat) (v : Z) :
  nth_error default_charset i = Some v <->
  (i < 95)%nat /\ v = Z.of_nat i + 32.
Proof.
  unfold default_charset. rewrite nth_error_map. split.
  - destruct (nth_error (seq 0 95) i) as [k |] eqn:E; [| discriminate].
    cbn [option_map]. intros H. injection H as <-.
    pose proof (nth_error_Some (seq 0 95) i) as Hs.
    rewrite length_seq in Hs.
    assert (i < 95)%nat as Hi by (apply Hs; congruence).
    rewrite nth_error_seq in E.
    destruct (Nat.ltb_spec i 95) as [_ | Hge]; [| lia].
    injection E as <-. split; [exact Hi | reflexivity].
  - intros [Hi ->]. rewrite nth_error_seq.
    destruct (Nat.ltb_spec i 95) as [_ | Hge]; [reflexivity | lia].
Qed.

Lemma value_at (font : Font) (i : Z) (c : CharInfo) :
  at_index (chars font) i = Some c ->
  nth_error (map value (chars font)) (Z.to_nat i) = Some (value c).
Proof.
  unfold at_index. destruct (i <? 0); [discriminate |].
  intros H. now rewrite nth_error_map, H.
Qed.

Section Default.
Variable font : Font.
Hypothesis Hcount : charsCount font = 95.
Hypothesis Hlen : Z.of_nat (List.length (chars font)) = 95.
Hypothesis Hvalues : map value (chars font) = default_charset.

Lemma default_value (i : Z) (c : CharInfo) :
  at_index (chars font) i = Some c -> value c = i + 32.
Proof.
  intros H. pose proof (at_index_range _ _ _ H) as Hr.
  apply value_at in H. rewrite Hvalues in H.
  apply default_charset_nth in H. lia.
Qed.

Lemma default_lookup (c : Z) :
  32 <= c <= 126 -> GetGlyphIndex font c = Some (c - 32).
Proof.
  intros Hc.
  destruct (at_index_Some (chars font) (c - 32) ltac:(lia)) as [g Hg].
  apply (GetGlyphIndex_present font c (c - 32) g); [lia | exact Hg | |].
  - rewrite (default_value _ _ Hg). lia.
  - intros j g' Hj Hg'. rewrite (default_value _ _ Hg'). lia.
Qed.

Lemma default_fallback (c : Z) :
  ~ 32 <= c <= 126 ->
  GetGlyphIndex font c = Some 63
  /\ option_map value (at_index (chars font) 63) = Some 95.
Proof.
  intros Hc. split.
  - apply GetGlyphIndex_absent; [lia |].
    intros j g Hg. rewrite (default_value _ _ Hg).
    apply at_index_range in Hg. lia.
  - destruct (at_index_Some (chars font) 63 ltac:(lia)) as [g Hg].
    rewrite Hg. cbn [option_map]. f_equal.
    now rewrite (default_value _ _ Hg).
Qed.
End Default.

(** X17. A font that LoadFont builds from a file that opens has base size 32
    and the 95 glyphs of the codepoints 32 to 126, in this order.  All its
    glyph lookups stay in bounds: a codepoint c of 32..126 is found at
    index c - 32, and any other codepoint gets the index 63, where the
    glyph of the codepoint 95 is.  SetTextureFilter is called on
    the texture of the font unless its id is zero, in which case the
    warning is logged instead. *)
Theorem LoadFont_default_charset (rasterizer : Rasterizer) (libm : Libm)
        (stbrp_pack_rects : Z -> Z -> list (Z * Z) -> nat -> Z * Z * bool)
        (LoadTextureFromImage : Image.t -> Texture2D)
        (ImageFromImage : Image.t -> Rectangle.t -> Image.t)
        (unwritten : nat -> Rectangle.t)
        (fileName : string) (fontBuffer : list Z)
        (font : Font) (log : Log) (filtered : option Texture2D) :
  read_file rasterizer fileName = Some fontBuffer ->
  LoadFont rasterizer libm stbrp_pack_rects LoadTextureFromImage
           ImageFromImage unwritten fileName
  = Some (font, log, filtered) ->
  baseSize font = 32
  /\ map value (chars font) = default_charset
  /\ indexable font
  /\ (forall c, 32 <= c <= 126 -> GetGlyphIndex font c = Some (c - 32))
  /\ (forall c, ~ 32 <= c <= 126 ->
                GetGlyphIndex font c = Some 63
                /\ option_map value (at_index (chars font) 63) = Some 95)
  /\ (if id (texture font) =? 0
      then filtered = None
           /\ In (LOG_WARNING,
                  ("[" ++ fileName ++ "] Font could not be loaded.")%string)
                 log
      else filtered = Some (texture font)).
Proof.
  intros Hfile. unfold LoadFont, DEFAULT_TTF_FONTSIZE, DEFAULT_TTF_NUMCHARS.
  destruct (LoadFontEx rasterizer libm stbrp_pack_rects LoadTextureFromImage
              ImageFromImage unwritten fileName 32 None 95)
    as [[font' log'] |] eqn:Hload; cbn [bind]; [| discriminate].
  destruct (LoadFontEx_shape _ _ _ _ _ _ _ _ _ _ _ _ _ Hfile Hload)
    as (Hbase & Hcount & Hlen & Hrecs & Hvalues).
  change (count_or_default 95) with 95 in *.
  change (requested None 95) with default_charset in Hvalues.
  rewrite Hcount in Hlen, Hrecs.
  assert (indexable font') as Hidx
    by (unfold indexable, TEXT_CHARACTER_NOTFOUND; lia).
  destruct (id (texture font') =? 0) eqn:Eid; intros H;
    injection H as <- <- <-; rewrite Eid.
  - split; [exact Hbase |]. split; [exact Hvalues |]. split; [exact Hidx |].
    split; [intros c; now apply default_lookup |].
    split; [intros c; now apply default_fallback |].
    split; [reflexivity |]. apply in_or_app. right. now left.
  - split; [exact Hbase |]. split; [exact Hvalues |]. split; [exact Hidx |].
    split; [intros c; now apply default_lookup |].
    split; [intros c; now apply default_fallback |].
    reflexivity.
Qed.

Lemma LoadFont_default_charset_witness :
  exists font log filtered,
    LoadFont shades sample_libm no_packer upload crop zeroed "shades.ttf"
    = Some (font, log, filtered)
    /\ baseSize font = 32
    /\ map value (chars font) = default_charset
    /\ indexable font
    /\ (forall c, 32 <= c <= 126 -> GetGlyphIndex font c = Some (c - 32))
    /\ (forall c, ~ 32 <= c <= 126 ->
                  GetGlyphIndex font c = Some 63
                  /\ option_map value (at_index (chars font) 63) = Some 95)
    /\ (if id (texture font) =? 0
        then filtered = None
             /\ In (LOG_WARNING,
                    ("[" ++ "shades.ttf" ++ "] Font could not be loaded.")%string)
                   log
        else filtered = Some (texture font)).
Proof.
  match goal with
  | |- context [?run = Some (_, _, _)] =>
      let v := eval vm_compute in run in
      match v with
      | Some (?f, ?l, ?t) =>
          assert (run = Some (f, l, t)) as Hrun by (vm_compute; reflexivity);
          exists f, l, t
      end
  end.
  split; [exact Hrun |].
  exact (LoadFont_default_charset shades sample_libm no_packer upload crop
                                  zeroed "shades.ttf" [0; 1; 0; 0] _ _ _
                                  eq_refl Hrun).
Defined.

(** *** A file that does not open *)

Lemma codepoints_nonempty (b : byte) (t : list byte) :
  b <> x00 -> In x00 t ->
  exists c cps, codepoints (b :: t) = Some (c :: cps).
Proof.
  intros Hb Ht.
  destruct (codepoints_total (b :: t) (or_intror Ht)) as [cps H].
  destruct (strlen_total t Ht) as [n Hn].
  destruct (strlen_null t n Hn) as [Hpos _].
  revert H. unfold codepoints. cbn [strlen].
  destruct (uchar b =? 0) eqn:E;
    [apply Z.eqb_eq, uchar_null in E; contradiction |].
  rewrite Hn. cbn [bind].
  replace (Z.to_nat (n + 1)) with (S (Z.to_nat n)) by lia.
  cbn [codepoints_from]. rewrite (proj2 (Z.leb_gt _ _)) by lia.
  destruct (decode (text_from (b :: t) 0)) as [[c k] |]; [| discriminate].
  cbn [bind]. destruct (codepoints_from _ _ _ _) as [cps' |]; [| discriminate].
  cbn [bind]. intros H. injection H as <-. now exists c, cps'.
Qed.

(** X18. When the file does not open, LoadFont logs two warnings, calls
    SetTextureFilter on nothing, and returns a font of base size 32 that
    claims 95 glyphs and has none (both arrays are null, the texture id is
    zero).  Such a font cannot be used: every glyph lookup reads the null
    array, and so does measuring or drawing any text that is not empty. *)
Theorem LoadFont_missing_file (rasterizer : Rasterizer) (libm : Libm)
        (stbrp_pack_rects : Z -> Z -> list (Z * Z) -> nat -> Z * Z * bool)
        (LoadTextureFromImage : Image.t -> Texture2D)
        (ImageFromImage : Image.t -> Rectangle.t -> Image.t)
        (unwritten : nat -> Rectangle.t)
        (fileName : string) :
  read_file rasterizer fileName = None ->
  LoadFont rasterizer libm stbrp_pack_rects LoadTextureFromImage
           ImageFromImage unwritten fileName
  = Some (unloaded_font 32 95,
          [(LOG_WARNING,
            ("[" ++ fileName ++ "] TTF file could not be opened")%string);
           (LOG_WARNING,
            ("[" ++ fileName ++ "] Font could not be loaded.")%string)],
          None)
  /\ (forall c, GetGlyphIndex (unloaded_font 32 95) c = None)
  /\ (forall (b : byte) (t : list byte) (position : Vector2.t)
             (fontSize spacing : Q) (color : Color.t),
         b <> x00 -> In x00 t ->
         MeasureTextEx (unloaded_font 32 95) (b :: t) fontSize spacing = None
         /\ DrawTextEx (unloaded_font 32 95) (b :: t) position fontSize
                       spacing color = None).
Proof.
  intros Hfile.
  assert (forall c, GetGlyphIndex (unloaded_font 32 95) c = None) as Hnone.
  { intros c. unfold GetGlyphIndex.
    apply GetGlyphIndex_loop_fails; cbn; [lia |]. split; [lia |].
    intros j g _ Hg. unfold at_index in Hg.
    destruct (j <? 0); [discriminate |].
    destruct (Z.to_nat j); discriminate. }
  split; [| split; [exact Hnone |]].
  - unfold LoadFont, LoadFontEx, LoadFontData, DEFAULT_TTF_FONTSIZE,
      DEFAULT_TTF_NUMCHARS.
    rewrite Hfile. reflexivity.
  - intros b t position fontSize spacing color Hb Ht.
    destruct (codepoints_nonempty b t Hb Ht) as (c & cps & Hcps).
    unfold DrawTextEx.
    rewrite MeasureTextEx_fold, DrawTextEx_run_fold, Hcps. cbn [bind foldM].
    unfold measure_step, draw_step. rewrite Hnone. split; reflexivity.
Qed.

Lemma LoadFont_missing_file_witness :
  LoadFont blocks sample_libm no_packer upload crop zeroed "missing.ttf"
  = Some (unloaded_font 32 95,
          [(LOG_WARNING,
            ("[" ++ "missing.ttf" ++ "] TTF file could not be opened")%string);
           (LOG_WARNING,
            ("[" ++ "missing.ttf" ++ "] Font could not be loaded.")%string)],
          None)
  /\ (forall c, GetGlyphIndex (unloaded_font 32 95) c = None)
  /\ (forall (b : byte) (t : list byte) (position : Vector2.t)
             (fontSize spacing : Q) (color : Color.t),
         b <> x00 -> In x00 t ->
         MeasureTextEx (unloaded_font 32 95) (b :: t) fontSize spacing = None
         /\ DrawTextEx (unloaded_font 32 95) (b :: t) position fontSize
                       spacing color = None).
Proof.
  apply (LoadFont_missing_file blocks sample_libm no_packer upload crop
                               zeroed "missing.ttf").
  reflexivity.
Defined.

(** ** UnloadFont *)

Lemma unload_images_all (font : Font) :
  forall (rest pre : list CharInfo),
    chars font = pre ++ rest ->
    unload_images font (List.length rest) (Z.of_nat (List.length pre))
    = Some (map (fun c => UnloadImage (image c)) rest).
Proof.
  induction rest as [| c rest IH]; intros pre Hchars; [reflexivity |].
  cbn [List.length unload_images]. rewrite Hchars, at_index_middle.
  cbn [bind].
  replace (Z.of_nat (List.length pre) + 1)
    with (Z.of_nat (List.length (pre ++ [c])))
    by (rewrite length_app; cbn [List.length]; lia).
  rewrite (IH (pre ++ [c])) by (now rewrite Hchars, <- app_assoc).
  reflexivity.
Qed.

Lemma unload_images_short (font : Font) :
  forall (n : nat) (i : Z),
    0 <= i <= Z.of_nat (List.length (chars font)) ->
    Z.of_nat (List.length (chars font)) < i + Z.of_nat n ->
    unload_images font n i = None.
Proof.
  induction n as [| n IH]; intros i Hi Hn; cbn [unload_images]; [lia |].
  destruct (at_index (chars font) i) as [c |] eqn:E; [| reflexivity].
  cbn [bind]. apply at_index_range in E.
  rewrite IH by lia. reflexivity.
Qed.

(** X19. UnloadFont releases all or nothing.  For a font whose texture id is the
    one of the default font it releases nothing and logs nothing.  For any
    other font with charsCount glyphs it releases the image of every glyph,
    in order, then the texture and the two arrays; when the glyph array is
    shorter than charsCount (null, for a font that failed to load) the loop
    reads outside it. *)
Theorem UnloadFont_all_or_nothing (GetFontDefault font : Font) :
  (id (texture font) = id (texture GetFontDefault) ->
   UnloadFont GetFontDefault font = Some ([], []))
  /\ (id (texture font) <> id (texture GetFontDefault) ->
      Z.of_nat (List.length (chars font)) = charsCount font ->
      UnloadFont GetFontDefault font
      = Some (map (fun c => UnloadImage (image c)) (chars font)
              ++ [UnloadTexture (texture font); FreeChars; FreeRecs],
              [(LOG_DEBUG, "Unloaded sprite font data"%string)]))
  /\ (id (texture font) <> id (texture GetFontDefault) ->
      Z.of_nat (List.length (chars font)) < charsCount font ->
      UnloadFont GetFontDefault font = None).
Proof.
  unfold UnloadFont. split; [| split].
  - intros ->. now rewrite Z.eqb_refl.
  - intros Hid Hlen. rewrite (proj2 (Z.eqb_neq _ _) Hid). cbn [negb].
    replace (Z.to_nat (charsCount font)) with (List.length (chars font))
      by lia.
    pose proof (unload_images_all font (chars font) [] eq_refl) as Hall.
    cbn [List.length Z.of_nat] in Hall. now rewrite Hall.
  - intros Hid Hlen. rewrite (proj2 (Z.eqb_neq _ _) Hid). cbn [negb].
    rewrite unload_images_short by lia. reflexivity.
Qed.
